(** * UnsplashDownloader.run: a shallow embedding and its properties

    The worker of [src/UnsplashDownloader.py] is one method, [run], that
    drives a list of keyword jobs through a paginated search API, resolves
    and downloads each result and reports through Qt signals.  The method is
    embedded here as a state-passing program over an explicit environment:
    the replies of the network, the clock and the moment [stop()] is called
    are given by a [World], and everything the worker does to the outside
    (signals, requests, sleeps, reads of the stop flag) is appended to a
    trace.

    The constructor of the worker and the part of [MainWindow] that builds
    its job list are embedded as pure functions: the keyword table is a
    list of rows of optional cells, and [start_download] maps the contents
    of the form to the worker it starts or to the warning it shows.

    Conventions.
    - Python [int] is [Z]; Python [float] values are exact rationals [Q]
      (the three float expressions of [run] are [limit * 0.9],
      [3600.0 / safe_limit] and [target_count / per_page]; on operands below
      2^53 truncation, ceiling and the comparison with [1.0] of the rounded
      double agree with the ones of the exact rational).
    - Python [str] is [string]; header values are ASCII text.
    - [dict.get] on the JSON bodies is an [option] field. *)

From Stdlib Require Import ZArith QArith Qround String Ascii List Bool Lia.
From stdpp Require Import base list.
Import ListNotations.

Local Open Scope string_scope.
Local Open Scope list_scope.
Local Open Scope Z_scope.

(** ** Python built-ins used by [run] *)

Module Py.

(** Truth value of an optional string: [None] and [""] are falsy. *)
Definition truthy (o : option string) : bool :=
  match o with
  | Some s => negb (String.eqb s "")
  | None => false
  end.

(** [a or b] on optional strings. *)
Definition or_ (a b : option string) : option string :=
  if truthy a then a else b.

Definition is_digit (c : ascii) : bool :=
  (48 <=? nat_of_ascii c)%nat && (nat_of_ascii c <=? 57)%nat.

Definition digit_val (c : ascii) : Z := Z.of_nat (nat_of_ascii c) - 48.

(** ASCII characters for which [str.isspace] holds. *)
Definition is_space (c : ascii) : bool :=
  let n := nat_of_ascii c in
  ((9 <=? n)%nat && (n <=? 13)%nat) || ((28 <=? n)%nat && (n <=? 32)%nat).

(** [s.isdigit()]: non-empty and made of decimal digits. *)
Definition isdigit (s : string) : bool :=
  match s with
  | EmptyString => false
  | _ => forallb is_digit (list_ascii_of_string s)
  end.

(** Value of a run of decimal digits, most significant first. *)
Definition int_of_digits (s : string) : Z :=
  fold_left (fun acc c => 10 * acc + digit_val c) (list_ascii_of_string s) 0.

Fixpoint lstrip (s : list ascii) : list ascii :=
  match s with
  | c :: r => if is_space c then lstrip r else s
  | [] => []
  end.

Definition strip (s : list ascii) : list ascii :=
  rev (lstrip (rev (lstrip s))).

(** Digits with single underscores allowed between them, as [int()]
    accepts; [after_digit] tells whether the previous character was a
    digit. *)
Fixpoint digits (acc : Z) (after_digit : bool) (s : list ascii) : option Z :=
  match s with
  | [] => if after_digit then Some acc else None
  | c :: r =>
      if is_digit c then digits (10 * acc + digit_val c) true r
      else if Ascii.eqb c "_"%char && after_digit then digits acc false r
      else None
  end.

(** [int(s)] for a string: surrounding white space, an optional sign,
    decimal digits.  [None] stands for [ValueError]. *)
Definition int (s : string) : option Z :=
  match strip (list_ascii_of_string s) with
  | c :: r =>
      if Ascii.eqb c "+"%char then digits 0 false r
      else if Ascii.eqb c "-"%char then option_map Z.opp (digits 0 false r)
      else digits 0 false (c :: r)
  | [] => None
  end.

(** [int(x)] for a float: truncation towards zero. *)
Definition int_of_float (x : Q) : Z := Z.quot (Qnum x) (Zpos (Qden x)).

(** [math.ceil(x)]. *)
Definition ceil (x : Q) : Z := Qceiling x.

(** [needle in hay] for strings. *)
Fixpoint contains (needle hay : string) : bool :=
  String.prefix needle hay ||
  match hay with
  | EmptyString => false
  | String _ rest => contains needle rest
  end.

(** [s[:n]]. *)
Definition take (n : nat) (s : string) : string := substring 0 n s.

(** [s.replace(" ", "_")]. *)
Fixpoint replace_spaces (s : string) : string :=
  match s with
  | EmptyString => EmptyString
  | String c rest =>
      String (if Ascii.eqb c " "%char then "_"%char else c) (replace_spaces rest)
  end.

(** [range(lo, hi)]. *)
Definition range (lo hi : Z) : list Z :=
  map (fun k => lo + Z.of_nat k) (seq 0 (Z.to_nat (hi - lo))).

(** [sum(...)] over integers. *)
Definition sum (l : list Z) : Z := fold_right Z.add 0 l.

End Py.

(** ** Rate budget and page count (lines 84-85, 97, 117) *)

Definition per_page : Z := 30.

(** [safe_limit = max(1, int(self.limit_per_hour * 0.9))] *)
Definition safe_limit (limit_per_hour : Z) : Z :=
  Z.max 1 (Py.int_of_float (inject_Z limit_per_hour * (9 # 10))).

(** [interval_sec = 3600.0 / safe_limit] *)
Definition interval_sec (limit_per_hour : Z) : Q :=
  inject_Z 3600 / inject_Z (safe_limit limit_per_hour).

(** [pages_needed = math.ceil(target_count / per_page) if target_count > 0 else 0] *)
Definition pages_needed (target_count : Z) : Z :=
  if 0 <? target_count
  then Py.ceil (inject_Z target_count / inject_Z per_page)
  else 0.

(** The budget as the specification words it. *)
Definition safeLimit_spec (requestsPerHour : Z) : Z :=
  Z.max 1 (Qfloor (inject_Z requestsPerHour * (9 # 10))).

Definition minIntervalSeconds_spec (requestsPerHour : Z) : Q :=
  inject_Z 3600 / inject_Z (safeLimit_spec requestsPerHour).

(** ** Rate-limit back-off decision (lines 172-202) *)

Definition rate_limit_marker : string := "Rate Limit Exceeded".

(** Lines 178-183: [int(remaining)] with [ValueError] turned into [None]. *)
Definition remaining_int (remaining : option string) : option Z :=
  match remaining with
  | Some r => Py.int r
  | None => None
  end.

(** Lines 186-200: the wait computed when auto-retry is on. *)
Definition wait_sec (remaining reset_ts : option string) (text : string) (now : Z)
  : option Z :=
  let first :=
    match remaining_int remaining, reset_ts with
    | Some 0, Some ts =>
        if Py.truthy reset_ts && Py.isdigit ts
        then Some (Z.max 0 (Py.int_of_digits ts - now))
        else None
    | _, _ => None
    end in
  match first with
  | Some wt => Some wt
  | None => if Py.contains rate_limit_marker text then Some 3600 else None
  end.

(** Lines 185-230 seen from the retry loop: [Some wt] is "sleep [wt] seconds
    and request the same page again", [None] is the error exit. *)
Definition retry_wait (auto_retry : bool) (remaining reset_ts : option string)
    (text : string) (now : Z) : option Z :=
  if auto_retry then wait_sec remaining reset_ts text now else None.

(** ** Data model *)

(** One entry of [self.jobs]: [{"keyword": str, "count": int}]. *)
Record Job := { keyword : string; count : Z }.

(** The fields [__init__] stores and [run] reads. *)
Record Config := {
  access_key : string;
  jobs : list Job;
  output_dir : string;
  limit_per_hour : Z;
  orientation : string;
  color : string;
  order_by : string;
  content_filter : string;
  auto_retry : bool
}.

(** One element of ["results"]: [photo["id"]],
    [photo["links"]["download_location"]], [photo["urls"]["full"]] and
    [photo["urls"]["regular"]], each possibly missing. *)
Record Photo := {
  id : option string;
  download_location : option string;
  full : option string;
  regular : option string
}.

(** What [run] reads of a search response.  [results] is [None] when
    [resp.json()] raises, and the list under ["results"] ([[]] when the key
    is missing) otherwise. *)
Record Response := {
  status_code : Z;
  x_ratelimit_remaining : option string;
  x_ratelimit_reset : option string;
  text : string;
  results : option (list Photo)
}.

(** Outcome of [requests.get(UNSPLASH_SEARCH_URL, ...)]. *)
Inductive SearchReply :=
| SearchFailed                    (* the call raised *)
| SearchResponse (r : Response).

(** Outcome of the [download_location] call.  For a response, [url] is
    [None] when reading the JSON body raises and [Some u] with
    [u = dl_json.get("url")] otherwise. *)
Inductive TrackReply :=
| TrackFailed
| TrackResponse (status : Z) (url : option (option string)).

(** Outcome of the image fetch.  [stored] is [false] when opening the file
    or streaming the body raises. *)
Inductive ImageReply :=
| ImageFailed
| ImageResponse (status : Z) (stored : bool).

(** Query parameters of one search request (lines 135-145). *)
Record Params := {
  query : string;
  page : Z;
  per_page_ : Z;
  order_by_ : string;
  content_filter_ : string;
  orientation_ : option string;
  color_ : option string
}.

(** Texts sent on the [progress] signal, by the line that formats them. *)
Inductive Msg :=
| MsgBudget (limit safe : Z) (interval : Q)                    (* 87 *)
| MsgStopped                                                   (* 103, 127, 253 *)
| MsgJobStart (job_index njobs : Z) (kw : string) (target : Z) (* 111 *)
| MsgSearching (job_index njobs pg pages request_no : Z)       (* 147 *)
| MsgRateDebug (remaining reset_ts : option string)            (* 174 *)
| MsgRateWait (wait_min : Z)                                   (* 204 *)
| MsgWaitStopped                                               (* 210, 342 *)
| MsgRetry                                                     (* 217 *)
| MsgNoMoreResults (kw : string)                               (* 246 *)
| MsgTrackJson (photo_id : string)                             (* 278 *)
| MsgTrackStatus (photo_id : string) (status : Z)              (* 282 *)
| MsgTrackError (photo_id : string)                            (* 288 *)
| MsgNoUrl (photo_id : string)                                 (* 297 *)
| MsgSaved (total total_images : Z) (file_name : string)       (* 318 *)
| MsgImageStatus (status : Z) (photo_id : string)              (* 323 *)
| MsgImageError (photo_id : string)                            (* 327 *)
| MsgJobDone (kw : string) (target : Z)                        (* 333 *)
| MsgAllDone.                                                  (* 352 *)

(** Exceptions that reach the handler of line 356. *)
Inductive Exn :=
| MkdirError        (* line 70 *)
| JsonError         (* line 242 *)
| UnboundResp.      (* line 242 with [resp] never assigned *)

(** Texts sent on the [error] signal. *)
Inductive ErrMsg :=
| ErrNoJobs                                      (* 57 *)
| ErrNoKey                                       (* 65 *)
| ErrZeroTotal                                   (* 75 *)
| ErrSearch                                      (* 160 *)
| ErrRateLimit (status : Z) (excerpt : string)   (* 224 *)
| ErrHttp (status : Z) (excerpt : string)        (* 233 *)
| ErrUnexpected (e : Exn).                       (* 357 *)

(** Everything the worker does that is visible from outside, in the order
    it happens: the seven signals, the reads of [_stop_flag], the three
    kinds of request with the reply each one got, the one-second sleeps,
    the directory creation and the files written. *)
Inductive Event :=
| progress (m : Msg)
| error (m : ErrMsg)
| finished
| progress_max (n : Z)
| progress_value (n : Z)
| page_max (n : Z)
| page_value (n : Z)
| PollStop (flag : bool)
| NetSearch (job_index : Z) (params : Params) (reply : SearchReply)
| NetTrack (url client_id : string) (reply : TrackReply)
| NetImage (url : string) (reply : ImageReply)
| FileSaved (name : string)
| Sleep1
| Mkdir (path : string).

(** The environment of one run.  Every interaction with it (a read of the
    flag, a request, a sleep) advances a counter, and the replies are given
    per value of that counter.  [stop_at] is the moment [stop()] runs on the
    other thread: the flag is only ever set, never cleared. *)
Record World := {
  stop_at : option nat;
  search_reply : nat -> SearchReply;
  track_reply : nat -> TrackReply;
  image_reply : nat -> ImageReply;
  clock : nat -> Z;
  env_key : string;
  mkdir_ok : bool
}.

(** The counters of a run as the specification names them. *)
Record RunTotals := {
  totalDownloaded : Z;
  perJobDownloaded : list Z
}.

(** Local variables of [run] that outlive one statement, and the record of
    what happened.  [job_downloaded] has one cell per job: the loop body of
    job number [k] only ever touches cell [k].  [trace] and [observed] grow
    at the head; [observed] holds the counters at each event. *)
Record State := {
  tick : nat;
  trace : list Event;
  observed : list RunTotals;
  total_downloaded : Z;
  request_count : Z;
  resp : option Response;
  job_downloaded : list Z
}.

Definition totals (s : State) : RunTotals :=
  {| totalDownloaded := total_downloaded s;
     perJobDownloaded := job_downloaded s |}.

Definition record (e : Event) (s : State) : State :=
  {| tick := tick s;
     trace := e :: trace s;
     observed := totals s :: observed s;
     total_downloaded := total_downloaded s;
     request_count := request_count s;
     resp := resp s;
     job_downloaded := job_downloaded s |}.

Definition advance (s : State) : State :=
  {| tick := S (tick s);
     trace := trace s;
     observed := observed s;
     total_downloaded := total_downloaded s;
     request_count := request_count s;
     resp := resp s;
     job_downloaded := job_downloaded s |}.

Definition with_total_downloaded (n : Z) (s : State) : State :=
  {| tick := tick s;
     trace := trace s;
     observed := observed s;
     total_downloaded := n;
     request_count := request_count s;
     resp := resp s;
     job_downloaded := job_downloaded s |}.

Definition with_request_count (n : Z) (s : State) : State :=
  {| tick := tick s;
     trace := trace s;
     observed := observed s;
     total_downloaded := total_downloaded s;
     request_count := n;
     resp := resp s;
     job_downloaded := job_downloaded s |}.

Definition with_resp (r : Response) (s : State) : State :=
  {| tick := tick s;
     trace := trace s;
     observed := observed s;
     total_downloaded := total_downloaded s;
     request_count := request_count s;
     resp := Some r;
     job_downloaded := job_downloaded s |}.

Definition with_job_downloaded (l : list Z) (s : State) : State :=
  {| tick := tick s;
     trace := trace s;
     observed := observed s;
     total_downloaded := total_downloaded s;
     request_count := request_count s;
     resp := resp s;
     job_downloaded := l |}.

(** State at entry of [run], for a job list of [n] entries. *)
Definition initial (n : nat) : State :=
  {| tick := 0;
     trace := [];
     observed := [];
     total_downloaded := 0;
     request_count := 0;
     resp := None;
     job_downloaded := replicate n 0 |}.

(** ** The monad of [run]: state, early [return], exceptions, fuel *)

(** How a statement can end other than by falling through. *)
Inductive Halt :=
| HReturn            (* a [return] of [run] *)
| HRaise (e : Exn)   (* an exception on its way to line 356 *)
| HFuel.             (* the retry loop was cut off *)

Inductive Res (A : Type) :=
| Val (a : A) (s : State)
| Stop (h : Halt) (s : State).
Arguments Val {A} a s.
Arguments Stop {A} h s.

Definition M (A : Type) := State -> Res A.

Definition final {A} (r : Res A) : State :=
  match r with
  | Val _ s => s
  | Stop _ s => s
  end.

Definition ret {A} (a : A) : M A := fun s => Val a s.

Definition bind {A B} (m : M A) (f : A -> M B) : M B :=
  fun s =>
    match m s with
    | Val a s' => f a s'
    | Stop h s' => Stop h s'
    end.

Notation "'do' x <- m 'in' k" := (bind m (fun x => k))
  (at level 10, x name, m at level 100, k at level 200).
Notation "m >> k" := (bind m (fun _ => k))
  (at level 100, k at level 200, right associativity).

Definition return_ {A} : M A := fun s => Stop HReturn s.
Definition raise {A} (e : Exn) : M A := fun s => Stop (HRaise e) s.
Definition out_of_fuel {A} : M A := fun s => Stop HFuel s.

(** [try: m except Exception as e: handler e] *)
Definition catch (m : M unit) (handler : Exn -> M unit) : M unit :=
  fun s =>
    match m s with
    | Stop (HRaise e) s' => handler e s'
    | r => r
    end.

Definition emit (e : Event) : M unit := fun s => Val tt (record e s).
Definition get {A} (f : State -> A) : M A := fun s => Val (f s) s.
Definition update (f : State -> State) : M unit := fun s => Val tt (f s).

(** [self.finished.emit(); return] *)
Definition exit_run {A} : M A := emit finished >> return_.

(** [self.error.emit(...); self.finished.emit(); return] *)
Definition abort {A} (e : ErrMsg) : M A := emit (error e) >> exit_run.

(** ** The worker *)

Section Worker.

Variable w : World.
Variable cfg : Config.

(** Bound on the number of times one page is requested again after a
    rate-limit wait; the source has none ([while True]). *)
Variable fuel : nat.

(** [self._stop_flag] at a given moment. *)
Definition stop_flag (t : nat) : bool :=
  match stop_at w with
  | Some t0 => (t0 <=? t)%nat
  | None => false
  end.

(** A read of [self._stop_flag]. *)
Definition poll_stop : M bool :=
  fun s =>
    let b := stop_flag (tick s) in
    Val b (advance (record (PollStop b) s)).

(** [time.sleep(1)] *)
Definition sleep1 : M unit := fun s => Val tt (advance (record Sleep1 s)).

(** [int(time.time())] *)
Definition time_now : M Z := fun s => Val (clock w (tick s)) s.

Definition http_search (job_index : Z) (p : Params) : M SearchReply :=
  fun s =>
    let r := search_reply w (tick s) in
    Val r (advance (record (NetSearch job_index p r) s)).

Definition http_track (url client_id : string) : M TrackReply :=
  fun s =>
    let r := track_reply w (tick s) in
    Val r (advance (record (NetTrack url client_id r) s)).

Definition http_image (url : string) : M ImageReply :=
  fun s =>
    let r := image_reply w (tick s) in
    Val r (advance (record (NetImage url r) s)).

(** [self.output_dir.mkdir(parents=True, exist_ok=True)] *)
Definition mkdir : M unit :=
  emit (Mkdir (output_dir cfg)) >>
  if mkdir_ok w then ret tt else raise MkdirError.

Definition njobs : Z := Z.of_nat (length (jobs cfg)).

(** [total_images = sum(job["count"] for job in self.jobs)] *)
Definition total_images : Z := Py.sum (map count (jobs cfg)).

Section Job.

(** [self.access_key] after lines 62-68. *)
Variable key : string.

(** The loop variables of line 101 ([slot] is [job_index - 1], the
    position of the job in the list) and lines 106-107. *)
Variable job_index : Z.
Variable slot : nat.
Variable kw : string.
Variable target_count : Z.

Definition read_job_downloaded : M Z :=
  get (fun s => default 0 (job_downloaded s !! slot)).

Definition write_job_downloaded (n : Z) : M unit :=
  update (fun s => with_job_downloaded (<[slot := n]> (job_downloaded s)) s).

(** Lines 264-294: the URL the image is fetched from. *)
Definition resolve (photo : Photo) : M (option string) :=
  let photo_id := default "unknown" (id photo) in
  do download_url <-
    (if Py.truthy (download_location photo) then
       do track_resp <- http_track (default "" (download_location photo)) key in
       match track_resp with
       | TrackFailed =>
           emit (progress (MsgTrackError photo_id)) >> ret None
       | TrackResponse status body =>
           if status =? 200 then
             match body with
             | Some url => ret url
             | None => emit (progress (MsgTrackJson photo_id)) >> ret None
             end
           else emit (progress (MsgTrackStatus photo_id status)) >> ret None
       end
     else ret None) in
  ret (if Py.truthy download_url then download_url
       else Py.or_ (full photo) (regular photo)).

(** Lines 259-327: the body of the item loop after its two guards. *)
Definition process_photo (photo : Photo) : M unit :=
  let photo_id := default "unknown" (id photo) in
  do download_url <- resolve photo in
  if negb (Py.truthy download_url) then
    emit (progress (MsgNoUrl photo_id))
  else
    let file_name := (Py.replace_spaces kw ++ "_" ++ photo_id ++ ".jpg")%string in
    do img_resp <- http_image (default "" download_url) in
    match img_resp with
    | ImageFailed => emit (progress (MsgImageError photo_id))
    | ImageResponse status stored =>
        if status =? 200 then
          if stored then
            emit (FileSaved file_name) >>
            do jd <- read_job_downloaded in
            write_job_downloaded (jd + 1) >>
            do td <- get total_downloaded in
            update (with_total_downloaded (td + 1)) >>
            do td <- get total_downloaded in
            emit (progress_value td) >>
            emit (progress (MsgSaved td total_images file_name))
          else emit (progress (MsgImageError photo_id))
        else emit (progress (MsgImageStatus status photo_id))
    end.

(** Lines 251-327: [for photo in results]. *)
Fixpoint photos_loop (photos : list Photo) : M unit :=
  match photos with
  | [] => ret tt
  | photo :: rest =>
      do stop <- poll_stop in
      if stop then emit (progress MsgStopped)           (* break *)
      else
        do jd <- read_job_downloaded in
        if target_count <=? jd then ret tt              (* break *)
        else process_photo photo >> photos_loop rest
  end.

(** Lines 208-215: the back-off sleep; a stop request ends the run. *)
Fixpoint rate_wait (n : nat) : M unit :=
  match n with
  | O => ret tt
  | S n' =>
      do stop <- poll_stop in
      if stop then
        emit (progress MsgWaitStopped) >> exit_run
      else sleep1 >> rate_wait n'
  end.

(** Lines 340-344: the sleep between two pages of a job. *)
Fixpoint interval_wait (n : nat) : M unit :=
  match n with
  | O => ret tt
  | S n' =>
      do stop <- poll_stop in
      if stop then emit (progress MsgWaitStopped)       (* break *)
      else sleep1 >> interval_wait n'
  end.

Definition search_params (pg : Z) : Params :=
  {| query := kw;
     page := pg;
     per_page_ := per_page;
     order_by_ := order_by cfg;
     content_filter_ := content_filter cfg;
     orientation_ :=
       if String.eqb (orientation cfg) "" then None else Some (orientation cfg);
     color_ := if String.eqb (color cfg) "" then None else Some (color cfg) |}.

(** Lines 131-237: [while True], one page requested until it is
    answered with 200, the run is stopped or an error ends it.
    [retries] bounds the number of [continue]s. *)
Fixpoint fetch_page (retries : nat) (pg : Z) : M unit :=
  do stop <- poll_stop in
  if stop then ret tt                                   (* break *)
  else
    do rc <- get request_count in
    emit (progress (MsgSearching job_index njobs pg (pages_needed target_count) (rc + 1))) >>
    do reply <- http_search job_index (search_params pg) in
    match reply with
    | SearchFailed => abort ErrSearch
    | SearchResponse r =>
        update (with_resp r) >>
        update (with_request_count (rc + 1)) >>
        if status_code r =? 200 then ret tt             (* break *)
        else if (status_code r =? 403) || (status_code r =? 429) then
          emit (progress (MsgRateDebug (x_ratelimit_remaining r) (x_ratelimit_reset r))) >>
          do now <- time_now in
          match retry_wait (auto_retry cfg) (x_ratelimit_remaining r)
                  (x_ratelimit_reset r) (text r) now with
          | Some wt =>
              emit (progress (MsgRateWait (wt / 60))) >>
              rate_wait (Z.to_nat wt) >>
              emit (progress MsgRetry) >>
              match retries with                         (* continue *)
              | O => out_of_fuel
              | S retries' => fetch_page retries' pg
              end
          | None =>
              abort (ErrRateLimit (status_code r) (Py.take 200 (text r)))
          end
        else
          abort (ErrHttp (status_code r) (Py.take 200 (text r)))
    end.

(** Lines 242-346: what is done with a fetched page.  [next] stands for the
    iterations of the page loop that follow. *)
Definition handle_page (pg : Z) (next : M unit) : M unit :=
  do r <- get resp in
  match r with
  | None => raise UnboundResp
  | Some r =>
      match results r with
      | None => raise JsonError
      | Some [] => emit (progress (MsgNoMoreResults kw))   (* break *)
      | Some photos =>
          photos_loop photos >>
          emit (page_value pg) >>
          do jd <- read_job_downloaded in
          if target_count <=? jd then
            emit (progress (MsgJobDone kw target_count))  (* break *)
          else if Qle_bool 1 (interval_sec (limit_per_hour cfg))
                  && (pg <? pages_needed target_count) then
            interval_wait
              (Z.to_nat (Py.int_of_float (interval_sec (limit_per_hour cfg)))) >>
            do stop <- poll_stop in
            if stop then ret tt                 (* break *)
            else next
          else next
      end
  end.

(** Lines 125-346: [for page in range(1, pages_needed + 1)]. *)
Fixpoint pages_loop (pages : list Z) : M unit :=
  match pages with
  | [] => ret tt
  | pg :: more =>
      do stop <- poll_stop in
      if stop then emit (progress MsgStopped)           (* break *)
      else
        fetch_page fuel pg >>
        do stop <- poll_stop in
        if stop then ret tt                             (* break *)
        else handle_page pg (pages_loop more)
  end.

End Job.

(** Lines 101-349: [for job_index, job in enumerate(self.jobs, start=1)];
    [slot] counts the jobs already passed. *)
Fixpoint jobs_loop (key : string) (slot : nat) (js : list Job) : M unit :=
  match js with
  | [] => ret tt
  | job :: rest =>
      let job_index := Z.of_nat slot + 1 in
      do stop <- poll_stop in
      if stop then emit (progress MsgStopped)             (* break *)
      else
        let kw := keyword job in
        let target_count := count job in
        if target_count <=? 0 then jobs_loop key (S slot) rest   (* continue *)
        else
          emit (progress (MsgJobStart job_index njobs kw target_count)) >>
          write_job_downloaded slot 0 >>
          if pages_needed target_count <=? 0 then
            jobs_loop key (S slot) rest                   (* continue *)
          else
            emit (page_max (pages_needed target_count)) >>
            emit (page_value 0) >>
            pages_loop key job_index slot kw target_count
              (Py.range 1 (pages_needed target_count + 1)) >>
            do stop <- poll_stop in
            if stop then ret tt                           (* break *)
            else jobs_loop key (S slot) rest
  end.

(** Lines 56-352: the body of the [try] up to its last statement. *)
Definition run_jobs : M unit :=
  match jobs cfg with
  | [] => abort ErrNoJobs
  | _ =>
      do key <-
        (if String.eqb (access_key cfg) "" then
           if String.eqb (env_key w) "" then
             abort ErrNoKey
           else ret (env_key w)
         else ret (access_key cfg)) in
      mkdir >>
      if total_images <=? 0 then
        abort ErrZeroTotal
      else
        emit (progress_max total_images) >>
        emit (progress_value 0) >>
        emit (progress (MsgBudget (limit_per_hour cfg)
                          (safe_limit (limit_per_hour cfg))
                          (interval_sec (limit_per_hour cfg)))) >>
        jobs_loop key 0 (jobs cfg) >>
        do stop <- poll_stop in
        if stop then ret tt else emit (progress MsgAllDone)
  end.

(** Lines 56-354: the body of the [try]. *)
Definition run_body : M unit := run_jobs >> emit finished.

(** Lines 54-358. *)
Definition run : M unit :=
  catch run_body (fun e => emit (error (ErrUnexpected e)) >> emit finished).

(** The run from its first statement: result and the events in the order
    they happened. *)
Definition execute : Res unit := run (initial (length (jobs cfg))).

Definition events : list Event := rev (trace (final execute)).

End Worker.

(** ** Vocabulary of the statements *)

(** [m] started in a state of [I] ends in a state of [I] when it falls
    through and in a state of [X h] when it halts with [h]. *)
Definition preserves (I : State -> Prop) (X : Halt -> State -> Prop)
    {A} (m : M A) : Prop :=
  forall s, I s ->
    match m s with
    | Val _ s' => I s'
    | Stop h s' => X h s'
    end.

(** The run came to an end (it was not cut off by the fuel bound). *)
Definition terminated {A} (r : Res A) : bool :=
  match r with
  | Stop HFuel _ => false
  | _ => true
  end.

Definition is_finished (e : Event) : bool :=
  match e with finished => true | _ => false end.

Definition is_error (e : Event) : bool :=
  match e with error _ => true | _ => false end.

(** A search reply with status 403 or 429. *)
Definition rate_limited (reply : SearchReply) : bool :=
  match reply with
  | SearchResponse r => (status_code r =? 403) || (status_code r =? 429)
  | SearchFailed => false
  end.

(** [finished] has not been emitted. *)
Definition unfinished (s : State) : Prop := ~ In finished (trace s).

(** [finished] is the last event so far, and the only one of its kind. *)
Definition just_finished (s : State) : Prop :=
  exists tr, trace s = finished :: tr /\ ~ In finished tr.

(** After a [return] the signal has just been sent; otherwise it has not
    been sent yet. *)
Definition finished_on_return (h : Halt) (s : State) : Prop :=
  match h with
  | HReturn => just_finished s
  | _ => unfinished s
  end.

(** ** Sample runs *)

Module Sample.

Definition photo (name : string) : Photo :=
  {| id := Some name;
     download_location := Some "https://api/track";
     full := Some "https://img/full";
     regular := Some "https://img/regular" |}.

Definition page_of (photos : list Photo) : Response :=
  {| status_code := 200;
     x_ratelimit_remaining := Some "40";
     x_ratelimit_reset := None;
     text := "";
     results := Some photos |}.

(** A server that answers every search with the same two photos and
    serves every tracking call and every image. *)
Definition calm : World :=
  {| stop_at := None;
     search_reply := fun _ => SearchResponse (page_of [photo "a"; photo "b"]);
     track_reply := fun _ => TrackResponse 200 (Some (Some "https://img/tracked"));
     image_reply := fun _ => ImageResponse 200 true;
     clock := fun _ => 1700000000;
     env_key := "";
     mkdir_ok := true |}.

(** An item with no URL at all. *)
Definition bare : Photo :=
  {| id := Some "x"; download_location := None; full := None; regular := None |}.

(** Tracking calls answer 500 and image fetches answer 404. *)
Definition failing : World :=
  {| stop_at := None;
     search_reply := fun _ => SearchResponse (page_of [photo "a"; photo "b"]);
     track_reply := fun _ => TrackResponse 500 None;
     image_reply := fun _ => ImageResponse 404 false;
     clock := fun _ => 1700000000;
     env_key := "";
     mkdir_ok := true |}.

(** A server that answers every search with status 500. *)
Definition server_error : Response :=
  {| status_code := 500;
     x_ratelimit_remaining := None;
     x_ratelimit_reset := None;
     text := "Internal Server Error";
     results := None |}.

Definition broken : World :=
  {| stop_at := None;
     search_reply := fun _ => SearchResponse server_error;
     track_reply := fun _ => TrackFailed;
     image_reply := fun _ => ImageFailed;
     clock := fun _ => 1700000000;
     env_key := "";
     mkdir_ok := true |}.

(** A server that answers every request; [stop()] is called at moment [t]. *)
Definition stopped_at (t : nat) : World :=
  {| stop_at := Some t;
     search_reply := fun _ => SearchResponse (page_of [photo "a"; photo "b"]);
     track_reply := fun _ => TrackResponse 200 (Some (Some "https://img/tracked"));
     image_reply := fun _ => ImageResponse 200 true;
     clock := fun _ => 1700000000;
     env_key := "";
     mkdir_ok := true |}.

(** [stop()] is called while the first search request is in flight: the
    flag is clear at the three checks before the request (moments 0 to 2)
    and set from the moment of the request on. *)
Definition stop_in_flight : World := stopped_at 3.

(** [stop()] is called between the check of the job loop and the check of
    the page loop. *)
Definition stop_before_page : World := stopped_at 1.

Definition config (js : list Job) : Config :=
  {| access_key := "key";
     jobs := js;
     output_dir := "out";
     limit_per_hour := 50;
     orientation := "";
     color := "";
     order_by := "relevant";
     content_filter := "low";
     auto_retry := true |}.

Definition one_job : Config := config [ {| keyword := "cats"; count := 1 |} ].

Definition big_job : Config := config [ {| keyword := "cats"; count := 65 |} ].

Definition two_jobs : Config :=
  config [ {| keyword := "cats"; count := 1 |};
           {| keyword := "dogs"; count := 1 |} ].

End Sample.

(** The fuel bound was not hit. *)
Definition fuel_left (h : Halt) (s : State) : Prop := h <> HFuel.

Definition anything (s : State) : Prop := True.

(** The two rate-limit headers can be used: [X-Ratelimit-Remaining] reads
    as the integer 0 and [X-Ratelimit-Reset] is a run of digits. *)
Definition headers_usable (remaining reset_ts : option string) : Prop :=
  remaining_int remaining = Some 0 /\
  exists ts, reset_ts = Some ts /\ Py.isdigit ts = true.

(** ** Resolution of one item (specification 4.3) *)

(** An optional string that is there and not empty. *)
Definition present (o : option string) : option string :=
  if Py.truthy o then o else None.

(** Step 1 of the policy: the URL given by the tracking call, when the item
    carries a tracking URL and the call answers 200 with a body that can be
    read. *)
Definition tracked_url (photo : Photo) (reply : TrackReply) : option string :=
  if Py.truthy (download_location photo) then
    match reply with
    | TrackResponse status (Some url) => if status =? 200 then url else None
    | _ => None
    end
  else None.

(** The policy in its order: tracking URL, full-resolution URL,
    regular-resolution URL, nothing. *)
Definition resolve_spec (photo : Photo) (reply : TrackReply) : option string :=
  match present (tracked_url photo reply) with
  | Some url => Some url
  | None =>
      match present (full photo) with
      | Some url => Some url
      | None => present (regular photo)
      end
  end.

(** The tracking call failed: it raised, answered another status than 200,
    or its body could not be read. *)
Definition track_failed (reply : TrackReply) : bool :=
  match reply with
  | TrackFailed => true
  | TrackResponse status body =>
      negb (status =? 200) || match body with None => true | Some _ => false end
  end.

Definition is_track_failure_msg (m : Msg) : bool :=
  match m with
  | MsgTrackJson _ | MsgTrackStatus _ _ | MsgTrackError _ => true
  | _ => false
  end.

(** The message logged for an item that is not downloaded, given the URL it
    resolved to and the reply to the image fetch; [None] for an item that is
    downloaded. *)
Definition item_failure (photo_id : string) (url : option string)
    (reply : ImageReply) : option Msg :=
  if Py.truthy url then
    match reply with
    | ImageFailed => Some (MsgImageError photo_id)
    | ImageResponse status stored =>
        if status =? 200 then
          if stored then None else Some (MsgImageError photo_id)
        else Some (MsgImageStatus status photo_id)
    end
  else Some (MsgNoUrl photo_id).

Definition is_net_track (e : Event) : bool :=
  match e with NetTrack _ _ _ => true | _ => false end.

Definition is_net_image (e : Event) : bool :=
  match e with NetImage _ _ => true | _ => false end.

Definition is_net_search (e : Event) : bool :=
  match e with NetSearch _ _ _ => true | _ => false end.

Definition is_file_saved (e : Event) : bool :=
  match e with FileSaved _ => true | _ => false end.

Definition is_sleep (e : Event) : bool :=
  match e with Sleep1 => true | _ => false end.

(** Number of events of one kind. *)
Definition occurrences (kind : Event -> bool) (tr : list Event) : nat :=
  length (List.filter kind tr).

(** What a failed tracking call leaves on the [progress] signal. *)
Definition track_log (photo_id : string) (reply : TrackReply) : list Event :=
  match reply with
  | TrackFailed => [progress (MsgTrackError photo_id)]
  | TrackResponse status body =>
      if status =? 200 then
        match body with
        | Some _ => []
        | None => [progress (MsgTrackJson photo_id)]
        end
      else [progress (MsgTrackStatus photo_id status)]
  end.

(** Name of the file an item is written to (lines 303-304). *)
Definition file_name_of (kw photo_id : string) : string :=
  (Py.replace_spaces kw ++ "_" ++ photo_id ++ ".jpg")%string.

(** What the download part of an item adds to the trace (newest first), for
    the URL it resolved to, the reply to the image fetch and the number of
    items downloaded before. *)
Definition download_log (total_images : Z) (kw photo_id : string)
    (url : option string) (reply : ImageReply) (downloaded : Z) : list Event :=
  if Py.truthy url then
    match item_failure photo_id url reply with
    | Some m => [progress m; NetImage (default "" url) reply]
    | None =>
        [progress (MsgSaved (downloaded + 1) total_images (file_name_of kw photo_id));
         progress_value (downloaded + 1);
         FileSaved (file_name_of kw photo_id);
         NetImage (default "" url) reply]
    end
  else [progress (MsgNoUrl photo_id)].

(** ** Terminal outcomes of a search request (specification 4.2) *)

(** The reply ends the run: the request raised, or it was answered with a
    status other than 200 for which no retry is made.  Whether a wait can be
    computed does not depend on the clock, which is read as 0 here. *)
Definition terminal_reply (auto_retry : bool) (reply : SearchReply) : bool :=
  match reply with
  | SearchFailed => true
  | SearchResponse r =>
      if status_code r =? 200 then false
      else if (status_code r =? 403) || (status_code r =? 429) then
        match retry_wait auto_retry (x_ratelimit_remaining r)
                (x_ratelimit_reset r) (text r) 0 with
        | Some _ => false
        | None => true
        end
      else true
  end.

(** What follows a terminal reply, in the order it happens. *)
Definition terminal_report (reply : SearchReply) : list Event :=
  match reply with
  | SearchFailed => [error ErrSearch; finished]
  | SearchResponse r =>
      if (status_code r =? 403) || (status_code r =? 429) then
        [progress (MsgRateDebug (x_ratelimit_remaining r) (x_ratelimit_reset r));
         error (ErrRateLimit (status_code r) (Py.take 200 (text r)));
         finished]
      else
        [error (ErrHttp (status_code r) (Py.take 200 (text r))); finished]
  end.

(** No search request of the trace got a terminal reply. *)
Definition clean (auto_retry : bool) (tr : list Event) : Prop :=
  forall j p reply,
    In (NetSearch j p reply) tr -> terminal_reply auto_retry reply = false.

(** The newest search request got a terminal reply and was followed by its
    report and nothing else. *)
Definition aborted (auto_retry : bool) (tr : list Event) : Prop :=
  exists j p reply older,
    tr = rev (terminal_report reply) ++ NetSearch j p reply :: older /\
    terminal_reply auto_retry reply = true /\
    clean auto_retry older.

Definition clean_state (auto_retry : bool) (s : State) : Prop :=
  clean auto_retry (trace s).

Definition clean_or_aborted (auto_retry : bool) (h : Halt) (s : State) : Prop :=
  match h with
  | HReturn => clean auto_retry (trace s) \/ aborted auto_retry (trace s)
  | _ => clean auto_retry (trace s)
  end.

(** ** Counters (specification 3, RunTotals) *)

(** The counters are consistent with the job list: one cell per job, no
    cell negative or above the (non-negative part of the) target of its
    job, and the run-wide total is the sum of the cells. *)
Definition ok_totals (js : list Job) (t : RunTotals) : Prop :=
  length (perJobDownloaded t) = length js /\
  totalDownloaded t = Py.sum (perJobDownloaded t) /\
  forall k d j,
    perJobDownloaded t !! k = Some d -> js !! k = Some j ->
    0 <= d <= Z.max 0 (count j).

(** The counters are consistent now and were at every event so far. *)
Definition sound (js : list Job) (s : State) : Prop :=
  ok_totals js (totals s) /\ Forall (ok_totals js) (observed s).

(** The cells from position [n] on are still at zero. *)
Definition untouched_from (n : nat) (s : State) : Prop :=
  forall k d, (n <= k)%nat -> job_downloaded s !! k = Some d -> d = 0.

(** Invariant of the body of the job loop for the job at position [slot]. *)
Definition in_job (js : list Job) (slot : nat) (s : State) : Prop :=
  sound js s /\ untouched_from (S slot) s.

Definition in_job_halt (js : list Job) (slot : nat) (h : Halt) (s : State) : Prop :=
  in_job js slot s.

(** Every event has its snapshot of the counters. *)
Definition in_step (s : State) : Prop := length (observed s) = length (trace s).

Definition in_step_halt (h : Halt) (s : State) : Prop := in_step s.

(** The counters as claimed: a cell for each job, none above the target of
    its job, their sum the run-wide total, itself within the sum of the
    targets. *)
Definition within_targets (js : list Job) (t : RunTotals) : Prop :=
  length (perJobDownloaded t) = length js /\
  (forall k d j,
     perJobDownloaded t !! k = Some d -> js !! k = Some j -> d <= count j) /\
  totalDownloaded t = Py.sum (perJobDownloaded t) /\
  totalDownloaded t <= Py.sum (map count js).

(** ** Pages requested for a job *)

(** The page of a search request made for the job of index [job_index]. *)
Definition search_page (job_index : Z) (e : Event) : option Z :=
  match e with
  | NetSearch j p _ => if j =? job_index then Some (page p) else None
  | _ => None
  end.

(** Pages of the search requests made for a job, in the order of the list. *)
Fixpoint requested_pages (job_index : Z) (evs : list Event) : list Z :=
  match evs with
  | [] => []
  | e :: rest =>
      match search_page job_index e with
      | Some p => p :: requested_pages job_index rest
      | None => requested_pages job_index rest
      end
  end.

(** Each request is for the page of the request before it or for the next
    one. *)
Fixpoint climbs (prev : Z) (l : list Z) : Prop :=
  match l with
  | [] => True
  | p :: rest => (p = prev \/ p = prev + 1) /\ climbs p rest
  end.

(** Requests in the order they were made: the first is for page 1 and the
    page number never goes back nor skips a page. *)
Definition in_order (l : list Z) : Prop :=
  match l with
  | [] => True
  | p :: rest => p = 1 /\ climbs p rest
  end.

(** The same for a list that has the newest request first. *)
Fixpoint descends (l : list Z) : Prop :=
  match l with
  | [] => True
  | p :: older =>
      match older with
      | [] => p = 1
      | q :: _ => p = q \/ p = q + 1
      end /\ descends older
  end.

(** Every job has its requests in order and within its number of pages. *)
Definition paged (js : list Job) (tr : list Event) : Prop :=
  forall slot job,
    js !! slot = Some job ->
    descends (requested_pages (Z.of_nat slot + 1) tr) /\
    Forall (fun p => 1 <= p <= pages_needed (count job))
      (requested_pages (Z.of_nat slot + 1) tr).

(** No request has been made for the jobs from index [j] on. *)
Definition fresh_from (j : Z) (tr : list Event) : Prop :=
  forall j', j <= j' -> requested_pages j' tr = [].

(** Invariant of the body of the job loop, for the job of index [j]. *)
Definition job_inv (js : list Job) (j : Z) (s : State) : Prop :=
  paged js (trace s) /\ fresh_from (j + 1) (trace s).

Definition job_inv_halt (js : list Job) (j : Z) (h : Halt) (s : State) : Prop :=
  job_inv js j s.

(** The newest request for the job of index [j] was for page [n] ([n = 0]:
    none was made). *)
Definition at_page (js : list Job) (j : Z) (n : Z) (s : State) : Prop :=
  job_inv js j s /\ hd 0 (requested_pages j (trace s)) = n.

(** ** Hoare triples *)

(** [m] started in a state of [P] ends in a state of [Q] when it falls
    through and in a state of [X h] when it halts with [h]. *)
Definition triple (P Q : State -> Prop) (X : Halt -> State -> Prop)
    {A} (m : M A) : Prop :=
  forall s, P s ->
    match m s with
    | Val _ s' => Q s'
    | Stop h s' => X h s'
    end.

(** ** Waits between search requests *)

(** Job, page and reply of the newest search request of a trace that has
    its newest event first. *)
Fixpoint last_search (tr : list Event) : option (Z * Z * SearchReply) :=
  match tr with
  | [] => None
  | NetSearch j p reply :: _ => Some (j, page p, reply)
  | _ :: older => last_search older
  end.

(** One-second sleeps since the newest search request (since the start when
    there is none). *)
Fixpoint sleeps_since (tr : list Event) : nat :=
  match tr with
  | [] => 0
  | NetSearch _ _ _ :: _ => 0
  | Sleep1 :: older => S (sleeps_since older)
  | _ :: older => sleeps_since older
  end.

(** Number of one-second sleeps of the wait of lines 339-344. *)
Definition interval_sleeps (limit_per_hour : Z) : nat :=
  if Qle_bool 1 (interval_sec limit_per_hour)
  then Z.to_nat (Py.int_of_float (interval_sec limit_per_hour))
  else 0.

(** The wait a search request for page [pg] of job [j] comes after, given
    the request before it and the sleeps in between: the first page of a job
    comes with no wait; a page is requested again after a 403 or 429 answer;
    the next page of the job comes after the [n] sleeps of the interval. *)
Definition gap_ok (n : nat) (j pg : Z) (prev : option (Z * Z * SearchReply))
    (sleeps : nat) : Prop :=
  match prev with
  | None => pg = 1 /\ sleeps = 0%nat
  | Some (j', q, reply) =>
      if j' =? j
      then (pg = q /\ rate_limited reply = true) \/ (pg = q + 1 /\ sleeps = n)
      else pg = 1 /\ sleeps = 0%nat
  end.

(** Every search request of the trace (newest first) comes after its wait. *)
Fixpoint spaced (n : nat) (tr : list Event) : Prop :=
  match tr with
  | [] => True
  | e :: older =>
      match e with
      | NetSearch j p _ =>
          gap_ok n j (page p) (last_search older) (sleeps_since older)
      | _ => True
      end /\ spaced n older
  end.

(** The claim that the interval is enforced before every request that has
    a request before it: at least [n] sleeps since that request. *)
Definition interval_enforced (n : nat) (before : list Event) : Prop :=
  last_search (rev before) = None \/ (n <= sleeps_since (rev before))%nat.

(** The stop flag is set. *)
Definition stopping (w : World) (s : State) : Prop :=
  stop_flag w (tick s) = true.

(** Every request so far came after its wait and, unless the stop flag is
    set, [F] holds of the newest request and of the sleeps since. *)
Definition phase (w : World) (n : nat)
    (F : option (Z * Z * SearchReply) -> nat -> Prop) (s : State) : Prop :=
  spaced n (trace s) /\
  (stopping w s \/ F (last_search (trace s)) (sleeps_since (trace s))).

(** The newest request was for page [pg] of job [j], [k] sleeps ago. *)
Definition waited (w : World) (n : nat) (j pg : Z) (k : nat) : State -> Prop :=
  phase w n (fun prev sleeps =>
               (exists r, prev = Some (j, pg, r)) /\ sleeps = k).

(** The newest request was for page [pg] of job [j] and was answered 403 or
    429. *)
Definition retrying (w : World) (n : nat) (j pg : Z) : State -> Prop :=
  phase w n (fun prev _ =>
               exists r, prev = Some (j, pg, r) /\ rate_limited r = true).

(** No sleep since the newest request, which was for a job up to [j]. *)
Definition settled (w : World) (n : nat) (j : Z) : State -> Prop :=
  phase w n (fun prev sleeps =>
               sleeps = 0%nat /\
               forall j' q r, prev = Some (j', q, r) -> j' <= j).

(** A request for page [pg] of job [j] may be made now. *)
Definition ready (w : World) (n : nat) (j pg : Z) : State -> Prop :=
  phase w n (gap_ok n j pg).

(** State at the head of the page loop for the pages [lo .. hi - 1]. *)
Definition entry (w : World) (n : nat) (j lo hi : Z) (s : State) : Prop :=
  if lo <? hi then ready w n j lo s else settled w n j s.

Definition spaced_halt (n : nat) (h : Halt) (s : State) : Prop :=
  spaced n (trace s).

(** Events that are neither a search request nor a sleep. *)
Definition is_plain (e : Event) : bool :=
  negb (is_net_search e) && negb (is_sleep e).

(** ** Cancellation *)

(** The two texts that report a stop request on the [progress] signal. *)
Definition is_stop_report (e : Event) : bool :=
  match e with
  | progress MsgStopped | progress MsgWaitStopped => true
  | _ => false
  end.

(** What may still happen once the stop flag has been read as set: further
    reads of the flag that find it set, messages, page progress and the
    [finished] signal. *)
Definition is_calm (e : Event) : bool :=
  match e with
  | PollStop true | progress _ | page_value _ | finished => true
  | _ => false
  end.

(** The stop flag has been read as set. *)
Definition seen (tr : list Event) : Prop := In (PollStop true) tr.

(** Trace with its newest event first: nothing but calm events is newer
    than a read of the flag that found it set. *)
Fixpoint quiet (tr : list Event) : Prop :=
  match tr with
  | [] => True
  | e :: older => (is_calm e = false -> ~ seen older) /\ quiet older
  end.

(** The flag has not been read as set. *)
Definition unseen (s : State) : Prop := ~ seen (trace s).

(** Nothing but calm events since the flag was read as set, and the flag
    stays set from then on. *)
Definition winding_down (w : World) (s : State) : Prop :=
  quiet (trace s) /\ (seen (trace s) -> stopping w s).

(** Exceptions and the fuel bound are met only before the flag is read as
    set. *)
Definition winding_down_halt (w : World) (h : Halt) (s : State) : Prop :=
  match h with
  | HReturn => winding_down w s
  | _ => unseen s
  end.

(** Trace with its newest event first: every one-second sleep comes right
    after a read of the flag that found it clear. *)
Fixpoint guarded (tr : list Event) : Prop :=
  match tr with
  | [] => True
  | e :: older =>
      match e with
      | Sleep1 => match older with PollStop false :: _ => True | _ => False end
      | _ => True
      end /\ guarded older
  end.

Definition guarded_state (s : State) : Prop := guarded (trace s).

Definition guarded_halt (h : Halt) (s : State) : Prop := guarded (trace s).

(** ** Errors *)

(** No [error] signal so far. *)
Definition no_error (s : State) : Prop := existsb is_error (trace s) = false.

(** Trace with its newest event first: either there is no [error] signal,
    or there is one, sent right before the [finished] signal that ends the
    trace. *)
Definition error_is_final (tr : list Event) : Prop :=
  existsb is_error tr = false \/
  exists m older,
    tr = finished :: error m :: older /\ existsb is_error older = false.

Definition no_error_halt (h : Halt) (s : State) : Prop :=
  match h with
  | HReturn => error_is_final (trace s)
  | _ => no_error s
  end.

(** ** Access key *)

(** [self.access_key] after lines 62-68: the configured key, or the one of
    the environment when none is configured. *)
Definition effective_key (w : World) (cfg : Config) : string :=
  if String.eqb (access_key cfg) "" then env_key w else access_key cfg.

(** A tracking call carries [key] as its [client_id]. *)
Definition carries (key : string) (e : Event) : Prop :=
  match e with
  | NetTrack _ client_id _ => client_id = key
  | _ => True
  end.

Definition keyed (key : string) (s : State) : Prop :=
  Forall (carries key) (trace s).

Definition keyed_halt (key : string) (h : Halt) (s : State) : Prop :=
  Forall (carries key) (trace s).

(** ** Files written *)

(** The run-wide counter is the number of files written so far. *)
Definition counted (s : State) : Prop :=
  total_downloaded s = Z.of_nat (occurrences is_file_saved (trace s)).

Definition counted_halt (h : Halt) (s : State) : Prop := counted s.

(** ** A server that answers every request *)

(** An item that resolves to a URL whatever the tracking call answers: it
    has a full-resolution or a regular-resolution URL. *)
Definition has_fallback (photo : Photo) : Prop :=
  Py.truthy (Py.or_ (full photo) (regular photo)) = true.

(** [stop()] is never called, the output directory can be created, every
    search is answered 200 with at least a full page of items that have a
    fallback URL, and every image is served and written. *)
Definition well_stocked (w : World) : Prop :=
  stop_at w = None /\
  mkdir_ok w = true /\
  (forall t, exists r photos,
     search_reply w t = SearchResponse r /\ status_code r = 200 /\
     results r = Some photos /\ per_page <= Z.of_nat (length photos) /\
     Forall has_fallback photos) /\
  (forall t, image_reply w t = ImageResponse 200 true).

(** What a job downloads when nothing stands in its way. *)
Definition goal (job : Job) : Z := Z.max 0 (count job).

(** A server that answers every search with a full page of thirty items
    and serves every tracking call and every image. *)
Definition full_page_server : World :=
  {| stop_at := None;
     search_reply :=
       fun _ => SearchResponse (Sample.page_of (replicate 30 (Sample.photo "a")));
     track_reply := fun _ => TrackResponse 200 (Some (Some "https://img/tracked"));
     image_reply := fun _ => ImageResponse 200 true;
     clock := fun _ => 1700000000;
     env_key := "";
     mkdir_ok := true |}.

(** * The worker's constructor and the window

    [UnsplashDownloader.__init__] (lines 28-51) and the parts of
    [MainWindow] (lines 364-717) that decide what a worker is started with:
    the keyword table and [start_download].  Text is ASCII, as for the
    worker; a table is the list of its rows, and a cell is [None] when
    [QTableWidget.item] returns no item. *)

(** [s.strip()]. *)
Definition str_strip (s : string) : string :=
  string_of_list_ascii (Py.strip (list_ascii_of_string s)).

(** [s.strip() or d]. *)
Definition strip_or (s d : string) : string :=
  if String.eqb (str_strip s) "" then d else str_strip s.

(** Lines 28-51: the fields of a new worker. *)
Definition init (access_key : string) (jobs : list Job) (output_dir : string)
    (limit_per_hour : Z) (orientation color order_by content_filter : string)
    (auto_retry : bool) : Config :=
  {| access_key := str_strip access_key;
     jobs := jobs;
     output_dir := output_dir;
     limit_per_hour := limit_per_hour;
     orientation := str_strip orientation;
     color := str_strip color;
     order_by := strip_or order_by "relevant";
     content_filter := strip_or content_filter "low";
     auto_retry := auto_retry |}.

(** A row of the keyword table: the items of its two columns. *)
Definition Row : Type := option string * option string.

(** Lines 510-515: a new row with an empty keyword and a count of 50. *)
Definition add_keyword_row (table : list Row) : list Row :=
  table ++ [(Some "", Some "50")].

(** [sorted({...}, reverse=True)] on row numbers, one insertion at a time:
    the distinct numbers, largest first. *)
Fixpoint insert_desc (r : nat) (l : list nat) : list nat :=
  match l with
  | [] => [r]
  | x :: rest =>
      if (x <? r)%nat then r :: l
      else if (x =? r)%nat then l
      else x :: insert_desc r rest
  end.

Definition sorted_desc (rows : list nat) : list nat :=
  fold_right insert_desc [] rows.

(** [QTableWidget.removeRow]; a row number that is not there removes
    nothing. *)
Definition removeRow (r : nat) (table : list Row) : list Row := delete r table.

(** Lines 517-525; [selected] holds the row of every selected cell. *)
Definition remove_selected_rows (selected : list nat) (table : list Row)
    : list Row :=
  let table' :=
    fold_left (fun t r => removeRow r t) (sorted_desc selected) table in
  if (length table' =? 0)%nat then add_keyword_row table' else table'.

(** [item.text().strip() if item else ""] *)
Definition item_text (item : option string) : string :=
  match item with
  | Some t => str_strip t
  | None => ""
  end.

(** How the loop of lines 607-628 ends. *)
Inductive Collected :=
| BadCount (row : Z) (count_str : string)   (* the warning of lines 616-622 *)
| IntError (count_str : string)             (* [int(count_str)] raising *)
| Jobs (jobs : list Job).

(** Lines 607-628, from row number [row] on, [jobs] being the list built so
    far. *)
Fixpoint collect_jobs (rows : list Row) (row : Z) (jobs : list Job) : Collected :=
  match rows with
  | [] => Jobs jobs
  | (kw_item, cnt_item) :: rest =>
      let keyword := item_text kw_item in
      let count_str := item_text cnt_item in
      if String.eqb keyword "" then collect_jobs rest (row + 1) jobs
      else if negb (Py.isdigit count_str) then BadCount (row + 1) count_str
      else
        match Py.int count_str with
        | None => IntError count_str
        | Some count =>
            if count <=? 0 then collect_jobs rest (row + 1) jobs
            else collect_jobs rest (row + 1)
                   (jobs ++ [ {| keyword := keyword; count := count |} ])
        end
  end.

(** What [start_download] reads from the widgets. *)
Record Form := {
  output_edit : string;
  keyword_table : list Row;
  api_key_edit : string;
  limit_spin : Z;
  orientation_combo : string;
  color_combo : string;
  order_by_combo : string;
  content_filter_combo : string;
  auto_retry_checkbox : bool
}.

(** How [start_download] ends: with one of its three warnings, with the
    exception of [int], or with a worker started and the image progress bar
    set to [bar_max]. *)
Inductive Outcome :=
| WarnNoOutputDir
| WarnBadCount (row : Z) (count_str : string)
| WarnNoRows
| Raised (count_str : string)
| Started (worker : Config) (bar_max : Z).

(** Lines 599-686, up to the worker it starts. *)
Definition start_download (f : Form) : Outcome :=
  let out_dir := str_strip (output_edit f) in
  if String.eqb out_dir "" then WarnNoOutputDir
  else
    match collect_jobs (keyword_table f) 0 [] with
    | BadCount row count_str => WarnBadCount row count_str
    | IntError count_str => Raised count_str
    | Jobs [] => WarnNoRows
    | Jobs jobs =>
        Started
          (init (api_key_edit f) jobs out_dir (limit_spin f)
             (orientation_combo f) (color_combo f) (order_by_combo f)
             (content_filter_combo f) (auto_retry_checkbox f))
          (Py.sum (map count jobs))
    end.

(** ** Vocabulary of the window *)

(** Made of white space only. *)
Definition blank (s : string) : Prop :=
  forallb Py.is_space (list_ascii_of_string s) = true.

(** Neither starts nor ends with white space. *)
Definition trimmed (l : list ascii) : Prop :=
  Py.lstrip l = l /\ Py.lstrip (rev l) = rev l.

(** The row is skipped by the loop: no keyword. *)
Definition row_empty (r : Row) : bool := String.eqb (item_text (fst r)) "".

(** The row stops the loop: a keyword and a count that is not a run of
    digits. *)
Definition row_bad (r : Row) : bool :=
  negb (row_empty r) && negb (Py.isdigit (item_text (snd r))).

(** The job a row stands for: a keyword and a count of digits above
    zero. *)
Definition row_job (r : Row) : option Job :=
  if row_empty r then None
  else if Py.int_of_digits (item_text (snd r)) <=? 0 then None
  else Some {| keyword := item_text (fst r);
               count := Py.int_of_digits (item_text (snd r)) |}.

(** The rows of [table] whose number, counted from [i], is not selected. *)
Fixpoint unselected (selected : list nat) (i : nat) (table : list Row)
    : list Row :=
  match table with
  | [] => []
  | row :: rest =>
      if existsb (Nat.eqb i) selected then unselected selected (S i) rest
      else row :: unselected selected (S i) rest
  end.

(** The form of a fresh window with one keyword row filled in. *)
Definition sample_form : Form :=
  {| output_edit := " out ";
     keyword_table := [(Some "", Some "50"); (Some " cats ", Some "65");
               (Some "dogs", Some "0"); (None, Some "x")];
     api_key_edit := " key ";
     limit_spin := 50;
     orientation_combo := "";
     color_combo := "";
     order_by_combo := "relevant";
     content_filter_combo := "low";
     auto_retry_checkbox := true |}.

(** The jobs of a table, in the order of its rows. *)
Fixpoint table_jobs (rows : list Row) : list Job :=
  match rows with
  | [] => []
  | r :: rest =>
      match row_job r with
      | Some job => job :: table_jobs rest
      | None => table_jobs rest
      end
  end.

(** Row numbers from the largest to the smallest, none twice. *)
Fixpoint descending (l : list nat) : Prop :=
  match l with
  | [] => True
  | x :: rest => Forall (fun y => (y < x)%nat) rest /\ descending rest
  end.

(** The two errors of [run] about its job list. *)
Definition is_job_list_error (e : Event) : bool :=
  match e with
  | error ErrNoJobs | error ErrZeroTotal => true
  | _ => false
  end.

Definition no_job_list_error (s : State) : Prop :=
  existsb is_job_list_error (trace s) = false.

Definition no_job_list_error_halt (h : Halt) (s : State) : Prop :=
  existsb is_job_list_error (trace s) = false.

(** ** The image progress signal *)

(** The values sent on [progress_value], in the order of the list. *)
Fixpoint progress_values (evs : list Event) : list Z :=
  match evs with
  | [] => []
  | progress_value v :: rest => v :: progress_values rest
  | _ :: rest => progress_values rest
  end.

(** Nothing has been sent on [progress_value] and nothing is downloaded. *)
Definition uncounted (s : State) : Prop :=
  progress_values (trace s) = [] /\ total_downloaded s = 0.

(** The values sent so far are 0, 1, ... up to the run-wide counter. *)
Definition counting (s : State) : Prop :=
  0 <= total_downloaded s /\
  progress_values (trace s) = rev (Py.range 0 (total_downloaded s + 1)).

Definition counting_halt (h : Halt) (s : State) : Prop :=
  uncounted s \/ counting s.

(** ** A server that keeps answering 403 or 429 *)

(** [stop()] is never called, the output directory can be created, and
    every search is answered 403 or 429 in a way that gives a wait whatever
    the clock says. *)
Definition always_limited (w : World) (cfg : Config) : Prop :=
  stop_at w = None /\
  mkdir_ok w = true /\
  forall t, exists r,
    search_reply w t = SearchResponse r /\
    (status_code r =? 403) || (status_code r =? 429) = true /\
    forall now,
      retry_wait (auto_retry cfg) (x_ratelimit_remaining r)
        (x_ratelimit_reset r) (text r) now <> None.

(** A server that answers every search 429 with the text of the rate
    limit and headers that say the limit is reset already. *)
Definition limiting_server : World :=
  {| stop_at := None;
     search_reply :=
       fun _ => SearchResponse
                  {| status_code := 429;
                     x_ratelimit_remaining := Some "0";
                     x_ratelimit_reset := Some "0";
                     text := "Rate Limit Exceeded";
                     results := None |};
     track_reply := fun _ => TrackFailed;
     image_reply := fun _ => ImageFailed;
     clock := fun _ => 1700000000;
     env_key := "";
     mkdir_ok := true |}.

(** ** Search requests and the jobs they are made for *)

(** A search request bears the index (from 1) of a job of the list and asks
    for a page of the keyword of that job, with the parameters of lines
    135-145. *)
Definition request_of (cfg : Config) (e : Event) : Prop :=
  match e with
  | NetSearch j p _ =>
      1 <= j /\
      exists job,
        jobs cfg !! Z.to_nat (j - 1) = Some job /\
        p = search_params cfg (keyword job) (page p)
  | _ => True
  end.

(** The job indices of the search requests, in the order of the list. *)
Fixpoint job_indices (evs : list Event) : list Z :=
  match evs with
  | [] => []
  | NetSearch j _ _ :: rest => j :: job_indices rest
  | _ :: rest => job_indices rest
  end.

(** No entry is above an entry before it. *)
Fixpoint nonincreasing (l : list Z) : Prop :=
  match l with
  | [] => True
  | x :: rest => Forall (fun y => y <= x) rest /\ nonincreasing rest
  end.

(** Trace with its newest event first: every search request is the one of
    a job, and the jobs are taken in the order of the list. *)
Definition requests (cfg : Config) (s : State) : Prop :=
  Forall (request_of cfg) (trace s) /\
  nonincreasing (job_indices (trace s)).

Definition requests_halt (cfg : Config) (h : Halt) (s : State) : Prop :=
  requests cfg s.

(** The same while the job of index [b] is at hand: no request was made
    for a job after it. *)
Definition requests_upto (cfg : Config) (b : Z) (s : State) : Prop :=
  requests cfg s /\ Forall (fun j => j <= b) (job_indices (trace s)).

(** ** Items and the search answer they come from *)

(** The newest search request of [older] was answered 200 with a list of
    items, one of which, with the index of the job searched, satisfies
    [ok]. *)
Definition from_newest_search (older : list Event) (ok : Z -> Photo -> Prop)
    : Prop :=
  exists j pg r photos photo,
    last_search older = Some (j, pg, SearchResponse r) /\
    status_code r = 200 /\ results r = Some photos /\
    In photo photos /\ ok j photo.

(** What is done for an item is done for an item of the newest search
    answer: the tracking call goes to its [download_location], and the file
    written is named after the keyword of the job searched and the [id] of
    the item. *)
Definition item_event (cfg : Config) (e : Event) (older : list Event) : Prop :=
  match e with
  | NetTrack url _ _ =>
      from_newest_search older
        (fun _ photo => download_location photo = Some url)
  | NetImage _ _ => from_newest_search older (fun _ _ => True)
  | FileSaved name =>
      from_newest_search older
        (fun j photo =>
           exists job,
             jobs cfg !! Z.to_nat (j - 1) = Some job /\
             name = file_name_of (keyword job) (default "unknown" (id photo)))
  | _ => True
  end.

(** Trace with its newest event first. *)
Fixpoint sourced (cfg : Config) (tr : list Event) : Prop :=
  match tr with
  | [] => True
  | e :: older => item_event cfg e older /\ sourced cfg older
  end.

(** The report of the handler of line 356. *)
Definition is_unexpected (e : Event) : bool :=
  match e with
  | error (ErrUnexpected _) => true
  | _ => false
  end.

(** Every item event so far has its search answer, and no exception has
    been reported. *)
Definition sound_items (cfg : Config) (s : State) : Prop :=
  sourced cfg (trace s) /\ existsb is_unexpected (trace s) = false.

(** [resp] is bound to the answer of the newest search request, made for
    the job of index [j], and that answer has status 200. *)
Definition synced (cfg : Config) (j : Z) (s : State) : Prop :=
  sound_items cfg s /\
  exists pg r,
    last_search (trace s) = Some (j, pg, SearchResponse r) /\
    resp s = Some r /\ status_code r = 200.

(** State after the retry loop: the stop flag is set, or [resp] is bound as
    [synced] says. *)
Definition fetched (w : World) (cfg : Config) (j : Z) (s : State) : Prop :=
  sound_items cfg s /\ (stopping w s \/ synced cfg j s).

(** State in the item loop over the items of the answer [r]. *)
Definition serving (cfg : Config) (j : Z) (r : Response) (s : State) : Prop :=
  sound_items cfg s /\
  exists pg, last_search (trace s) = Some (j, pg, SearchResponse r).

(** The exception that reaches the handler is not the one of an unbound
    [resp]. *)
Definition sound_items_halt (cfg : Config) (h : Halt) (s : State) : Prop :=
  sound_items cfg s /\ h <> HRaise UnboundResp.

(** A server as [Sample.calm] on a disk where the output directory cannot
    be created. *)
Definition unwritable : World :=
  {| stop_at := None;
     search_reply := search_reply Sample.calm;
     track_reply := track_reply Sample.calm;
     image_reply := image_reply Sample.calm;
     clock := clock Sample.calm;
     env_key := "";
     mkdir_ok := false |}.

(** ** Requests and what is left to download *)

(** The events so far, each with the counters at the time, newest first. *)
Definition history (s : State) : list (Event * RunTotals) :=
  combine (trace s) (observed s).

(** When a search request is made, the job it is made for has downloaded
    less than its target. *)
Definition request_needed (cfg : Config) (et : Event * RunTotals) : Prop :=
  match fst et with
  | NetSearch j _ _ =>
      exists job d,
        jobs cfg !! Z.to_nat (j - 1) = Some job /\
        perJobDownloaded (snd et) !! Z.to_nat (j - 1) = Some d /\
        d < count job
  | _ => True
  end.

Definition needed (cfg : Config) (s : State) : Prop :=
  Forall (request_needed cfg) (history s) /\
  length (job_downloaded s) = length (jobs cfg).

Definition needed_halt (cfg : Config) (h : Halt) (s : State) : Prop :=
  needed cfg s.

(** The same at a place where the job at position [slot] has less than
    [target]. *)
Definition hungry (cfg : Config) (slot : nat) (target : Z) (s : State) : Prop :=
  needed cfg s /\ default 0 (job_downloaded s !! slot) < target.

(** ** Jobs whose results ran out *)

(** The answer has status 200 and an empty list of results. *)
Definition ran_out (r : Response) : Prop :=
  status_code r = 200 /\ results r = Some [].

(** No request for the job of index [j] got such an answer. *)
Definition fresh_job (j : Z) (tr : list Event) : Prop :=
  forall p r, In (NetSearch j p (SearchResponse r)) tr -> ~ ran_out r.

(** Trace with its newest event first: no request is made for a job after
    its results ran out. *)
Fixpoint no_return (tr : list Event) : Prop :=
  match tr with
  | [] => True
  | e :: older =>
      match e with
      | NetSearch j _ _ => fresh_job j older
      | _ => True
      end /\ no_return older
  end.

(** No request yet for a job after the one of index [j]. *)
Definition idle (j : Z) (tr : list Event) : Prop :=
  no_return tr /\ Forall (fun i => i <= j) (job_indices tr).

(** A request for the job of index [j] may be made. *)
Definition asking (j : Z) (tr : list Event) : Prop :=
  idle j tr /\ fresh_job j tr.

(** The only answer for the job of index [j] that may have run out is the
    newest answer of the trace. *)
Definition answered (j : Z) (tr : list Event) : Prop :=
  idle j tr /\
  forall p r,
    In (NetSearch j p (SearchResponse r)) tr -> ran_out r ->
    exists pg, last_search tr = Some (j, pg, SearchResponse r).

(** The two assertions carried through a job. *)
Definition asking_state (cfg : Config) (j : Z) (s : State) : Prop :=
  asking j (trace s) /\ sound_items cfg s.

Definition idle_state (cfg : Config) (j : Z) (s : State) : Prop :=
  idle j (trace s) /\ sound_items cfg s.

Definition no_return_state (s : State) : Prop := no_return (trace s).

Definition no_return_halt (h : Halt) (s : State) : Prop := no_return (trace s).

(** State after the retry loop. *)
Definition answered_state (w : World) (cfg : Config) (j : Z) (s : State)
    : Prop :=
  answered j (trace s) /\ fetched w cfg j s.

(** State when a fetched page is handled. *)
Definition synced_state (cfg : Config) (j : Z) (s : State) : Prop :=
  answered j (trace s) /\ synced cfg j s.

(** A server that has nothing for any keyword. *)
Definition empty_server : World :=
  {| stop_at := None;
     search_reply := fun _ => SearchResponse (Sample.page_of []);
     track_reply := fun _ => TrackFailed;
     image_reply := fun _ => ImageFailed;
     clock := fun _ => 1700000000;
     env_key := "";
     mkdir_ok := true |}.

(** One job of three pages. *)
Definition three_pages : Config :=
  init "key" [ {| keyword := "cats"; count := 65 |} ] "out" 50
    "" "" "relevant" "low" true.

(* ################################################################# *)
(** * Properties *)

(** ** Arithmetic of the budget and of the page count *)

Lemma safe_limit_quot (l : Z) : safe_limit l = Z.max 1 (Z.quot (l * 9) 10).
Proof. reflexivity. Qed.

Lemma safe_limit_pos (l : Z) : 1 <= safe_limit l.
Proof. unfold safe_limit. lia. Qed.

Lemma safe_limit_floor (l : Z) : safe_limit l = Z.max 1 (l * 9 / 10).
Proof.
  rewrite safe_limit_quot.
  destruct (Z_le_gt_dec 0 l) as [Hl | Hl].
  - rewrite Z.quot_div_nonneg by lia. reflexivity.
  - assert (Z.quot (l * 9) 10 <= 0)
      by (apply Z.quot_le_upper_bound; lia).
    assert (l * 9 / 10 < 0) by (apply Z.div_lt_upper_bound; lia).
    lia.
Qed.

Lemma interval_sec_fraction (l : Z) :
  Qnum (interval_sec l) = 3600 /\ Zpos (Qden (interval_sec l)) = safe_limit l.
Proof.
  unfold interval_sec. pose proof (safe_limit_pos l) as Hpos.
  destruct (safe_limit l) as [| p | p]; try lia.
  split; reflexivity.
Qed.

(** [interval_sec >= 1.0] in integers. *)
Lemma interval_at_least_one (l : Z) :
  Qle_bool 1 (interval_sec l) = (safe_limit l <=? 3600).
Proof.
  destruct (interval_sec_fraction l) as [Hn Hd].
  unfold Qle_bool. rewrite Hn, Hd. simpl Qnum. simpl Qden.
  f_equal. lia.
Qed.

(** [int(interval_sec)] in integers. *)
Lemma interval_whole_seconds (l : Z) :
  Py.int_of_float (interval_sec l) = 3600 / safe_limit l.
Proof.
  destruct (interval_sec_fraction l) as [Hn Hd].
  unfold Py.int_of_float. rewrite Hn, Hd.
  apply Z.quot_div_nonneg; [lia | pose proof (safe_limit_pos l); lia].
Qed.

Lemma pages_needed_div (t : Z) : 0 < t -> pages_needed t = (t + 29) / 30.
Proof.
  intros Ht. unfold pages_needed, Py.ceil, Qceiling, Qfloor.
  destruct (Z.ltb_spec 0 t) as [_ | ?]; [| lia].
  cbn [Qopp Qdiv Qmult Qinv inject_Z per_page Qnum Qden].
  change (Z.pos (1 * 30)) with 30. rewrite Z.mul_1_r.
  pose proof (Z.div_mod (- t) 30 ltac:(lia)) as H1.
  pose proof (Z.mod_pos_bound (- t) 30 ltac:(lia)) as H2.
  pose proof (Z.div_mod (t + 29) 30 ltac:(lia)) as H3.
  pose proof (Z.mod_pos_bound (t + 29) 30 ltac:(lia)) as H4.
  lia.
Qed.

Lemma pages_needed_nonpos (t : Z) : t <= 0 -> pages_needed t = 0.
Proof.
  intros Ht. unfold pages_needed.
  destruct (Z.ltb_spec 0 t); [lia | reflexivity].
Qed.

Lemma pages_needed_pos (t : Z) : 0 < t -> 1 <= pages_needed t.
Proof.
  intros Ht. rewrite pages_needed_div by lia.
  apply Z.div_le_lower_bound; lia.
Qed.


(** ** Invariants through the monad *)

Section Preserves.

Variable I : State -> Prop.
Variable X : Halt -> State -> Prop.

Lemma preserves_ret {A} (a : A) : preserves I X (ret a).
Proof. intros s Hs. exact Hs. Qed.

Lemma preserves_bind {A B} (m : M A) (f : A -> M B) :
  preserves I X m -> (forall a, preserves I X (f a)) ->
  preserves I X (bind m f).
Proof.
  intros Hm Hf s Hs. unfold bind. specialize (Hm s Hs).
  destruct (m s) as [a s' | h s']; [apply Hf; exact Hm | exact Hm].
Qed.

Lemma preserves_get {A} (f : State -> A) : preserves I X (get f).
Proof. intros s Hs. exact Hs. Qed.

Lemma preserves_raise {A} (e : Exn) :
  (forall s, I s -> X (HRaise e) s) -> preserves I X (@raise A e).
Proof. intros H s Hs. apply H, Hs. Qed.

Lemma preserves_out_of_fuel {A} :
  (forall s, I s -> X HFuel s) -> preserves I X (@out_of_fuel A).
Proof. intros H s Hs. apply H, Hs. Qed.

Lemma preserves_update (f : State -> State) :
  (forall s, I s -> I (f s)) -> preserves I X (update f).
Proof. intros H s Hs. apply H, Hs. Qed.

Lemma preserves_emit (e : Event) :
  (forall s, I s -> I (record e s)) -> preserves I X (emit e).
Proof. intros H s Hs. apply H, Hs. Qed.

Lemma preserves_exit_run {A} :
  (forall s, I s -> X HReturn (record finished s)) ->
  preserves I X (@exit_run A).
Proof. intros H s Hs. apply H, Hs. Qed.

Lemma preserves_abort {A} (e : ErrMsg) :
  (forall s, I s -> X HReturn (record finished (record (error e) s))) ->
  preserves I X (@abort A e).
Proof. intros H s Hs. apply H, Hs. Qed.

Lemma preserves_poll_stop w :
  (forall s, I s -> I (advance (record (PollStop (stop_flag w (tick s))) s))) ->
  preserves I X (poll_stop w).
Proof. intros H s Hs. apply H, Hs. Qed.

Lemma preserves_sleep1 :
  (forall s, I s -> I (advance (record Sleep1 s))) -> preserves I X sleep1.
Proof. intros H s Hs. apply H, Hs. Qed.

Lemma preserves_time_now w : preserves I X (time_now w).
Proof. intros s Hs. exact Hs. Qed.

Lemma preserves_http_search w j p :
  (forall s r, I s -> I (advance (record (NetSearch j p r) s))) ->
  preserves I X (http_search w j p).
Proof. intros H s Hs. apply H, Hs. Qed.

Lemma preserves_http_track w u c :
  (forall s r, I s -> I (advance (record (NetTrack u c r) s))) ->
  preserves I X (http_track w u c).
Proof. intros H s Hs. apply H, Hs. Qed.

Lemma preserves_http_image w u :
  (forall s r, I s -> I (advance (record (NetImage u r) s))) ->
  preserves I X (http_image w u).
Proof. intros H s Hs. apply H, Hs. Qed.

End Preserves.

(** Walks through a program of [M], leaving to [side] what each primitive
    asks of the invariant; calls of loops are closed by the hypotheses at
    hand. *)
Ltac preserves_go side :=
  repeat lazymatch goal with
  | |- preserves _ _ (bind _ _) => apply preserves_bind; [ | intros ? ]
  | |- preserves _ _ (ret _) => apply preserves_ret
  | |- preserves _ _ (get _) => apply preserves_get
  | |- preserves _ _ (time_now _) => apply preserves_time_now
  | |- preserves _ _ (raise _) => apply preserves_raise; side
  | |- preserves _ _ out_of_fuel => apply preserves_out_of_fuel; side
  | |- preserves _ _ (update _) => apply preserves_update; side
  | |- preserves _ _ (emit _) => apply preserves_emit; side
  | |- preserves _ _ exit_run => apply preserves_exit_run; side
  | |- preserves _ _ (abort _) => apply preserves_abort; side
  | |- preserves _ _ (poll_stop _) => apply preserves_poll_stop; side
  | |- preserves _ _ sleep1 => apply preserves_sleep1; side
  | |- preserves _ _ (http_search _ _ _) => apply preserves_http_search; side
  | |- preserves _ _ (http_track _ _ _) => apply preserves_http_track; side
  | |- preserves _ _ (http_image _ _) => apply preserves_http_image; side
  | |- preserves _ _ (mkdir _ _) => unfold mkdir
  | |- preserves _ _ (read_job_downloaded _) => unfold read_job_downloaded
  | |- preserves _ _ (write_job_downloaded _ _) => unfold write_job_downloaded
  | |- preserves _ _ (if ?b then _ else _) => destruct b eqn:?
  | |- preserves _ _ (match ?x with _ => _ end) => destruct x eqn:?
  | |- preserves _ _ _ => solve [ eauto ]
  end.

(** ** The [finished] signal *)

Ltac finished_side :=
  unfold finished_on_return, unfinished, just_finished; cbn; intros;
  try solve [ intuition congruence
            | eexists; split; [reflexivity |]; cbn; intuition congruence ].

Section Finished.

Variable w : World.
Variable cfg : Config.
Variable fuel : nat.

Section Job.

Variables (key : string) (job_index : Z) (slot : nat) (kw : string)
          (target_count : Z).

Lemma resolve_finished photo :
  preserves unfinished finished_on_return (resolve w key photo).
Proof. unfold resolve. preserves_go finished_side. Qed.

Lemma process_photo_finished photo :
  preserves unfinished finished_on_return
    (process_photo w cfg key slot kw photo).
Proof.
  pose proof resolve_finished.
  unfold process_photo. preserves_go finished_side.
Qed.

Lemma photos_loop_finished photos :
  preserves unfinished finished_on_return
    (photos_loop w cfg key slot kw target_count photos).
Proof.
  pose proof process_photo_finished.
  induction photos; cbn [photos_loop]; preserves_go finished_side.
Qed.

Lemma rate_wait_finished n :
  preserves unfinished finished_on_return (rate_wait w n).
Proof. induction n; cbn [rate_wait]; preserves_go finished_side. Qed.

Lemma interval_wait_finished n :
  preserves unfinished finished_on_return (interval_wait w n).
Proof. induction n; cbn [interval_wait]; preserves_go finished_side. Qed.

Lemma fetch_page_finished retries pg :
  preserves unfinished finished_on_return
    (fetch_page w cfg job_index kw target_count retries pg).
Proof.
  pose proof rate_wait_finished.
  induction retries; cbn [fetch_page]; preserves_go finished_side.
Qed.

Lemma pages_loop_finished pages :
  preserves unfinished finished_on_return
    (pages_loop w cfg fuel key job_index slot kw target_count pages).
Proof.
  pose proof fetch_page_finished.
  pose proof photos_loop_finished.
  pose proof interval_wait_finished.
  induction pages; cbn [pages_loop]; unfold handle_page; preserves_go finished_side.
Qed.

End Job.

Lemma jobs_loop_finished key js : forall slot,
  preserves unfinished finished_on_return (jobs_loop w cfg fuel key slot js).
Proof.
  pose proof pages_loop_finished.
  induction js; intros slot; cbn [jobs_loop]; preserves_go finished_side.
Qed.

Lemma run_jobs_finished :
  preserves unfinished finished_on_return (run_jobs w cfg fuel).
Proof.
  pose proof jobs_loop_finished.
  unfold run_jobs. preserves_go finished_side.
Qed.

Lemma run_finished s :
  unfinished s ->
  match run w cfg fuel s with
  | Stop HFuel s' => unfinished s'
  | r => just_finished (final r)
  end.
Proof.
  intros Hs. unfold run, catch, run_body, bind at 1.
  pose proof (run_jobs_finished s Hs) as Hb.
  destruct (run_jobs w cfg fuel s) as [[] s' | [ | e | ] s']; cbn; auto;
    revert Hb; finished_side.
Qed.

End Finished.

Lemma initial_unfinished n : unfinished (initial n).
Proof. intros []. Qed.

Lemma just_finished_events s :
  just_finished s ->
  exists before,
    rev (trace s) = before ++ [finished] /\ ~ In finished before.
Proof.
  intros (tr & Htr & Hno). exists (rev tr). rewrite Htr. split.
  - reflexivity.
  - rewrite <- in_rev. exact Hno.
Qed.

(** C10.  A run that comes to an end, whichever way, has emitted [finished]
    exactly once, as its last signal: every [error] of the run was emitted
    before it. *)
Theorem finished_exactly_once (w : World) (cfg : Config) (fuel : nat) :
  terminated (execute w cfg fuel) = true ->
  exists before,
    events w cfg fuel = before ++ [finished] /\
    ~ In finished before /\
    (forall m, In (error m) (events w cfg fuel) -> In (error m) before).
Proof.
  intros Hterm. unfold events, execute in *.
  pose proof (run_finished w cfg fuel _ (initial_unfinished (length (jobs cfg))))
    as Hrun.
  assert (Hjust : just_finished (final (run w cfg fuel (initial (length (jobs cfg)))))).
  { destruct (run w cfg fuel (initial (length (jobs cfg)))) as [a s | [ | e | ] s];
      try exact Hrun. discriminate Hterm. }
  destruct (just_finished_events _ Hjust) as (before & Heq & Hno).
  exists before. split; [exact Heq |]. split; [exact Hno |].
  intros m Hin. rewrite Heq in Hin. apply in_app_or in Hin.
  destruct Hin as [Hin | [Hin | []]]; [exact Hin | discriminate Hin].
Qed.

Lemma finished_exactly_once_witness :
  terminated (execute Sample.calm Sample.one_job 0) = true /\
  exists before,
    events Sample.calm Sample.one_job 0 = before ++ [finished] /\
    ~ In finished before /\
    (forall m, In (error m) (events Sample.calm Sample.one_job 0) ->
               In (error m) before).
Proof.
  split; [reflexivity |].
  apply (finished_exactly_once Sample.calm Sample.one_job 0). reflexivity.
Defined.

(** ** Symbolic execution *)

Ltac sym :=
  cbn [bind ret emit get update exit_run abort return_ raise out_of_fuel
       poll_stop sleep1 time_now http_search http_track http_image
       read_job_downloaded write_job_downloaded
       final terminated
       tick trace observed total_downloaded request_count resp job_downloaded
       record advance with_total_downloaded with_request_count with_resp
       with_job_downloaded] in *.

Lemma bind_assoc {A B C} (m : M A) (f : A -> M B) (g : B -> M C) (s : State) :
  bind (bind m f) g s = bind m (fun x => bind (f x) g) s.
Proof. unfold bind. destruct (m s); reflexivity. Qed.

Ltac sym_case :=
  lazymatch goal with
  | |- context [bind (bind _ _) _ _] => rewrite bind_assoc
  | |- context [bind (if ?b then _ else _) _ _] => destruct b eqn:?
  | |- context [(if ?b then _ else _) _] => destruct b eqn:?
  | |- context [(match ?x with _ => _ end) _] => destruct x eqn:?
  end.

Ltac sym_go := sym; repeat (sym_case; sym).

(** ** Termination

    The retry loop of lines 131-237 has no bound of its own.  Once the
    server stops answering 403 or 429, a run with that much fuel comes to
    an end. *)

Ltac fuel_side :=
  unfold fuel_left, anything; cbn; intros;
  try solve [ trivial | congruence | lia ].

Section Total.

Variable w : World.
Variable cfg : Config.
Variable horizon : nat.
Hypothesis quiet :
  forall t, (horizon <= t)%nat -> rate_limited (search_reply w t) = false.

Lemma rate_wait_tick t0 n :
  preserves (fun s => (t0 <= tick s)%nat) fuel_left (rate_wait w n).
Proof. induction n; cbn [rate_wait]; preserves_go fuel_side. Qed.

Lemma fetch_page_total job_index kw target_count pg retries : forall s,
  (horizon <= retries + tick s)%nat ->
  terminated (fetch_page w cfg job_index kw target_count retries pg s) = true.
Proof.
  induction retries as [| retries IH]; intros s Hs; cbn [fetch_page]; sym_go;
    try reflexivity.
  - pose proof (quiet (S (tick s)) ltac:(lia)) as Hq.
    rewrite Heqs0 in Hq. cbn in Hq. congruence.
  - unfold bind at 1.
    match goal with
    | |- context [rate_wait w ?n ?s1] =>
        pose proof (rate_wait_tick (S (S (tick s))) n s1 (le_n _)) as Ht;
        destruct (rate_wait w n s1) as [[] s2 | h s2]
    end; sym.
    + apply IH. sym. cbn in Ht. lia.
    + destruct h; try reflexivity. elim Ht. reflexivity.
Qed.

Variable fuel : nat.
Hypothesis enough : (horizon <= fuel)%nat.

Lemma fetch_page_fuel job_index kw target_count pg :
  preserves anything fuel_left
    (fetch_page w cfg job_index kw target_count fuel pg).
Proof.
  intros s _.
  pose proof (fetch_page_total job_index kw target_count pg fuel s ltac:(lia)) as H.
  destruct (fetch_page w cfg job_index kw target_count fuel pg s) as [a s' | h s'].
  - exact Logic.I.
  - intros ->. discriminate H.
Qed.

Lemma resolve_fuel key photo :
  preserves anything fuel_left (resolve w key photo).
Proof. unfold resolve. preserves_go fuel_side. Qed.

Lemma process_photo_fuel key slot kw photo :
  preserves anything fuel_left (process_photo w cfg key slot kw photo).
Proof.
  pose proof resolve_fuel. unfold process_photo. preserves_go fuel_side.
Qed.

Lemma photos_loop_fuel key slot kw target_count photos :
  preserves anything fuel_left
    (photos_loop w cfg key slot kw target_count photos).
Proof.
  pose proof process_photo_fuel.
  induction photos; cbn [photos_loop]; preserves_go fuel_side.
Qed.

Lemma interval_wait_fuel n : preserves anything fuel_left (interval_wait w n).
Proof. induction n; cbn [interval_wait]; preserves_go fuel_side. Qed.

Lemma pages_loop_fuel key job_index slot kw target_count pages :
  preserves anything fuel_left
    (pages_loop w cfg fuel key job_index slot kw target_count pages).
Proof.
  pose proof fetch_page_fuel.
  pose proof photos_loop_fuel.
  pose proof interval_wait_fuel.
  induction pages; cbn [pages_loop]; unfold handle_page; preserves_go fuel_side.
Qed.

Lemma jobs_loop_fuel key js : forall slot,
  preserves anything fuel_left (jobs_loop w cfg fuel key slot js).
Proof.
  pose proof pages_loop_fuel.
  induction js; intros slot; cbn [jobs_loop]; preserves_go fuel_side.
Qed.

Lemma run_jobs_fuel : preserves anything fuel_left (run_jobs w cfg fuel).
Proof.
  pose proof jobs_loop_fuel. unfold run_jobs. preserves_go fuel_side.
Qed.

(** With fuel up to the horizon the run returns. *)
Theorem run_terminates : terminated (execute w cfg fuel) = true.
Proof.
  unfold execute, run, catch, run_body, bind at 1.
  pose proof (run_jobs_fuel (initial (length (jobs cfg))) Logic.I) as H.
  destruct (run_jobs w cfg fuel _) as [[] s' | [ | e | ] s']; try reflexivity.
  elim H. reflexivity.
Qed.

End Total.

(** ** Rate-limit headers

    [reset_ts.isdigit()] guards [int(reset_ts)] at line 195: on a run of
    digits [int] does not raise and yields the value of the digits. *)

Lemma digit_not_space c : Py.is_digit c = true -> Py.is_space c = false.
Proof.
  unfold Py.is_digit, Py.is_space. intros H.
  apply andb_true_iff in H as [H1 H2].
  apply Nat.leb_le in H1, H2.
  apply orb_false_iff. split; apply andb_false_iff.
  - right. apply Nat.leb_gt. lia.
  - right. apply Nat.leb_gt. lia.
Qed.

Lemma digit_not_sign c :
  Py.is_digit c = true -> Ascii.eqb c "+" = false /\ Ascii.eqb c "-" = false.
Proof.
  unfold Py.is_digit. intros H.
  apply andb_true_iff in H as [H1 H2]. apply Nat.leb_le in H1, H2.
  split; apply Ascii.eqb_neq; intros ->; compute in H1, H2; lia.
Qed.

Lemma lstrip_digits l :
  match l with c :: _ => Py.is_digit c = true | [] => True end -> Py.lstrip l = l.
Proof.
  destruct l as [| c r]; [reflexivity |]. intros H. cbn.
  rewrite (digit_not_space c H). reflexivity.
Qed.

Lemma strip_digits l : forallb Py.is_digit l = true -> Py.strip l = l.
Proof.
  intros H. unfold Py.strip.
  rewrite (lstrip_digits l).
  2:{ destruct l; [exact Logic.I |]. cbn in H. apply andb_true_iff in H. tauto. }
  rewrite lstrip_digits.
  - apply rev_involutive.
  - assert (Hr : forallb Py.is_digit (rev l) = true).
    { apply forallb_forall. intros x Hx. apply in_rev in Hx.
      rewrite forallb_forall in H. auto. }
    destruct (rev l); [exact Logic.I |]. cbn in Hr. apply andb_true_iff in Hr. tauto.
Qed.

Lemma digits_all l : forall acc b,
  forallb Py.is_digit l = true -> (l <> [] \/ b = true) ->
  Py.digits acc b l = Some (fold_left (fun a c => 10 * a + Py.digit_val c) l acc).
Proof.
  induction l as [| c r IH]; intros acc b Hall Hne.
  - destruct Hne as [Hne | ->]; [congruence | reflexivity].
  - cbn in *. apply andb_true_iff in Hall as [Hc Hr]. rewrite Hc.
    apply IH; auto.
Qed.

Lemma int_isdigit s : Py.isdigit s = true -> Py.int s = Some (Py.int_of_digits s).
Proof.
  unfold Py.isdigit, Py.int, Py.int_of_digits.
  destruct s as [| c s]; [discriminate |]. intros Hall.
  rewrite strip_digits by exact Hall.
  cbn [list_ascii_of_string] in *.
  assert (Hc : Py.is_digit c = true) by (cbn in Hall; apply andb_true_iff in Hall; tauto).
  destruct (digit_not_sign c Hc) as [-> ->].
  apply digits_all; [exact Hall | left; discriminate].
Qed.

Lemma int_of_digits_nonneg s : Py.isdigit s = true -> 0 <= Py.int_of_digits s.
Proof.
  unfold Py.isdigit, Py.int_of_digits. destruct s as [| c s]; [discriminate |].
  generalize (list_ascii_of_string (String c s)). intros l.
  assert (H : forall acc, 0 <= acc -> forallb Py.is_digit l = true ->
              0 <= fold_left (fun a c => 10 * a + Py.digit_val c) l acc).
  { induction l as [| d r IH]; intros acc Hacc Hall; [exact Hacc |].
    cbn in *. apply andb_true_iff in Hall as [Hd Hr]. apply IH; [| exact Hr].
    unfold Py.is_digit in Hd. apply andb_true_iff in Hd as [H1 H2].
    apply Nat.leb_le in H1, H2. unfold Py.digit_val. lia. }
  apply H. lia.
Qed.

Lemma wait_sec_usable remaining ts text now :
  remaining_int remaining = Some 0 -> Py.isdigit ts = true ->
  wait_sec remaining (Some ts) text now = Some (Z.max 0 (Py.int_of_digits ts - now)).
Proof.
  intros Hr Hd. unfold wait_sec. rewrite Hr, Hd.
  assert (Ht : Py.truthy (Some ts) = true).
  { destruct ts; [discriminate Hd | reflexivity]. }
  rewrite Ht. reflexivity.
Qed.

Lemma wait_sec_unusable remaining reset_ts text now :
  ~ headers_usable remaining reset_ts ->
  wait_sec remaining reset_ts text now =
  if Py.contains rate_limit_marker text then Some 3600 else None.
Proof.
  intros Hno. unfold wait_sec.
  destruct (remaining_int remaining) as [[| p | p] |] eqn:Hr; try reflexivity.
  destruct reset_ts as [ts |]; try reflexivity.
  destruct (Py.isdigit ts) eqn:Hd.
  - exfalso. apply Hno. split; [exact Hr | eauto].
  - rewrite andb_false_r. reflexivity.
Qed.

(** One pass through the retry loop that ends with the error of line 224. *)
Lemma fetch_page_gives_up w cfg job_index kw target_count retries pg s r :
  stop_flag w (tick s) = false ->
  search_reply w (S (tick s)) = SearchResponse r ->
  (status_code r =? 403) || (status_code r =? 429) = true ->
  retry_wait (auto_retry cfg) (x_ratelimit_remaining r) (x_ratelimit_reset r)
    (text r) (clock w (S (S (tick s)))) = None ->
  exists s',
    fetch_page w cfg job_index kw target_count retries pg s = Stop HReturn s' /\
    trace s' =
      finished
      :: error (ErrRateLimit (status_code r) (Py.take 200 (text r)))
      :: progress (MsgRateDebug (x_ratelimit_remaining r) (x_ratelimit_reset r))
      :: NetSearch job_index (search_params cfg kw pg) (SearchResponse r)
      :: progress (MsgSearching job_index (njobs cfg) pg
                     (pages_needed target_count) (request_count s + 1))
      :: PollStop false
      :: trace s.
Proof.
  intros Hflag Hreply Hstatus Hnone.
  assert (H200 : (status_code r =? 200) = false).
  { apply orb_true_iff in Hstatus. apply Z.eqb_neq.
    destruct Hstatus as [H | H]; apply Z.eqb_eq in H; lia. }
  eexists. split.
  - destruct retries; cbn [fetch_page]; sym; rewrite Hflag; sym;
      rewrite Hreply; sym; rewrite H200, Hstatus; sym; rewrite Hnone; sym;
      reflexivity.
  - reflexivity.
Qed.


(** ** One item: resolution and download *)

Lemma present_truthy o : Py.truthy o = true -> present o = o.
Proof. unfold present. intros ->. reflexivity. Qed.

Lemma present_falsy o : Py.truthy o = false -> present o = None.
Proof. unfold present. intros ->. reflexivity. Qed.

Lemma present_or a b :
  present (Py.or_ a b) =
  match present a with Some u => Some u | None => present b end.
Proof.
  unfold Py.or_, present. destruct (Py.truthy a) eqn:Ha.
  - rewrite Ha. destruct a; [reflexivity | discriminate Ha].
  - reflexivity.
Qed.


Section Item.
Variable w : World.
Variable cfg : Config.
Variables (key : string) (slot : nat) (kw : string).

Lemma resolve_result photo s :
  exists s1,
    resolve w key photo s =
      Val (Py.or_ (tracked_url photo (track_reply w (tick s)))
                  (Py.or_ (full photo) (regular photo))) s1 /\
    trace s1 =
      (if Py.truthy (download_location photo) then
         track_log (default "unknown" (id photo)) (track_reply w (tick s)) ++
         [NetTrack (default "" (download_location photo)) key
            (track_reply w (tick s))]
       else []) ++ trace s /\
    tick s1 = (tick s + if Py.truthy (download_location photo) then 1 else 0)%nat /\
    observed s1 =
      (repeat (totals s) 
         (length (if Py.truthy (download_location photo) then
         track_log (default "unknown" (id photo)) (track_reply w (tick s)) ++
         [NetTrack (default "" (download_location photo)) key
            (track_reply w (tick s))]
       else []))) ++ observed s /\
    total_downloaded s1 = total_downloaded s /\
    job_downloaded s1 = job_downloaded s /\
    request_count s1 = request_count s /\
    resp s1 = resp s.
Proof.
  unfold resolve, tracked_url, track_log, Py.or_ at 1.
  cbv [bind http_track emit ret].
  destruct (Py.truthy (download_location photo)) eqn:Hdl;
    [ destruct (track_reply w (tick s)) as [| status [url |]] eqn:Hreply;
      [ | destruct (status =? 200) eqn:Hst .. ] | ];
    eexists; (split; [reflexivity |]); sym; cbn [app length repeat];
    repeat split; try reflexivity; try lia.
Qed.

Lemma process_photo_result photo s :
  exists url s1 s2,
    resolve w key photo s = Val url s1 /\
    process_photo w cfg key slot kw photo s = Val tt s2 /\
    trace s2 =
      download_log (total_images cfg) kw (default "unknown" (id photo)) url
        (image_reply w (tick s1)) (total_downloaded s) ++ trace s1 /\
    match item_failure (default "unknown" (id photo)) url
            (image_reply w (tick s1)) with
    | Some _ =>
        total_downloaded s2 = total_downloaded s /\
        job_downloaded s2 = job_downloaded s
    | None =>
        total_downloaded s2 = total_downloaded s + 1 /\
        job_downloaded s2 =
          <[slot := default 0 (job_downloaded s !! slot) + 1]> (job_downloaded s)
    end.
Proof.
  destruct (resolve_result photo s)
    as (s1 & Hres & Htr & Htick & Hobs & Htd & Hjd & Hrc & Hresp).
  remember (Py.or_ (tracked_url photo (track_reply w (tick s)))
              (Py.or_ (full photo) (regular photo))) as url eqn:Hu.
  clear Hu. exists url, s1.
  unfold process_photo, download_log, item_failure.
  unfold bind at 1. rewrite Hres.
  destruct (Py.truthy url) eqn:Hurl; cbn [negb].
  2:{ eexists. split; [reflexivity |]. split; [reflexivity |].
      sym. repeat split; auto. }
  cbv [bind http_image].
  destruct (image_reply w (tick s1)) as [| status stored] eqn:Hreply;
    [ | destruct (status =? 200) eqn:Hst; [ destruct stored | ] ];
    eexists; (split; [reflexivity |]); (split; [sym; reflexivity |]);
    sym; rewrite ?Htd, ?Hjd; repeat split; reflexivity.
Qed.
End Item.

Lemma occurrences_app kind (l1 l2 : list Event) :
  occurrences kind (l1 ++ l2) = (occurrences kind l1 + occurrences kind l2)%nat.
Proof. unfold occurrences. rewrite List.filter_app. apply length_app. Qed.

Lemma track_log_shape photo_id reply :
  track_log photo_id reply = [] /\ track_failed reply = false \/
  exists m, track_log photo_id reply = [progress m] /\
            is_track_failure_msg m = true /\ track_failed reply = true.
Proof.
  destruct reply as [| status [url |]]; cbn.
  - right. eexists. repeat split.
  - destruct (status =? 200); cbn; [left; split; reflexivity |].
    right. eexists. repeat split.
  - destruct (status =? 200); cbn; right; eexists; repeat split.
Qed.

(** C6.  An item is resolved in the order of the specification: the
    tracking URL is called once when the item carries one (and not at all
    otherwise) and the ["url"] of its body is used only on a 200 answer
    whose body can be read; else the full-resolution URL; else the
    regular-resolution URL.  When none is there the item is skipped: one
    message, no image fetch, no file, no counter changed, and the item loop
    goes on. *)
Theorem resolution_order (w : World) (cfg : Config) (key : string) (slot : nat)
    (kw : string) (photo : Photo) (s : State) :
  exists url s1,
    resolve w key photo s = Val url s1 /\
    present url = resolve_spec photo (track_reply w (tick s)) /\
    occurrences is_net_track (trace s1) =
      (occurrences is_net_track (trace s)
       + if Py.truthy (download_location photo) then 1 else 0)%nat /\
    (resolve_spec photo (track_reply w (tick s)) = None ->
     exists s2,
       process_photo w cfg key slot kw photo s = Val tt s2 /\
       trace s2 = progress (MsgNoUrl (default "unknown" (id photo))) :: trace s1 /\
       occurrences is_net_image (trace s2) = occurrences is_net_image (trace s) /\
       occurrences is_file_saved (trace s2) = occurrences is_file_saved (trace s) /\
       total_downloaded s2 = total_downloaded s /\
       job_downloaded s2 = job_downloaded s).
Proof.
  destruct (process_photo_result w cfg key slot kw photo s)
    as (url & s1 & s2 & Hres & Hrun & Htr2 & Hcount).
  destruct (resolve_result w key photo s)
    as (s1' & Hres' & Htr1 & _).
  rewrite Hres in Hres'. injection Hres' as Hurl <-.
  assert (Hspec : present url = resolve_spec photo (track_reply w (tick s))).
  { rewrite Hurl, !present_or. reflexivity. }
  assert (Hkinds : forall kind,
            (forall m, kind (progress m) = false) ->
            occurrences kind (trace s1) =
            (occurrences kind (trace s) +
             if Py.truthy (download_location photo)
             then occurrences kind
                    [NetTrack (default "" (download_location photo)) key
                       (track_reply w (tick s))]
             else 0)%nat).
  { intros kind Hkind. rewrite Htr1, occurrences_app.
    destruct (Py.truthy (download_location photo)); [| cbn; lia].
    rewrite occurrences_app.
    destruct (track_log_shape (default "unknown" (id photo)) (track_reply w (tick s)))
      as [[-> _] | (m & -> & _)]; unfold occurrences; cbn [List.filter];
      rewrite ?Hkind; cbn [length]; lia. }
  exists url, s1. split; [exact Hres |]. split; [exact Hspec |]. split.
  - rewrite (Hkinds is_net_track) by reflexivity.
    destruct (Py.truthy (download_location photo)); reflexivity.
  - intros Hnone. rewrite <- Hspec in Hnone.
    assert (Hfalsy : Py.truthy url = false).
    { unfold present in Hnone. destruct (Py.truthy url) eqn:Ht; [| reflexivity].
      destruct url; discriminate. }
    unfold download_log, item_failure in *. rewrite Hfalsy in *.
    exists s2. split; [exact Hrun |]. split; [exact Htr2 |].
    assert (Hsame : forall kind,
              (forall m, kind (progress m) = false) ->
              (forall u c r, kind (NetTrack u c r) = false) ->
              occurrences kind (trace s2) = occurrences kind (trace s)).
    { intros kind Hkind Htrack. rewrite Htr2. unfold occurrences at 1.
      cbn [app List.filter]. rewrite Hkind.
      fold (occurrences kind (trace s1)). rewrite (Hkinds kind Hkind).
      destruct (Py.truthy (download_location photo)); [| lia].
      unfold occurrences. cbn [List.filter]. rewrite Htrack. cbn. lia. }
    repeat split; try apply Hsame; try reflexivity; apply Hcount.
Qed.

(** C7.  An item never ends the job or the run: [process_photo] falls
    through to the next iteration of the item loop.  A failed tracking call
    is logged and resolution goes on with the fallback URLs.  An item that
    is not downloaded (no URL, image fetch raising or answering another
    status than 200, file not written) is logged, leaves both counters as
    they were and writes no file. *)
Theorem item_failures_are_skipped (w : World) (cfg : Config) (key : string)
    (slot : nat) (kw : string) (target_count : Z) (photo : Photo)
    (rest : list Photo) (s0 : State) :
  let s := advance (record (PollStop false) s0) in
  let photo_id := default "unknown" (id photo) in
  exists url s1 s2,
    resolve w key photo s = Val url s1 /\
    process_photo w cfg key slot kw photo s = Val tt s2 /\
    (Py.truthy (download_location photo) = true ->
     track_failed (track_reply w (tick s)) = true ->
     exists m,
       is_track_failure_msg m = true /\
       trace s1 =
         progress m
         :: NetTrack (default "" (download_location photo)) key
              (track_reply w (tick s))
         :: trace s) /\
    (forall m,
       item_failure photo_id url (image_reply w (tick s1)) = Some m ->
       hd_error (trace s2) = Some (progress m) /\
       total_downloaded s2 = total_downloaded s0 /\
       job_downloaded s2 = job_downloaded s0 /\
       occurrences is_file_saved (trace s2) = occurrences is_file_saved (trace s1)) /\
    (stop_flag w (tick s0) = false ->
     default 0 (job_downloaded s0 !! slot) < target_count ->
     photos_loop w cfg key slot kw target_count (photo :: rest) s0 =
     photos_loop w cfg key slot kw target_count rest s2).
Proof.
  intros s photo_id.
  destruct (process_photo_result w cfg key slot kw photo s)
    as (url & s1 & s2 & Hres & Hrun & Htr2 & Hcount).
  destruct (resolve_result w key photo s) as (s1' & Hres' & Htr1 & _).
  rewrite Hres in Hres'. injection Hres' as _ <-.
  exists url, s1, s2. split; [exact Hres |]. split; [exact Hrun |].
  split; [| split].
  - intros Hdl Hfail. rewrite Hdl in Htr1.
    destruct (track_log_shape photo_id (track_reply w (tick s)))
      as [[_ Hok] | (m & Hlog & Hmsg & _)]; [congruence |].
    exists m. split; [exact Hmsg |]. rewrite Htr1. fold photo_id. rewrite Hlog.
    reflexivity.
  - intros m Hm. fold photo_id in Hcount, Htr2. rewrite Hm in Hcount.
    unfold download_log in Htr2. rewrite Hm in Htr2.
    destruct Hcount as [Htd Hjd].
    destruct (Py.truthy url) eqn:Hurl; rewrite Htr2.
    + repeat split; auto.
    + unfold item_failure in Hm. rewrite Hurl in Hm. injection Hm as <-.
      repeat split; auto.
  - intros Hflag Hjd. cbn [photos_loop]. sym. rewrite Hflag. sym.
    destruct (Z.leb_spec target_count (default 0 (job_downloaded s0 !! slot)));
      [lia |].
    unfold bind at 1. fold s. rewrite Hrun. reflexivity.
Qed.

Lemma resolution_order_witness :
  exists s2,
    process_photo Sample.calm Sample.one_job "key" 0 "cats" Sample.bare (initial 1)
      = Val tt s2 /\
    trace s2 = [progress (MsgNoUrl "x")] /\
    total_downloaded s2 = 0.
Proof.
  destruct (resolution_order Sample.calm Sample.one_job "key" 0 "cats"
              Sample.bare (initial 1))
    as (url & s1 & Hres & _ & _ & Hskip).
  destruct (Hskip eq_refl) as (s2 & Hrun & Htr & _ & _ & Htd & _).
  injection Hres as _ <-.
  exists s2. split; [exact Hrun |]. split; [exact Htr | exact Htd].
Defined.

Lemma item_failures_are_skipped_witness :
  exists s2,
    process_photo Sample.failing Sample.one_job "key" 0 "cats" (Sample.photo "a")
      (advance (record (PollStop false) (initial 1))) = Val tt s2 /\
    hd_error (trace s2) = Some (progress (MsgImageStatus 404 "a")) /\
    total_downloaded s2 = 0 /\
    job_downloaded s2 = [0].
Proof.
  destruct (item_failures_are_skipped Sample.failing Sample.one_job "key" 0
              "cats" 1 (Sample.photo "a") [] (initial 1))
    as (url & s1 & s2 & Hres & Hrun & _ & Hfail & _).
  injection Hres as <- <-.
  destruct (Hfail _ eq_refl) as (Hhd & Htd & Hjd & _).
  exists s2. split; [exact Hrun |]. split; [exact Hhd |]. split; [exact Htd | exact Hjd].
Defined.


(** ** Terminal replies *)

Lemma wait_sec_clock remaining reset_ts body now now' :
  wait_sec remaining reset_ts body now = None ->
  wait_sec remaining reset_ts body now' = None.
Proof.
  unfold wait_sec.
  destruct (remaining_int remaining) as [[| p | p] |]; try (intros H; exact H).
  destruct reset_ts as [ts |]; try (intros H; exact H).
  destruct (Py.truthy (Some ts) && Py.isdigit ts); [discriminate |].
  intros H; exact H.
Qed.

Lemma retry_wait_clock auto remaining reset_ts body now now' :
  retry_wait auto remaining reset_ts body now = None ->
  retry_wait auto remaining reset_ts body now' = None.
Proof.
  unfold retry_wait. destruct auto; [apply wait_sec_clock | reflexivity].
Qed.

Lemma clean_cons auto e tr :
  is_net_search e = false -> clean auto tr -> clean auto (e :: tr).
Proof.
  intros He Hc j p reply [-> | Hin]; [discriminate He | eauto].
Qed.

Lemma clean_search auto j p reply tr :
  terminal_reply auto reply = false -> clean auto tr ->
  clean auto (NetSearch j p reply :: tr).
Proof.
  intros Ht Hc j' p' reply' [Heq | Hin]; [congruence | eauto].
Qed.

Ltac clean_side :=
  unfold clean_state, clean_or_aborted; cbn; intros;
  try solve [ assumption
            | repeat (apply clean_cons; [reflexivity |]); assumption
            | left; repeat (apply clean_cons; [reflexivity |]); assumption ].

Section Clean.
Variable w : World.
Variable cfg : Config.
Variable fuel : nat.


Lemma resolve_clean key photo : preserves (clean_state (auto_retry cfg)) (clean_or_aborted (auto_retry cfg)) (resolve w key photo).
Proof. unfold resolve. preserves_go clean_side. Qed.

Lemma process_photo_clean key slot kw photo :
  preserves (clean_state (auto_retry cfg)) (clean_or_aborted (auto_retry cfg)) (process_photo w cfg key slot kw photo).
Proof. pose proof resolve_clean. unfold process_photo. preserves_go clean_side. Qed.

Lemma photos_loop_clean key slot kw target_count photos :
  preserves (clean_state (auto_retry cfg)) (clean_or_aborted (auto_retry cfg)) (photos_loop w cfg key slot kw target_count photos).
Proof.
  pose proof process_photo_clean.
  induction photos; cbn [photos_loop]; preserves_go clean_side.
Qed.

Lemma rate_wait_clean n : preserves (clean_state (auto_retry cfg)) (clean_or_aborted (auto_retry cfg)) (rate_wait w n).
Proof. induction n; cbn [rate_wait]; preserves_go clean_side. Qed.

Lemma interval_wait_clean n : preserves (clean_state (auto_retry cfg)) (clean_or_aborted (auto_retry cfg)) (interval_wait w n).
Proof. induction n; cbn [interval_wait]; preserves_go clean_side. Qed.

Lemma terminal_no_wait r :
  (status_code r =? 200) = false ->
  (status_code r =? 403) || (status_code r =? 429) = true ->
  forall now,
  terminal_reply (auto_retry cfg) (SearchResponse r) =
  match retry_wait (auto_retry cfg) (x_ratelimit_remaining r)
          (x_ratelimit_reset r) (text r) now with
  | Some _ => false
  | None => true
  end.
Proof.
  intros H200 Hrl now. unfold terminal_reply. rewrite H200, Hrl.
  destruct (retry_wait _ _ _ _ 0) eqn:H0;
    destruct (retry_wait _ _ _ _ now) eqn:Hn; try reflexivity.
  - apply (retry_wait_clock _ _ _ _ _ 0) in Hn. congruence.
  - apply (retry_wait_clock _ _ _ _ _ now) in H0. congruence.
Qed.

Lemma fetch_page_clean job_index kw target_count pg retries :
  preserves (clean_state (auto_retry cfg)) (clean_or_aborted (auto_retry cfg)) (fetch_page w cfg job_index kw target_count retries pg).
Proof.
  induction retries as [| retries IH]; intros s Hs; cbn [fetch_page]; sym_go.
  all: try solve [clean_side].
  all: try match goal with
       | Hr : retry_wait _ _ _ _ ?now = _,
         H200 : (status_code ?r =? 200) = false,
         Hrl : (status_code ?r =? 403) || (status_code ?r =? 429) = true |- _ =>
           pose proof (terminal_no_wait r H200 Hrl now) as Hterm;
           rewrite Hr in Hterm
       end.
  all: try match goal with
       | |- context [record (NetSearch ?j ?p ?reply) ?s1] =>
           right; exists j, p, reply, (trace s1);
           split; [ cbn; rewrite ?Heqb1; reflexivity
                  | split; [ first [ reflexivity | exact Hterm
                                   | cbn; rewrite Heqb0, Heqb1; reflexivity ]
                           | clean_side ] ]
       end.
  all: try match goal with
       | |- clean_state _ _ => unfold clean_state; cbn; apply clean_search;
                   [ unfold terminal_reply; rewrite Heqb0; reflexivity | clean_side ]
       end.
  all: unfold bind at 1;
       match goal with
       | |- context [rate_wait w ?n ?s1] =>
           assert (Hs1 : clean_state (auto_retry cfg) s1)
             by (unfold clean_state; cbn; do 2 (apply clean_cons; [reflexivity |]);
                 apply clean_search; [exact Hterm | clean_side]);
           pose proof (rate_wait_clean n s1 Hs1) as Hw;
           destruct (rate_wait w n s1) as [[] s2 | h s2]; [| exact Hw]
       end; sym.
  - clean_side.
  - apply IH. clean_side.
Qed.

Lemma pages_loop_clean key job_index slot kw target_count pages :
  preserves (clean_state (auto_retry cfg)) (clean_or_aborted (auto_retry cfg)) (pages_loop w cfg fuel key job_index slot kw target_count pages).
Proof.
  pose proof fetch_page_clean. pose proof photos_loop_clean.
  pose proof interval_wait_clean.
  induction pages; cbn [pages_loop]; unfold handle_page; preserves_go clean_side.
Qed.

Lemma jobs_loop_clean key js : forall slot,
  preserves (clean_state (auto_retry cfg)) (clean_or_aborted (auto_retry cfg)) (jobs_loop w cfg fuel key slot js).
Proof.
  pose proof pages_loop_clean.
  induction js; intros slot; cbn [jobs_loop]; preserves_go clean_side.
Qed.

Lemma run_jobs_clean : preserves (clean_state (auto_retry cfg)) (clean_or_aborted (auto_retry cfg)) (run_jobs w cfg fuel).
Proof. pose proof jobs_loop_clean. unfold run_jobs. preserves_go clean_side. Qed.

Lemma run_clean s :
  clean_state (auto_retry cfg) s ->
  match run w cfg fuel s with
  | Stop HReturn s' => clean (auto_retry cfg) (trace s') \/ aborted (auto_retry cfg) (trace s')
  | r => clean (auto_retry cfg) (trace (final r))
  end.
Proof.
  intros Hs. unfold run, catch, run_body, bind at 1.
  pose proof (run_jobs_clean s Hs) as Hb.
  destruct (run_jobs w cfg fuel s) as [[] s' | [ | e | ] s']; cbn; auto;
    revert Hb; clean_side.
Qed.
End Clean.

Lemma terminal_report_quiet reply e :
  In e (terminal_report reply) -> is_net_search e = false.
Proof.
  destruct reply as [| r]; cbn.
  - intros [<- | [<- | []]]; reflexivity.
  - destruct ((status_code r =? 403) || (status_code r =? 429)); cbn;
      intuition (subst; reflexivity).
Qed.

(** A list splits in one way only around its single element of a kind. *)
Lemma split_unique {A} (P : A -> Prop) (l1 l2 l1' l2' : list A) (x x' : A) :
  l1 ++ x :: l2 = l1' ++ x' :: l2' ->
  P x -> P x' ->
  (forall y, In y l1 -> ~ P y) -> (forall y, In y l2 -> ~ P y) ->
  l1 = l1' /\ x = x' /\ l2 = l2'.
Proof.
  revert l1'. induction l1 as [| a l1 IH]; intros [| a' l1'] Heq Hx Hx' H1 H2;
    cbn in Heq; injection Heq as Ha Hrest.
  - subst. auto.
  - subst a'. exfalso. apply (H2 x'); [| exact Hx'].
    rewrite Hrest. apply in_or_app. right. left. reflexivity.
  - subst a. exfalso. apply (H1 x'); [left; reflexivity | exact Hx'].
  - subst a'. destruct (IH l1' Hrest Hx Hx') as (-> & -> & ->); auto.
    intros y Hy. apply H1. right. exact Hy.
Qed.



(** ** The counters *)

Lemma sum_insert (l : list Z) (i : nat) (d v : Z) :
  l !! i = Some d -> Py.sum (<[i := v]> l) = Py.sum l - d + v.
Proof.
  unfold Py.sum.
  revert i. induction l as [| a l IH]; intros [| i] Hi; simpl in *; try discriminate.
  - injection Hi as ->. lia.
  - rewrite (IH i Hi). lia.
Qed.

Lemma sum_le_pointwise (l : list Z) (js : list Job) :
  length l = length js ->
  (forall k d j, l !! k = Some d -> js !! k = Some j -> d <= count j) ->
  Py.sum l <= Py.sum (map count js).
Proof.
  unfold Py.sum.
  revert js. induction l as [| a l IH]; intros [| j js] Hlen Hle.
  - simpl. lia.
  - discriminate Hlen.
  - discriminate Hlen.
  - simpl in *.
    pose proof (Hle 0%nat a j eq_refl eq_refl).
    assert (fold_right Z.add 0 l <= fold_right Z.add 0 (map count js)).
    { apply IH; [lia |]. intros k d j' Hd Hj. apply (Hle (S k) d j' Hd Hj). }
    lia.
Qed.

Lemma sound_record js e s : sound js s -> sound js (record e s).
Proof. intros [Hnow Hpast]. split; [exact Hnow | constructor; assumption]. Qed.

Lemma in_job_record js slot e s : in_job js slot s -> in_job js slot (record e s).
Proof. intros [Hs Hz]. split; [apply sound_record, Hs | exact Hz]. Qed.

Lemma in_job_advance js slot s : in_job js slot s -> in_job js slot (advance s).
Proof. intros H. exact H. Qed.

Lemma in_job_with_resp js slot r s : in_job js slot s -> in_job js slot (with_resp r s).
Proof. intros H. exact H. Qed.

Lemma in_job_with_request_count js slot n s :
  in_job js slot s -> in_job js slot (with_request_count n s).
Proof. intros H. exact H. Qed.

Ltac counters_side :=
  unfold in_job_halt; intros;
  repeat first [ apply in_job_record | apply in_job_advance
               | apply in_job_with_resp | apply in_job_with_request_count ];
  try assumption.

Ltac proj :=
  cbn [totals totalDownloaded perJobDownloaded total_downloaded job_downloaded
       observed with_total_downloaded with_job_downloaded] in *.

Section Counters.
Variable w : World.
Variable cfg : Config.
Variable fuel : nat.

Section Job.

Variables (key : string) (job_index : Z) (slot : nat) (kw : string) (job : Job).
Hypothesis job_at_slot : jobs cfg !! slot = Some job.
Hypothesis target_positive : 0 < count job.

Lemma rate_wait_counters n :
  preserves (in_job (jobs cfg) slot) (in_job_halt (jobs cfg) slot) (rate_wait w n).
Proof. induction n; cbn [rate_wait]; preserves_go counters_side. Qed.

Lemma interval_wait_counters n :
  preserves (in_job (jobs cfg) slot) (in_job_halt (jobs cfg) slot) (interval_wait w n).
Proof. induction n; cbn [interval_wait]; preserves_go counters_side. Qed.

Lemma fetch_page_counters retries pg :
  preserves (in_job (jobs cfg) slot) (in_job_halt (jobs cfg) slot)
    (fetch_page w cfg job_index kw (count job) retries pg).
Proof.
  pose proof rate_wait_counters.
  induction retries; cbn [fetch_page]; preserves_go counters_side.
Qed.

Lemma slot_in_range s : in_job (jobs cfg) slot s ->
  exists d, job_downloaded s !! slot = Some d.
Proof.
  intros [[(Hlen & _) _] _]. apply lookup_lt_is_Some.
  cbn in Hlen. rewrite Hlen. apply (lookup_lt_Some _ _ _ job_at_slot).
Qed.

Lemma in_job_download s td cells :
  in_job (jobs cfg) slot s ->
  td = total_downloaded s -> cells = job_downloaded s ->
  default 0 (cells !! slot) < count job ->
  in_job (jobs cfg) slot
    (with_total_downloaded (td + 1)
       (with_job_downloaded (<[slot := default 0 (cells !! slot) + 1]> cells) s)).
Proof.
  intros HJ -> -> Hlt.
  destruct (slot_in_range s HJ) as [d Hd]. rewrite Hd in *.
  change (default 0 (Some d)) with d in *.
  destruct HJ as [[(Hlen & Hsum & Hbound) Hpast] Hz].
  cbn [totals totalDownloaded perJobDownloaded] in Hlen, Hsum, Hbound.
  split; [split; [split; [| split] |] |].
  - proj. rewrite length_insert. exact Hlen.
  - proj. rewrite (sum_insert _ _ d _ Hd). lia.
  - proj. intros k d' j Hk Hj.
    destruct (decide (slot = k)) as [<- | Hne].
    + rewrite list_lookup_insert_eq in Hk by (eapply lookup_lt_Some; exact Hd).
      injection Hk as <-. rewrite job_at_slot in Hj. injection Hj as <-.
      pose proof (Hbound slot d job Hd job_at_slot). lia.
    + rewrite list_lookup_insert_ne in Hk by exact Hne. eauto.
  - exact Hpast.
  - intros k d' Hk Hlook. proj.
    rewrite list_lookup_insert_ne in Hlook by lia. eauto.
Qed.

Lemma process_photo_counters photo s :
  in_job (jobs cfg) slot s ->
  default 0 (job_downloaded s !! slot) < count job ->
  match process_photo w cfg key slot kw photo s with
  | Val _ s' => in_job (jobs cfg) slot s'
  | Stop _ s' => in_job (jobs cfg) slot s'
  end.
Proof.
  intros HJ Hlt.
  destruct (resolve_result w key photo s)
    as (s1 & Hres & Htr & Htick & Hobs & Htd & Hjd & Hrc & Hresp).
  assert (HJ1 : in_job (jobs cfg) slot s1).
  { destruct HJ as [[Hnow Hpast] Hz]. split; [split |].
    - unfold totals. rewrite Htd, Hjd. exact Hnow.
    - rewrite Hobs. apply Forall_app. split; [| exact Hpast].
      apply List.Forall_forall. intros t Ht. apply repeat_spec in Ht. subst t. exact Hnow.
    - unfold untouched_from. rewrite Hjd. exact Hz. }
  unfold process_photo. unfold bind at 1. rewrite Hres.
  rewrite <- Hjd in Hlt. clear Hres Htr Htick Hobs Htd Hjd Hrc Hresp HJ.
  sym_go; try solve [counters_side].
  do 2 apply in_job_record.
  apply in_job_download; try reflexivity; [counters_side | exact Hlt].
Qed.

Lemma photos_loop_counters photos : forall s,
  in_job (jobs cfg) slot s ->
  match photos_loop w cfg key slot kw (count job) photos s with
  | Val _ s' => in_job (jobs cfg) slot s'
  | Stop _ s' => in_job (jobs cfg) slot s'
  end.
Proof.
  induction photos as [| photo rest IH]; intros s HJ; cbn [photos_loop]; sym_go;
    try solve [counters_side].
  unfold bind at 1.
  match goal with
  | |- context [process_photo w cfg key slot kw photo ?s1] =>
      pose proof (process_photo_counters photo s1) as Hp;
      destruct (process_photo w cfg key slot kw photo s1) as [[] s2 | h s2]
  end.
  - apply IH, Hp; [counters_side |]. sym. apply Z.leb_gt. assumption.
  - apply Hp; [counters_side |]. sym. apply Z.leb_gt. assumption.
Qed.

Lemma photos_loop_preserves photos :
  preserves (in_job (jobs cfg) slot) (in_job_halt (jobs cfg) slot)
    (photos_loop w cfg key slot kw (count job) photos).
Proof.
  intros s HJ. pose proof (photos_loop_counters photos s HJ) as H.
  destruct (photos_loop _ _ _ _ _ _ _ _); exact H.
Qed.

Lemma pages_loop_counters pages :
  preserves (in_job (jobs cfg) slot) (in_job_halt (jobs cfg) slot)
    (pages_loop w cfg fuel key job_index slot kw (count job) pages).
Proof.
  pose proof fetch_page_counters. pose proof photos_loop_preserves.
  pose proof interval_wait_counters.
  induction pages; cbn [pages_loop]; unfold handle_page; preserves_go counters_side.
Qed.

End Job.

Lemma untouched_weaken n s : untouched_from n s -> untouched_from (S n) s.
Proof. intros H k d Hk. apply H. lia. Qed.

Lemma jobs_loop_counters key js : forall slot s,
  (forall k job, js !! k = Some job -> jobs cfg !! (slot + k)%nat = Some job) ->
  sound (jobs cfg) s -> untouched_from slot s ->
  sound (jobs cfg) (final (jobs_loop w cfg fuel key slot js s)).
Proof.
  induction js as [| job rest IH]; intros slot s Hjobs Hs Hz; cbn [jobs_loop];
    sym; [exact Hs |].
  assert (Hrest : forall k job', rest !! k = Some job' ->
                    jobs cfg !! (S slot + k)%nat = Some job').
  { intros k job' Hk. replace (S slot + k)%nat with (slot + S k)%nat by lia.
    apply Hjobs. exact Hk. }
  assert (Hjob : jobs cfg !! slot = Some job).
  { replace slot with (slot + 0)%nat by lia. apply Hjobs. reflexivity. }
  destruct (stop_flag w (tick s)); sym; [apply sound_record, sound_record, Hs |].
  destruct (count job <=? 0) eqn:Hcount.
  { apply IH; [exact Hrest | apply sound_record, Hs | apply untouched_weaken, Hz]. }
  apply Z.leb_gt in Hcount.
  sym.
  assert (Hcell : job_downloaded s !! slot = Some 0).
  { destruct Hs as [(Hlen & _) _]. proj.
    destruct (lookup_lt_is_Some_2 (job_downloaded s) slot) as [d Hd].
    - rewrite Hlen. apply (lookup_lt_Some _ _ _ Hjob).
    - rewrite Hd. f_equal. apply (Hz slot d (le_n _) Hd). }
  rewrite (list_insert_id _ _ _ Hcell).
  match goal with
  | |- context [(if _ then _ else _) ?s1] =>
      assert (HJ : in_job (jobs cfg) slot s1)
        by (refine (_ : in_job (jobs cfg) slot
                          (record _ (advance (record (PollStop false) s))));
            split; [do 2 apply sound_record; exact Hs | apply untouched_weaken, Hz])
  end.
  destruct (pages_needed (count job) <=? 0).
  { apply IH; [exact Hrest | apply HJ | apply HJ]. }
  sym. unfold bind at 1.
  match goal with
  | |- context [pages_loop w cfg fuel key ?ji slot ?kw (count job) ?pages ?s1] =>
      pose proof (pages_loop_counters key ji slot kw job Hjob Hcount pages s1) as Hp;
      destruct (pages_loop w cfg fuel key ji slot kw (count job) pages s1)
        as [[] s2 | h s2]
  end.
  - sym. destruct (stop_flag w (tick s2)); sym.
    + apply sound_record. apply Hp. do 2 apply in_job_record. exact HJ.
    + apply IH; [exact Hrest | apply sound_record | ];
        apply Hp; do 2 apply in_job_record; exact HJ.
  - sym. apply Hp. do 2 apply in_job_record. exact HJ.
Qed.

Lemma initial_sound js : sound js (initial (length js)) /\ untouched_from 0 (initial (length js)).
Proof.
  split; [split; [split; [| split] | constructor] |].
  - cbn. apply length_replicate.
  - cbn. induction (length js) as [| n IHn]; [reflexivity |]. cbn in *. lia.
  - cbn. intros k d j Hd _. apply lookup_replicate in Hd as [-> _]. lia.
  - intros k d _ Hd. cbn in Hd. apply lookup_replicate in Hd as [-> _]. reflexivity.
Qed.

Lemma run_jobs_counters s :
  sound (jobs cfg) s -> untouched_from 0 s ->
  sound (jobs cfg) (final (run_jobs w cfg fuel s)).
Proof.
  intros Hs Hz. unfold run_jobs, mkdir.
  destruct (jobs cfg) eqn:Hjobs; sym; [do 2 apply sound_record; exact Hs |].
  rewrite <- Hjobs in *.
  sym_go; try solve [repeat apply sound_record; exact Hs].
  all: unfold bind at 1;
    match goal with
    | |- context [jobs_loop w cfg fuel ?key 0%nat (jobs cfg) ?s1] =>
        pose proof (jobs_loop_counters key (jobs cfg) 0%nat s1) as Hl;
        destruct (jobs_loop w cfg fuel key 0%nat (jobs cfg) s1) as [[] s2 | h s2]
    end; cbn [final] in Hl; sym_go;
    repeat apply sound_record; apply Hl;
    try (intros k job Hk; exact Hk); try exact Hz;
    repeat apply sound_record; exact Hs.
Qed.

Lemma run_counters : sound (jobs cfg) (final (execute w cfg fuel)).
Proof.
  destruct (initial_sound (jobs cfg)) as [Hs Hz].
  unfold execute, run, catch, run_body, bind at 1.
  pose proof (run_jobs_counters _ Hs Hz) as H.
  destruct (run_jobs w cfg fuel _) as [[] s' | [ | e | ] s']; cbn [final] in *;
    sym; repeat apply sound_record; exact H.
Qed.
End Counters.

Ltac in_step_side :=
  unfold in_step_halt, in_step; cbn; intros; try solve [assumption | lia].

Section InStep.

Variable w : World.
Variable cfg : Config.
Variable fuel : nat.

Lemma resolve_in_step key photo :
  preserves in_step in_step_halt (resolve w key photo).
Proof. unfold resolve. preserves_go in_step_side. Qed.

Lemma process_photo_in_step key slot kw photo :
  preserves in_step in_step_halt (process_photo w cfg key slot kw photo).
Proof.
  pose proof resolve_in_step. unfold process_photo. preserves_go in_step_side.
Qed.

Lemma photos_loop_in_step key slot kw target_count photos :
  preserves in_step in_step_halt
    (photos_loop w cfg key slot kw target_count photos).
Proof.
  pose proof process_photo_in_step.
  induction photos; cbn [photos_loop]; preserves_go in_step_side.
Qed.

Lemma rate_wait_in_step n : preserves in_step in_step_halt (rate_wait w n).
Proof. induction n; cbn [rate_wait]; preserves_go in_step_side. Qed.

Lemma interval_wait_in_step n :
  preserves in_step in_step_halt (interval_wait w n).
Proof. induction n; cbn [interval_wait]; preserves_go in_step_side. Qed.

Lemma fetch_page_in_step job_index kw target_count retries pg :
  preserves in_step in_step_halt
    (fetch_page w cfg job_index kw target_count retries pg).
Proof.
  pose proof rate_wait_in_step.
  induction retries; cbn [fetch_page]; preserves_go in_step_side.
Qed.

Lemma pages_loop_in_step key job_index slot kw target_count pages :
  preserves in_step in_step_halt
    (pages_loop w cfg fuel key job_index slot kw target_count pages).
Proof.
  pose proof fetch_page_in_step.
  pose proof photos_loop_in_step.
  pose proof interval_wait_in_step.
  induction pages; cbn [pages_loop]; unfold handle_page; preserves_go in_step_side.
Qed.

Lemma jobs_loop_in_step key js : forall slot,
  preserves in_step in_step_halt (jobs_loop w cfg fuel key slot js).
Proof.
  pose proof pages_loop_in_step.
  induction js; intros slot; cbn [jobs_loop]; preserves_go in_step_side.
Qed.

Lemma run_jobs_in_step : preserves in_step in_step_halt (run_jobs w cfg fuel).
Proof.
  pose proof jobs_loop_in_step. unfold run_jobs. preserves_go in_step_side.
Qed.

(** The snapshots are as many as the events: [observed] holds the counters
    at each event of the run. *)
Lemma run_in_step : in_step (final (execute w cfg fuel)).
Proof.
  unfold execute, run, catch, run_body, bind at 1.
  pose proof (run_jobs_in_step (initial (length (jobs cfg))) eq_refl) as H.
  destruct (run_jobs w cfg fuel _) as [[] s' | [ | e | ] s']; revert H;
    in_step_side.
Qed.

End InStep.

Lemma ok_within_targets js t :
  Forall (fun j => 0 <= count j) js -> ok_totals js t -> within_targets js t.
Proof.
  intros Hpos (Hlen & Hsum & Hbound).
  assert (Hcell : forall k d j,
            perJobDownloaded t !! k = Some d -> js !! k = Some j -> d <= count j).
  { intros k d j Hd Hj. pose proof (Hbound k d j Hd Hj) as Hb.
    rewrite List.Forall_forall in Hpos.
    assert (0 <= count j).
    { apply Hpos. apply list_elem_of_In. eapply list_elem_of_lookup_2. exact Hj. }
    lia. }
  split; [exact Hlen |]. split; [exact Hcell |]. split; [exact Hsum |].
  rewrite Hsum. apply sum_le_pointwise; assumption.
Qed.

(** C1.  With targets that are not negative, at every event of every run and
    at its end: each job has its cell, the downloaded count of a job is at
    most its target, the run-wide total is the sum of the counts of the jobs
    and hence at most the sum of the targets. *)
Theorem downloads_within_targets (w : World) (cfg : Config) (fuel : nat) :
  Forall (fun j => 0 <= count j) (jobs cfg) ->
  Forall (within_targets (jobs cfg))
    (totals (final (execute w cfg fuel)) :: observed (final (execute w cfg fuel)))
  /\ length (observed (final (execute w cfg fuel))) = length (events w cfg fuel).
Proof.
  intros Hpos. split.
  - destruct (run_counters w cfg fuel) as [Hnow Hpast].
    constructor; [apply ok_within_targets; assumption |].
    rewrite List.Forall_forall in *. intros t Ht.
    apply ok_within_targets; [rewrite List.Forall_forall; exact Hpos | auto].
  - unfold events. rewrite length_rev. apply run_in_step.
Qed.

Lemma downloads_within_targets_witness :
  Forall (within_targets (jobs Sample.two_jobs))
    (totals (final (execute Sample.calm Sample.two_jobs 0))
     :: observed (final (execute Sample.calm Sample.two_jobs 0)))
  /\ length (observed (final (execute Sample.calm Sample.two_jobs 0)))
     = length (events Sample.calm Sample.two_jobs 0).
Proof.
  apply (downloads_within_targets Sample.calm Sample.two_jobs 0).
  repeat constructor; cbn; lia.
Defined.

(** ** Pages of a job *)

Section Triple.
Variables P Q : State -> Prop.
Variable X : Halt -> State -> Prop.

Lemma triple_bind {A B} (m : M A) (f : A -> M B) :
  preserves P X m -> (forall a, triple P Q X (f a)) -> triple P Q X (bind m f).
Proof.
  intros Hm Hf s Hs. unfold bind. specialize (Hm s Hs).
  destruct (m s) as [a s' | h s']; [apply Hf; exact Hm | exact Hm].
Qed.

Lemma triple_ret {A} (a : A) : (forall s, P s -> Q s) -> triple P Q X (ret a).
Proof. intros H s Hs. apply H, Hs. Qed.

Lemma triple_emit (e : Event) :
  (forall s, P s -> Q (record e s)) -> triple P Q X (emit e).
Proof. intros H s Hs. apply H, Hs. Qed.

Lemma triple_raise {A} (e : Exn) :
  (forall s, P s -> X (HRaise e) s) -> triple P Q X (@raise A e).
Proof. intros H s Hs. apply H, Hs. Qed.

Lemma triple_weaken {A} (m : M A) :
  preserves P X m -> (forall s, P s -> Q s) -> triple P Q X m.
Proof.
  intros Hm HPQ s Hs. specialize (Hm s Hs).
  destruct (m s); [apply HPQ |]; exact Hm.
Qed.
End Triple.

Ltac triple_go side :=
  repeat lazymatch goal with
  | |- triple _ _ _ (bind _ _) =>
      apply triple_bind; [ solve [preserves_go side] | intros ? ]
  | |- triple _ _ _ (ret _) => apply triple_ret; side
  | |- triple _ _ _ (emit _) => apply triple_emit; side
  | |- triple _ _ _ (raise _) => apply triple_raise; side
  | |- triple _ _ _ (if ?b then _ else _) => destruct b eqn:?
  | |- triple _ _ _ (match ?x with _ => _ end) => destruct x eqn:?
  | |- triple _ _ _ _ => solve [ eauto ]
  end.

Lemma requested_pages_app j l1 l2 :
  requested_pages j (l1 ++ l2) = requested_pages j l1 ++ requested_pages j l2.
Proof.
  induction l1 as [| e l1 IH]; [reflexivity |]. cbn.
  destruct (search_page j e); cbn; rewrite IH; reflexivity.
Qed.

Lemma requested_pages_rev j l :
  requested_pages j (rev l) = rev (requested_pages j l).
Proof.
  induction l as [| e l IH]; [reflexivity |]. cbn.
  rewrite requested_pages_app, IH. cbn.
  destruct (search_page j e); cbn; [reflexivity | apply app_nil_r].
Qed.

Lemma last_nonempty_default (z : Z) l d d' :
  List.last (z :: l) d = List.last (z :: l) d'.
Proof.
  revert z. induction l as [| y l IH]; intros z; [reflexivity |].
  change (List.last (y :: l) d = List.last (y :: l) d'). apply IH.
Qed.

Lemma climbs_snoc prev l p :
  climbs prev l ->
  (p = List.last l prev \/ p = List.last l prev + 1) ->
  climbs prev (l ++ [p]).
Proof.
  revert prev. induction l as [| a l IH]; intros prev Hl Hp.
  - split; [exact Hp | exact Logic.I].
  - destruct Hl as [Ha Hl]. split; [exact Ha |]. apply IH; [exact Hl |].
    destruct l as [| z l]; [exact Hp |].
    rewrite (last_nonempty_default z l a prev). exact Hp.
Qed.

Lemma descends_in_order l : descends l -> in_order (rev l).
Proof.
  induction l as [| p older IH]; [intros _; exact Logic.I |].
  intros [Hp Hold]. specialize (IH Hold). cbn [rev].
  destruct older as [| q older'].
  - split; [exact Hp | exact Logic.I].
  - assert (Hlast : forall d, List.last (rev (q :: older')) d = q).
    { intros d. cbn [rev]. apply last_last. }
    destruct (rev (q :: older')) as [| x r'] eqn:Hr.
    { cbn [rev] in Hr. destruct (rev older'); discriminate Hr. }
    destruct IH as [Hx Hclimb]. split; [exact Hx |].
    apply climbs_snoc; [exact Hclimb |].
    assert (Hq : List.last r' x = q).
    { specialize (Hlast x). destruct r' as [| z r'']; exact Hlast. }
    rewrite Hq. exact Hp.
Qed.

Ltac pages_side :=
  unfold job_inv_halt, at_page, job_inv, paged, fresh_from;
  cbn [trace record advance with_resp with_request_count with_total_downloaded
       with_job_downloaded requested_pages search_page];
  intros; try solve [assumption | tauto | eauto].

Lemma stop_flag_mono w t t' :
  (t <= t')%nat -> stop_flag w t = true -> stop_flag w t' = true.
Proof.
  unfold stop_flag. destruct (stop_at w) as [t0 |]; [| discriminate].
  intros Hle H. apply Nat.leb_le in H. apply Nat.leb_le. lia.
Qed.

Lemma range_nil lo hi : hi <= lo -> Py.range lo hi = [].
Proof.
  intros H. unfold Py.range. replace (Z.to_nat (hi - lo)) with 0%nat by lia.
  reflexivity.
Qed.

Lemma range_cons lo hi : lo < hi -> Py.range lo hi = lo :: Py.range (lo + 1) hi.
Proof.
  intros H. unfold Py.range.
  replace (Z.to_nat (hi - lo)) with (S (Z.to_nat (hi - (lo + 1)))) by lia.
  cbn [seq map]. f_equal; [lia |].
  rewrite <- seq_shift, map_map. apply map_ext. intros k. lia.
Qed.

Section Pages.
Variable w : World.
Variable cfg : Config.
Variable fuel : nat.

Section Job.
Variables (key : string) (slot : nat) (kw : string) (job : Job).
Hypothesis job_at_slot : jobs cfg !! slot = Some job.

Lemma resolve_pages n photo :
  preserves (at_page (jobs cfg) (Z.of_nat slot + 1) n)
    (job_inv_halt (jobs cfg) (Z.of_nat slot + 1)) (resolve w key photo).
Proof. unfold resolve. preserves_go pages_side. Qed.

Lemma process_photo_pages n photo :
  preserves (at_page (jobs cfg) (Z.of_nat slot + 1) n)
    (job_inv_halt (jobs cfg) (Z.of_nat slot + 1))
    (process_photo w cfg key slot kw photo).
Proof. pose proof resolve_pages. unfold process_photo. preserves_go pages_side. Qed.

Lemma photos_loop_pages n photos :
  preserves (at_page (jobs cfg) (Z.of_nat slot + 1) n)
    (job_inv_halt (jobs cfg) (Z.of_nat slot + 1))
    (photos_loop w cfg key slot kw (count job) photos).
Proof.
  pose proof process_photo_pages.
  induction photos; cbn [photos_loop]; preserves_go pages_side.
Qed.

Lemma rate_wait_pages n k :
  preserves (at_page (jobs cfg) (Z.of_nat slot + 1) n)
    (job_inv_halt (jobs cfg) (Z.of_nat slot + 1)) (rate_wait w k).
Proof. induction k; cbn [rate_wait]; preserves_go pages_side. Qed.

Lemma interval_wait_pages n k :
  preserves (at_page (jobs cfg) (Z.of_nat slot + 1) n)
    (job_inv_halt (jobs cfg) (Z.of_nat slot + 1)) (interval_wait w k).
Proof. induction k; cbn [interval_wait]; preserves_go pages_side. Qed.

Lemma handle_page_pages pg next :
  triple (at_page (jobs cfg) (Z.of_nat slot + 1) pg)
    (job_inv (jobs cfg) (Z.of_nat slot + 1))
    (job_inv_halt (jobs cfg) (Z.of_nat slot + 1)) next ->
  triple (at_page (jobs cfg) (Z.of_nat slot + 1) pg)
    (job_inv (jobs cfg) (Z.of_nat slot + 1))
    (job_inv_halt (jobs cfg) (Z.of_nat slot + 1))
    (handle_page w cfg key slot kw (count job) pg next).
Proof.
  intros Hnext.
  pose proof photos_loop_pages. pose proof interval_wait_pages.
  unfold handle_page. triple_go pages_side.
Qed.


Lemma job_inv_search p reply s (s' : State) :
  trace s' = NetSearch (Z.of_nat slot + 1) p reply :: trace s ->
  1 <= page p <= pages_needed (count job) ->
  job_inv (jobs cfg) (Z.of_nat slot + 1) s ->
  (hd 0 (requested_pages (Z.of_nat slot + 1) (trace s)) = page p - 1 \/
   hd 0 (requested_pages (Z.of_nat slot + 1) (trace s)) = page p) ->
  at_page (jobs cfg) (Z.of_nat slot + 1) (page p) s'.
Proof.
  intros Htr Hpg [Hpaged Hfresh] Hhd. unfold at_page, job_inv. rewrite Htr.
  split; [split |].
  - intros slot' job' Hjob'. cbn [requested_pages search_page].
    destruct (Z.eqb_spec (Z.of_nat slot + 1) (Z.of_nat slot' + 1)) as [Heq | Hne];
      [| apply Hpaged, Hjob'].
    assert (slot' = slot) by lia. subst slot'.
    rewrite job_at_slot in Hjob'. injection Hjob' as <-.
    destruct (Hpaged slot job job_at_slot) as [Hdesc Hall].
    split; [| constructor; assumption].
    split; [| exact Hdesc].
    destruct (requested_pages (Z.of_nat slot + 1) (trace s)) as [| q older];
      cbn [hd] in Hhd; lia.
  - intros j' Hj'. cbn [requested_pages search_page].
    destruct (Z.eqb_spec (Z.of_nat slot + 1) j'); [lia | apply Hfresh, Hj'].
  - cbn [requested_pages search_page]. rewrite Z.eqb_refl. reflexivity.
Qed.

Lemma fetch_page_pages pg retries : forall s,
  1 <= pg <= pages_needed (count job) ->
  job_inv (jobs cfg) (Z.of_nat slot + 1) s ->
  (hd 0 (requested_pages (Z.of_nat slot + 1) (trace s)) = pg - 1 \/
   hd 0 (requested_pages (Z.of_nat slot + 1) (trace s)) = pg) ->
  match fetch_page w cfg (Z.of_nat slot + 1) kw (count job) retries pg s with
  | Val _ s' =>
      job_inv (jobs cfg) (Z.of_nat slot + 1) s' /\
      (stop_flag w (tick s') = true \/
       hd 0 (requested_pages (Z.of_nat slot + 1) (trace s')) = pg)
  | Stop _ s' => job_inv (jobs cfg) (Z.of_nat slot + 1) s'
  end.
Proof.
  induction retries as [| retries IH]; intros s Hpg Hinv Hhd; cbn [fetch_page];
    sym;
    (destruct (stop_flag w (tick s)) eqn:Hflag; sym;
     [ split; [revert Hinv; pages_side |];
       left; apply (stop_flag_mono w (tick s)); [lia | exact Hflag] |]);
    match goal with
    | |- context [record (NetSearch ?j ?p ?reply) ?s0] =>
        assert (Hns : at_page (jobs cfg) (Z.of_nat slot + 1) pg
                        (record (NetSearch j p reply) s0))
          by (apply (job_inv_search p reply s0); 
              [ reflexivity | exact Hpg | revert Hinv; pages_side | exact Hhd ])
    end;
    sym_go.
  all: try solve [ revert Hns; pages_side ].
  all: try solve [ split; [| right]; revert Hns; pages_side ].
  all: unfold bind at 1;
    match goal with
    | |- context [rate_wait w ?n ?s1] =>
        assert (Hs1 : at_page (jobs cfg) (Z.of_nat slot + 1) pg s1)
          by (revert Hns; pages_side);
        pose proof (rate_wait_pages pg n s1 Hs1) as Hw;
        destruct (rate_wait w n s1) as [[] s2 | h s2]; [| exact Hw]
    end; sym.
  - apply Hw.
  - apply IH; [exact Hpg | apply Hw | right; apply Hw].
Qed.

Lemma pages_loop_pages hi n : forall lo,
  Z.to_nat (hi - lo) = n -> hi = pages_needed (count job) + 1 -> 1 <= lo ->
  triple (at_page (jobs cfg) (Z.of_nat slot + 1) (lo - 1))
    (job_inv (jobs cfg) (Z.of_nat slot + 1))
    (job_inv_halt (jobs cfg) (Z.of_nat slot + 1))
    (pages_loop w cfg fuel key (Z.of_nat slot + 1) slot kw (count job)
       (Py.range lo hi)).
Proof.
  induction n as [| n IH]; intros lo Hn Hhi Hlo.
  - rewrite range_nil by lia. intros s [Hs _]. exact Hs.
  - rewrite range_cons by lia. intros s Hs. cbn [pages_loop]. sym.
    destruct (stop_flag w (tick s)) eqn:Hflag; sym;
      [revert Hs; pages_side |].
    unfold bind at 1.
    match goal with
    | |- context [fetch_page w cfg ?j kw (count job) fuel lo ?s1] =>
        pose proof (fetch_page_pages lo fuel s1 ltac:(lia)
                      ltac:(revert Hs; pages_side)
                      ltac:(left; revert Hs; pages_side)) as Hf;
        destruct (fetch_page w cfg j kw (count job) fuel lo s1) as [[] s2 | h s2];
          [| exact Hf]
    end.
    destruct Hf as [Hinv Hhd]. sym.
    destruct (stop_flag w (tick s2)) eqn:Hflag2; sym;
      [revert Hinv; pages_side |].
    destruct Hhd as [Hset | Hhd]; [congruence |].
    specialize (IH (lo + 1) ltac:(lia) Hhi ltac:(lia)).
    replace (lo + 1 - 1) with lo in IH by lia.
    apply (handle_page_pages lo _ IH).
    split; [revert Hinv; pages_side | exact Hhd].
Qed.

End Job.

Lemma fresh_from_le j j' tr : j <= j' -> fresh_from j tr -> fresh_from j' tr.
Proof. intros Hle H k Hk. apply H. lia. Qed.

Lemma jobs_loop_pages key js : forall slot s,
  (forall k job, js !! k = Some job -> jobs cfg !! (slot + k)%nat = Some job) ->
  paged (jobs cfg) (trace s) -> fresh_from (Z.of_nat slot + 1) (trace s) ->
  paged (jobs cfg) (trace (final (jobs_loop w cfg fuel key slot js s))).
Proof.
  induction js as [| job rest IH]; intros slot s Hjobs Hp Hf; cbn [jobs_loop];
    sym; [exact Hp |].
  assert (Hrest : forall k job', rest !! k = Some job' ->
                    jobs cfg !! (S slot + k)%nat = Some job').
  { intros k job' Hk. replace (S slot + k)%nat with (slot + S k)%nat by lia.
    apply Hjobs. exact Hk. }
  assert (Hjob : jobs cfg !! slot = Some job).
  { replace slot with (slot + 0)%nat by lia. apply Hjobs. reflexivity. }
  assert (Hnext : forall tr, fresh_from (Z.of_nat slot + 1 + 1) tr ->
                    fresh_from (Z.of_nat (S slot) + 1) tr).
  { intros tr. apply fresh_from_le. lia. }
  assert (Hfresh : forall j' tr,
            Z.of_nat slot + 1 <= j' ->
            fresh_from (Z.of_nat slot + 1) tr -> fresh_from j' tr).
  { intros j' tr Hle. apply fresh_from_le, Hle. }
  destruct (stop_flag w (tick s)); sym; [revert Hp; pages_side |].
  destruct (count job <=? 0).
  { apply IH; [exact Hrest | revert Hp; pages_side |].
    apply (fresh_from_le (Z.of_nat slot + 1)); [lia |]. revert Hf; pages_side. }
  sym.
  destruct (pages_needed (count job) <=? 0).
  { apply IH; [exact Hrest | revert Hp; pages_side |].
    apply (fresh_from_le (Z.of_nat slot + 1)); [lia |]. revert Hf; pages_side. }
  sym. unfold bind at 1.
  match goal with
  | |- context [pages_loop w cfg fuel key ?j slot ?kw (count job) ?pages ?s1] =>
      assert (Hpre : at_page (jobs cfg) (Z.of_nat slot + 1) (1 - 1) s1);
      [| pose proof (pages_loop_pages key slot kw job Hjob
                       (pages_needed (count job) + 1) _ 1 eq_refl eq_refl
                       ltac:(lia) s1 Hpre) as Hl;
         destruct (pages_loop w cfg fuel key j slot kw (count job) pages s1)
           as [[] s2 | h s2] ]
  end.
  - split; [split |].
    + revert Hp; pages_side.
    + apply (fresh_from_le (Z.of_nat slot + 1)); [lia |]. revert Hf; pages_side.
    + cbn [trace record advance with_job_downloaded requested_pages search_page].
      rewrite (Hf (Z.of_nat slot + 1)) by lia. reflexivity.
  - destruct Hl as [Hp2 Hf2].
    sym. destruct (stop_flag w (tick s2)); sym; [revert Hp2; pages_side |].
    apply IH; [exact Hrest | revert Hp2; pages_side |].
    apply (fresh_from_le (Z.of_nat slot + 1 + 1)); [lia |].
    revert Hf2; pages_side.
  - sym. apply Hl.
Qed.

Lemma run_jobs_pages s :
  paged (jobs cfg) (trace s) -> fresh_from 1 (trace s) ->
  paged (jobs cfg) (trace (final (run_jobs w cfg fuel s))).
Proof.
  intros Hp Hf. unfold run_jobs, mkdir.
  destruct (jobs cfg) eqn:Hjobs; sym; [revert Hp; pages_side |].
  rewrite <- Hjobs in *.
  sym_go; try solve [revert Hp; pages_side].
  all: unfold bind at 1;
    match goal with
    | |- context [jobs_loop w cfg fuel ?key 0%nat (jobs cfg) ?s1] =>
        pose proof (jobs_loop_pages key (jobs cfg) 0%nat s1
                      ltac:(intros k job Hk; exact Hk)
                      ltac:(revert Hp; pages_side)
                      ltac:(revert Hf; pages_side)) as Hl;
        destruct (jobs_loop w cfg fuel key 0%nat (jobs cfg) s1) as [[] s2 | h s2]
    end; cbn [final] in Hl; sym_go; revert Hl; pages_side.
Qed.

Lemma run_pages : paged (jobs cfg) (trace (final (execute w cfg fuel))).
Proof.
  assert (Hp : paged (jobs cfg) (trace (initial (length (jobs cfg))))).
  { intros slot job _. split; [exact Logic.I | constructor]. }
  assert (Hf : fresh_from 1 (trace (initial (length (jobs cfg))))).
  { intros j _. reflexivity. }
  unfold execute, run, catch, run_body, bind at 1.
  pose proof (run_jobs_pages _ Hp Hf) as H.
  destruct (run_jobs w cfg fuel _) as [[] s' | [ | e | ] s']; cbn [final] in *;
    sym; revert H; pages_side.
Qed.

End Pages.

Lemma distinct_bound (l : list Z) (n : Z) :
  Forall (fun p => 1 <= p <= n) l ->
  (length (nodup Z.eq_dec l) <= Z.to_nat n)%nat.
Proof.
  intros Hall.
  replace (Z.to_nat n) with (length (Py.range 1 (n + 1))).
  2:{ unfold Py.range. rewrite length_map, length_seq. lia. }
  apply List.NoDup_incl_length; [apply List.NoDup_nodup |].
  intros x Hx. apply nodup_In in Hx.
  rewrite List.Forall_forall in Hall. specialize (Hall x Hx).
  unfold Py.range. apply in_map_iff. exists (Z.to_nat (x - 1)).
  split; [lia |]. apply in_seq. lia.
Qed.

(** C9.  For the job at any position of the job list, the search requests
    made for it are for page 1 first and then for the same page again or for
    the next one, all within [pages_needed = ceil(targetCount / 30)], so at
    most that many distinct pages are requested; a job whose target is not
    positive gets no request at all.  65 items need 3 pages, 30 need 1 and 0
    need none. *)
Theorem pages_requested_in_order (w : World) (cfg : Config) (fuel : nat)
    (slot : nat) (job : Job) :
  jobs cfg !! slot = Some job ->
  let pages := requested_pages (Z.of_nat slot + 1) (events w cfg fuel) in
  in_order pages /\
  Forall (fun p => 1 <= p <= pages_needed (count job)) pages /\
  (length (nodup Z.eq_dec pages) <= Z.to_nat (pages_needed (count job)))%nat /\
  (count job <= 0 -> pages = []) /\
  (0 < count job ->
   pages_needed (count job) = Qceiling (inject_Z (count job) / inject_Z 30) /\
   pages_needed (count job) = (count job + 29) / 30) /\
  pages_needed 65 = 3 /\ pages_needed 30 = 1 /\ pages_needed 0 = 0.
Proof.
  intros Hjob pages.
  destruct (run_pages w cfg fuel slot job Hjob) as [Hdesc Hall].
  assert (Hin : in_order pages).
  { unfold pages, events. rewrite requested_pages_rev.
    apply descends_in_order, Hdesc. }
  assert (Hbound : Forall (fun p => 1 <= p <= pages_needed (count job)) pages).
  { unfold pages, events. rewrite requested_pages_rev.
    apply List.Forall_rev, Hall. }
  repeat split; try reflexivity; try assumption.
  - apply distinct_bound, Hbound.
  - intros Hzero. rewrite pages_needed_nonpos in Hbound by exact Hzero.
    destruct pages as [| p rest]; [reflexivity |].
    apply List.Forall_inv in Hbound. lia.
  - unfold pages_needed. destruct (Z.ltb_spec 0 (count job)); [reflexivity | lia].
  - apply pages_needed_div. assumption.
Qed.

Lemma pages_requested_in_order_witness :
  let pages := requested_pages 1 (events Sample.calm Sample.big_job 0) in
  pages = [1; 2; 3] /\ in_order pages.
Proof.
  intros pages. split; [vm_compute; reflexivity |].
  apply (pages_requested_in_order Sample.calm Sample.big_job 0 0
           {| keyword := "cats"; count := 65 |}).
  reflexivity.
Defined.

(** ** Waits between search requests *)

Lemma plain_last_search e tr :
  is_plain e = true -> last_search (e :: tr) = last_search tr.
Proof. destruct e; try discriminate; reflexivity. Qed.

Lemma plain_sleeps_since e tr :
  is_plain e = true -> sleeps_since (e :: tr) = sleeps_since tr.
Proof. destruct e; try discriminate; reflexivity. Qed.

Lemma spaced_cons n e tr :
  is_net_search e = false -> spaced n tr -> spaced n (e :: tr).
Proof. intros He H. destruct e; try discriminate; split; auto. Qed.

Lemma spaced_app n l1 l2 : spaced n (l1 ++ l2) -> spaced n l2.
Proof. induction l1 as [| e l1 IH]; [auto |]. intros [_ H]. auto. Qed.

Section Phase.
Variable w : World.
Variable n : nat.
Variable F : option (Z * Z * SearchReply) -> nat -> Prop.

Lemma phase_record e s :
  is_plain e = true -> phase w n F s -> phase w n F (record e s).
Proof.
  intros He [Hsp Hf]. split.
  - apply spaced_cons; [| exact Hsp]. destruct e; try discriminate; reflexivity.
  - destruct Hf as [Hstop | Hf]; [left; exact Hstop | right].
    cbn [trace record]. rewrite plain_last_search, plain_sleeps_since by exact He.
    exact Hf.
Qed.

Lemma phase_advance s : phase w n F s -> phase w n F (advance s).
Proof.
  intros [Hsp Hf]. split; [exact Hsp |].
  destruct Hf as [Hstop | Hf]; [left | right; exact Hf].
  apply (stop_flag_mono w (tick s)); [cbn; lia | exact Hstop].
Qed.

Lemma phase_with_resp r s : phase w n F s -> phase w n F (with_resp r s).
Proof. intros H. exact H. Qed.

Lemma phase_with_request_count k s :
  phase w n F s -> phase w n F (with_request_count k s).
Proof. intros H. exact H. Qed.

Lemma phase_with_total_downloaded k s :
  phase w n F s -> phase w n F (with_total_downloaded k s).
Proof. intros H. exact H. Qed.

Lemma phase_with_job_downloaded l s :
  phase w n F s -> phase w n F (with_job_downloaded l s).
Proof. intros H. exact H. Qed.

Lemma phase_spaced s : phase w n F s -> spaced n (trace s).
Proof. intros [H _]. exact H. Qed.

End Phase.

Ltac phase_steps :=
  repeat first [ apply phase_record; [reflexivity |]
               | apply phase_advance
               | apply phase_with_resp
               | apply phase_with_request_count
               | apply phase_with_total_downloaded
               | apply phase_with_job_downloaded ].

Lemma retrying_sleep w n j pg s :
  retrying w n j pg s -> retrying w n j pg (record Sleep1 s).
Proof.
  intros [Hsp Hf]. split; [split; [exact Logic.I | exact Hsp] |].
  destruct Hf as [Hstop | Hf]; [left; exact Hstop | right; exact Hf].
Qed.

Lemma waited_sleep w n j pg k s :
  waited w n j pg k s -> waited w n j pg (S k) (record Sleep1 s).
Proof.
  intros [Hsp Hf]. split; [split; [exact Logic.I | exact Hsp] |].
  destruct Hf as [Hstop | [Hl Hk]]; [left; exact Hstop | right].
  split; [exact Hl |]. cbn. rewrite Hk. reflexivity.
Qed.

Lemma phase_stopping w n F s :
  spaced n (trace s) -> stopping w s -> phase w n F s.
Proof. intros Hsp Hstop. split; [exact Hsp | left; exact Hstop]. Qed.

Lemma phase_not_stopping w n F s :
  phase w n F s -> stop_flag w (tick s) = false ->
  F (last_search (trace s)) (sleeps_since (trace s)).
Proof.
  intros [_ [Hstop | Hf]] Hflag; [| exact Hf].
  unfold stopping in Hstop. congruence.
Qed.

Lemma waited_settled w n j pg s : waited w n j pg 0 s -> settled w n j s.
Proof.
  intros [Hsp Hf]. split; [exact Hsp |].
  destruct Hf as [Hstop | [(r & Hl) Hk]]; [left; exact Hstop | right].
  split; [exact Hk |]. intros j' q r' Heq. rewrite Hl in Heq.
  injection Heq as <- _ _. lia.
Qed.

Lemma settled_le w n j j' s : j <= j' -> settled w n j s -> settled w n j' s.
Proof.
  intros Hle [Hsp Hf]. split; [exact Hsp |].
  destruct Hf as [Hstop | [Hk Hl]]; [left; exact Hstop | right].
  split; [exact Hk |]. intros j0 q r Heq. specialize (Hl j0 q r Heq). lia.
Qed.

Ltac gap_side :=
  unfold spaced_halt; intros;
  try solve [ unfold waited, retrying, settled, ready in *; phase_steps; assumption
            | eapply phase_spaced; phase_steps; eassumption
            | unfold retrying in *; phase_steps; apply retrying_sleep;
              unfold retrying in *; phase_steps; assumption
            | unfold settled; phase_steps; eapply waited_settled; eassumption ].

Ltac spaced_from H :=
  cbn [final trace record advance with_resp with_request_count
       with_total_downloaded with_job_downloaded];
  repeat (apply spaced_cons; [reflexivity |]);
  exact (phase_spaced _ _ _ _ H).

Section Gaps.
Variable w : World.
Variable cfg : Config.
Variable fuel : nat.
Variable n : nat.
Hypothesis n_interval : n = interval_sleeps (limit_per_hour cfg).

Section Job.
Variables (key : string) (j : Z) (slot : nat) (kw : string) (target_count : Z).

Lemma resolve_gaps pg k photo :
  preserves (waited w n j pg k) (spaced_halt n) (resolve w key photo).
Proof. unfold resolve. preserves_go gap_side. Qed.

Lemma process_photo_gaps pg k photo :
  preserves (waited w n j pg k) (spaced_halt n)
    (process_photo w cfg key slot kw photo).
Proof. pose proof resolve_gaps. unfold process_photo. preserves_go gap_side. Qed.

Lemma photos_loop_gaps pg k photos :
  preserves (waited w n j pg k) (spaced_halt n)
    (photos_loop w cfg key slot kw target_count photos).
Proof.
  pose proof process_photo_gaps.
  induction photos; cbn [photos_loop]; preserves_go gap_side.
Qed.

Lemma rate_wait_gaps pg k :
  preserves (retrying w n j pg) (spaced_halt n) (rate_wait w k).
Proof. induction k; cbn [rate_wait]; preserves_go gap_side. Qed.

Lemma interval_wait_gaps pg k : forall m s,
  waited w n j pg m s ->
  match interval_wait w k s with
  | Val _ s' => waited w n j pg (m + k) s'
  | Stop _ s' => spaced n (trace s')
  end.
Proof.
  induction k as [| k IH]; intros m s Hs; cbn [interval_wait]; sym.
  - replace (m + 0)%nat with m by lia. exact Hs.
  - destruct (stop_flag w (tick s)) eqn:Hflag; sym.
    + apply phase_stopping.
      * eapply phase_spaced. phase_steps. exact Hs.
      * apply (stop_flag_mono w (tick s)); [cbn; lia | exact Hflag].
    + replace (m + S k)%nat with (S m + k)%nat by lia.
      apply IH. apply phase_advance, waited_sleep. phase_steps. exact Hs.
Qed.

Lemma search_gaps p reply s0 :
  spaced n (trace s0) ->
  gap_ok n j (page p) (last_search (trace s0)) (sleeps_since (trace s0)) ->
  waited w n j (page p) 0 (record (NetSearch j p reply) s0).
Proof.
  intros Hsp Hgap. split.
  - split; [exact Hgap | exact Hsp].
  - right. split; [eexists; reflexivity | reflexivity].
Qed.

Lemma waited_retrying pg r s0 p :
  page p = pg -> rate_limited (SearchResponse r) = true ->
  waited w n j pg 0 (record (NetSearch j p (SearchResponse r)) s0) ->
  retrying w n j pg (record (NetSearch j p (SearchResponse r)) s0).
Proof.
  intros Hp Hr [Hsp _]. split; [exact Hsp |]. right.
  eexists. split; [cbn; rewrite Hp; reflexivity | exact Hr].
Qed.

Lemma retrying_ready pg s : retrying w n j pg s -> ready w n j pg s.
Proof.
  intros [Hsp Hf]. split; [exact Hsp |].
  destruct Hf as [Hstop | (r & Hl & Hr)]; [left; exact Hstop | right].
  rewrite Hl. cbn. rewrite Z.eqb_refl. left. auto.
Qed.

Lemma fetch_page_gaps pg retries : forall s,
  ready w n j pg s ->
  match fetch_page w cfg j kw target_count retries pg s with
  | Val _ s' => waited w n j pg 0 s'
  | Stop _ s' => spaced n (trace s')
  end.
Proof.
  induction retries as [| retries IH]; intros s Hs; cbn [fetch_page]; sym;
    (destruct (stop_flag w (tick s)) eqn:Hflag; sym;
     [ apply phase_stopping;
       [ eapply phase_spaced; phase_steps; exact Hs
       | apply (stop_flag_mono w (tick s)); [cbn; lia | exact Hflag] ] |]);
    pose proof (phase_not_stopping _ _ _ _ Hs Hflag) as Hgap;
    match goal with
    | |- context [record (NetSearch ?j0 ?p ?reply) ?s0] =>
        pose proof (search_gaps p reply s0
                      ltac:(eapply phase_spaced; phase_steps; exact Hs) Hgap) as Hns
    end;
    sym_go.
  all: try solve [ revert Hns; gap_side ].
  all: try solve [ repeat (apply spaced_cons; [reflexivity |]);
                   exact (phase_spaced _ _ _ _ Hns) ].
  all: unfold bind at 1;
    match goal with
    | |- context [rate_wait w ?k ?s1] =>
        assert (Hs1 : retrying w n j pg s1)
          by (unfold retrying; phase_steps;
              apply (waited_retrying pg); [reflexivity | assumption | exact Hns]);
        pose proof (rate_wait_gaps pg k s1 Hs1) as Hw;
        destruct (rate_wait w k s1) as [[] s2 | h s2]; [| exact Hw]
    end; sym.
  - split; [exact Logic.I | exact (phase_spaced _ _ _ _ Hw)].
  - apply IH. apply retrying_ready. unfold retrying. phase_steps. exact Hw.
Qed.

Lemma waited_gap pg k s :
  waited w n j pg k s -> stop_flag w (tick s) = false -> k = n ->
  gap_ok n j (pg + 1) (last_search (trace s)) (sleeps_since (trace s)).
Proof.
  intros Hs Hflag Hk.
  destruct (phase_not_stopping _ _ _ _ Hs Hflag) as [(r & Hl) Hsl].
  rewrite Hl, Hsl. cbn. rewrite Z.eqb_refl. right. split; [reflexivity | exact Hk].
Qed.

Lemma handle_page_gaps pg hi next :
  hi = pages_needed target_count + 1 ->
  triple (entry w n j (pg + 1) hi) (settled w n j) (spaced_halt n) next ->
  triple (waited w n j pg 0) (settled w n j) (spaced_halt n)
    (handle_page w cfg key slot kw target_count pg next).
Proof.
  intros Hhi Hnext. pose proof photos_loop_gaps. unfold handle_page.
  triple_go gap_side.
  - match goal with
    | Hc : (Qle_bool _ _ && _)%bool = true |- _ =>
        apply andb_true_iff in Hc as [Hle Hlt]
    end.
    apply Z.ltb_lt in Hlt.
    intros s Hs. unfold bind at 1.
    pose proof (interval_wait_gaps pg
                  (Z.to_nat (Py.int_of_float (interval_sec (limit_per_hour cfg))))
                  0%nat s Hs) as Hw.
    destruct (interval_wait w _ s) as [[] s2 | h s2]; [| exact Hw]. sym.
    destruct (stop_flag w (tick s2)) eqn:Hflag; sym.
    + apply phase_stopping; [eapply phase_spaced; phase_steps; exact Hw |].
      apply (stop_flag_mono w (tick s2)); [cbn; lia | exact Hflag].
    + apply Hnext. unfold entry.
      destruct (Z.ltb_spec (pg + 1) hi); [| lia].
      split; [eapply phase_spaced; phase_steps; exact Hw | right].
      apply (waited_gap pg _ s2 Hw Hflag).
      rewrite n_interval. unfold interval_sleeps. rewrite Hle. reflexivity.
  - intros s Hs. apply Hnext. unfold entry.
    destruct (Z.ltb_spec (pg + 1) hi) as [Hlt | Hge];
      [| apply (waited_settled w n j pg), Hs].
    assert (Hn : n = 0%nat).
    { rewrite n_interval. unfold interval_sleeps.
      match goal with
      | Hc : (Qle_bool _ _ && _)%bool = false |- _ =>
          apply andb_false_iff in Hc as [-> | Hlt']; [reflexivity |]
      end.
      apply Z.ltb_ge in Hlt'. lia. }
    split; [exact (phase_spaced _ _ _ _ Hs) |].
    destruct Hs as [_ [Hstop | [(r' & Hl) Hsl]]]; [left; exact Hstop | right].
    rewrite Hl, Hsl. cbn. rewrite Z.eqb_refl. right. split; [reflexivity | auto].
Qed.

Lemma pages_loop_gaps hi k : forall lo,
  Z.to_nat (hi - lo) = k -> hi = pages_needed target_count + 1 ->
  triple (entry w n j lo hi) (settled w n j) (spaced_halt n)
    (pages_loop w cfg fuel key j slot kw target_count (Py.range lo hi)).
Proof.
  induction k as [| k IH]; intros lo Hk Hhi; unfold entry.
  - rewrite range_nil by lia. destruct (Z.ltb_spec lo hi); [lia |].
    intros s Hs. exact Hs.
  - rewrite range_cons by lia. destruct (Z.ltb_spec lo hi); [| lia].
    intros s Hs. cbn [pages_loop]. sym.
    destruct (stop_flag w (tick s)) eqn:Hflag; sym.
    { apply phase_stopping; [eapply phase_spaced; phase_steps; exact Hs |].
      apply (stop_flag_mono w (tick s)); [cbn; lia | exact Hflag]. }
    unfold bind at 1.
    match goal with
    | |- context [fetch_page w cfg j kw target_count fuel lo ?s1] =>
        pose proof (fetch_page_gaps lo fuel s1
                      ltac:(unfold ready; phase_steps; exact Hs)) as Hf;
        destruct (fetch_page w cfg j kw target_count fuel lo s1) as [[] s2 | h s2];
          [| exact Hf]
    end.
    sym. destruct (stop_flag w (tick s2)) eqn:Hflag2; sym.
    { apply phase_stopping; [eapply phase_spaced; phase_steps; exact Hf |].
      apply (stop_flag_mono w (tick s2)); [cbn; lia | exact Hflag2]. }
    apply (handle_page_gaps lo hi _ Hhi (IH (lo + 1) ltac:(lia) Hhi)).
    unfold waited. phase_steps. exact Hf.
Qed.

End Job.

Lemma jobs_loop_gaps key js : forall slot s,
  settled w n (Z.of_nat slot) s ->
  spaced n (trace (final (jobs_loop w cfg fuel key slot js s))).
Proof.
  induction js as [| job rest IH]; intros slot s Hs; cbn [jobs_loop]; sym;
    [exact (phase_spaced _ _ _ _ Hs) |].
  assert (Hup : forall s', settled w n (Z.of_nat slot) s' ->
                  settled w n (Z.of_nat (S slot)) s').
  { intros s'. apply settled_le. lia. }
  destruct (stop_flag w (tick s)) eqn:Hflag; sym.
  { spaced_from Hs. }
  destruct (count job <=? 0).
  { apply IH, Hup. unfold settled. phase_steps. exact Hs. }
  sym.
  destruct (pages_needed (count job) <=? 0) eqn:Hpages.
  { apply IH, Hup. unfold settled. phase_steps. exact Hs. }
  apply Z.leb_gt in Hpages.
  sym. unfold bind at 1.
  match goal with
  | |- context [pages_loop w cfg fuel key ?j ?sl ?kw ?t ?pages ?s1] =>
      assert (Hpre : entry w n j 1 (pages_needed (count job) + 1) s1);
      [| pose proof (pages_loop_gaps key j sl kw t
                       (pages_needed (count job) + 1) _ 1 eq_refl eq_refl
                       s1 Hpre) as Hl;
         destruct (pages_loop w cfg fuel key j sl kw t pages s1)
           as [[] s2 | h s2] ]
  end.
  - unfold entry. destruct (Z.ltb_spec 1 (pages_needed (count job) + 1)); [| lia].
    split; [eapply phase_spaced; phase_steps; exact Hs | right].
    pose proof (phase_not_stopping _ _ _ _ Hs Hflag) as [Hsl Hlast].
    cbn [trace record advance with_job_downloaded last_search sleeps_since].
    rewrite Hsl.
    destruct (last_search (trace s)) as [[[j' q] r] |]; cbn; [| auto].
    specialize (Hlast j' q r eq_refl).
    destruct (Z.eqb_spec j' (Z.of_nat slot + 1)); [lia | auto].
  - sym. destruct (stop_flag w (tick s2)); sym.
    + spaced_from Hl.
    + apply IH. apply (settled_le w n (Z.of_nat slot + 1)); [lia |].
      unfold settled. phase_steps. exact Hl.
  - sym. exact Hl.
Qed.

Lemma run_jobs_gaps s :
  settled w n 0 s -> spaced n (trace (final (run_jobs w cfg fuel s))).
Proof.
  intros Hs. unfold run_jobs, mkdir.
  destruct (jobs cfg) eqn:Hjobs; sym; [spaced_from Hs |].
  rewrite <- Hjobs in *.
  sym_go; try solve [spaced_from Hs].
  all: unfold bind at 1;
    match goal with
    | |- context [jobs_loop w cfg fuel ?key 0%nat (jobs cfg) ?s1] =>
        pose proof (jobs_loop_gaps key (jobs cfg) 0%nat s1
                      ltac:(unfold settled; phase_steps; exact Hs)) as Hl;
        destruct (jobs_loop w cfg fuel key 0%nat (jobs cfg) s1) as [[] s2 | h s2]
    end; cbn [final] in Hl; sym_go;
    repeat (apply spaced_cons; [reflexivity |]); exact Hl.
Qed.

Lemma run_gaps : spaced n (trace (final (execute w cfg fuel))).
Proof.
  assert (Hs : settled w n 0 (initial (length (jobs cfg)))).
  { split; [exact Logic.I | right]. split; [reflexivity | discriminate]. }
  unfold execute, run, catch, run_body, bind at 1.
  pose proof (run_jobs_gaps _ Hs) as H.
  destruct (run_jobs w cfg fuel _) as [[] s' | [ | e | ] s']; cbn [final] in *;
    sym; repeat (apply spaced_cons; [reflexivity |]); exact H.
Qed.

End Gaps.

Lemma interval_sleeps_seconds l :
  interval_sleeps l =
  if safe_limit l <=? 3600 then Z.to_nat (3600 / safe_limit l) else 0%nat.
Proof.
  unfold interval_sleeps.
  rewrite interval_at_least_one, interval_whole_seconds. reflexivity.
Qed.




(** ** Cancellation *)

Lemma triple_call (P P' R Q : State -> Prop) (X : Halt -> State -> Prop)
    {A B} (m : M A) (f : A -> M B) :
  triple P' R X m -> (forall s, P s -> P' s) ->
  (forall a, triple R Q X (f a)) -> triple P Q X (bind m f).
Proof.
  intros Hm Hpre Hf s Hs. unfold bind. specialize (Hm s (Hpre s Hs)).
  destruct (m s) as [a s' | h s']; [apply Hf; exact Hm | exact Hm].
Qed.

Lemma triple_pre (P P' Q : State -> Prop) (X : Halt -> State -> Prop)
    {A} (m : M A) :
  triple P' Q X m -> (forall s, P s -> P' s) -> triple P Q X m.
Proof. intros Hm Hpre s Hs. apply Hm, Hpre, Hs. Qed.

Lemma triple_post (P Q Q' : State -> Prop) (X : Halt -> State -> Prop)
    {A} (m : M A) :
  triple P Q' X m -> (forall s, Q' s -> Q s) -> triple P Q X m.
Proof.
  intros Hm Hpost s Hs. specialize (Hm s Hs).
  destruct (m s); [apply Hpost |]; exact Hm.
Qed.

Lemma triple_exit_run (P Q : State -> Prop) (X : Halt -> State -> Prop) {A} :
  (forall s, P s -> X HReturn (record finished s)) ->
  triple P Q X (@exit_run A).
Proof. intros H s Hs. apply H, Hs. Qed.

Lemma triple_abort (P Q : State -> Prop) (X : Halt -> State -> Prop) {A}
    (e : ErrMsg) :
  (forall s, P s -> X HReturn (record finished (record (error e) s))) ->
  triple P Q X (@abort A e).
Proof. intros H s Hs. apply H, Hs. Qed.

Lemma triple_out_of_fuel (P Q : State -> Prop) (X : Halt -> State -> Prop) {A} :
  (forall s, P s -> X HFuel s) -> triple P Q X (@out_of_fuel A).
Proof. intros H s Hs. apply H, Hs. Qed.

Lemma preserves_triple (I : State -> Prop) (X : Halt -> State -> Prop)
    {A} (m : M A) :
  triple I I X m -> preserves I X m.
Proof. intros H. exact H. Qed.

Lemma triple_preserves (I : State -> Prop) (X : Halt -> State -> Prop)
    {A} (m : M A) :
  preserves I X m -> triple I I X m.
Proof. intros H. exact H. Qed.

(** A read of the stop flag followed by a branch on what was read. *)
Lemma triple_poll_if w (P P1 P0 Q : State -> Prop) (X : Halt -> State -> Prop)
    {B} (f : bool -> M B) :
  (forall s, P s -> stop_flag w (tick s) = true ->
             P1 (advance (record (PollStop true) s))) ->
  (forall s, P s -> stop_flag w (tick s) = false ->
             P0 (advance (record (PollStop false) s))) ->
  triple P1 Q X (f true) -> triple P0 Q X (f false) ->
  triple P Q X (bind (poll_stop w) f).
Proof.
  intros H1 H0 Ht Hf s Hs. unfold bind, poll_stop.
  destruct (stop_flag w (tick s)) eqn:Hflag.
  - apply Ht, H1; assumption.
  - apply Hf, H0; assumption.
Qed.

(** *** Every sleep follows a read of the flag *)

Ltac guarded_side :=
  unfold guarded_halt, guarded_state;
  cbn [trace record advance with_resp with_request_count with_total_downloaded
       with_job_downloaded guarded];
  intros; try solve [ assumption | tauto ].

Section Guarded.
Variable w : World.
Variable cfg : Config.
Variable fuel : nat.

Section Job.
Variables (key : string) (job_index : Z) (slot : nat) (kw : string)
          (target_count : Z).

Lemma process_photo_guarded photo :
  preserves guarded_state guarded_halt (process_photo w cfg key slot kw photo).
Proof. unfold process_photo, resolve. preserves_go guarded_side. Qed.

Lemma photos_loop_guarded photos :
  preserves guarded_state guarded_halt
    (photos_loop w cfg key slot kw target_count photos).
Proof.
  pose proof process_photo_guarded.
  induction photos; cbn [photos_loop]; preserves_go guarded_side.
Qed.

Lemma rate_wait_guarded n :
  preserves guarded_state guarded_halt (rate_wait w n).
Proof.
  induction n as [| n IH]; cbn [rate_wait]; [apply preserves_ret |].
  apply preserves_triple.
  apply (triple_poll_if w _ guarded_state
           (fun s => guarded (Sleep1 :: trace s))).
  - guarded_side.
  - guarded_side.
  - apply triple_preserves. preserves_go guarded_side.
  - intros s Hs. unfold bind, sleep1. apply IH. exact Hs.
Qed.

Lemma interval_wait_guarded n :
  preserves guarded_state guarded_halt (interval_wait w n).
Proof.
  induction n as [| n IH]; cbn [interval_wait]; [apply preserves_ret |].
  apply preserves_triple.
  apply (triple_poll_if w _ guarded_state
           (fun s => guarded (Sleep1 :: trace s))).
  - guarded_side.
  - guarded_side.
  - apply triple_preserves. preserves_go guarded_side.
  - intros s Hs. unfold bind, sleep1. apply IH. exact Hs.
Qed.

Lemma fetch_page_guarded retries pg :
  preserves guarded_state guarded_halt
    (fetch_page w cfg job_index kw target_count retries pg).
Proof.
  pose proof rate_wait_guarded.
  induction retries; cbn [fetch_page]; preserves_go guarded_side.
Qed.

Lemma pages_loop_guarded pages :
  preserves guarded_state guarded_halt
    (pages_loop w cfg fuel key job_index slot kw target_count pages).
Proof.
  pose proof fetch_page_guarded.
  pose proof photos_loop_guarded.
  pose proof interval_wait_guarded.
  induction pages; cbn [pages_loop]; unfold handle_page;
    preserves_go guarded_side.
Qed.

End Job.

Lemma jobs_loop_guarded key js : forall slot,
  preserves guarded_state guarded_halt (jobs_loop w cfg fuel key slot js).
Proof.
  pose proof pages_loop_guarded.
  induction js; intros slot; cbn [jobs_loop]; preserves_go guarded_side.
Qed.

Lemma run_jobs_guarded :
  preserves guarded_state guarded_halt (run_jobs w cfg fuel).
Proof.
  pose proof jobs_loop_guarded.
  unfold run_jobs. preserves_go guarded_side.
Qed.

Lemma run_guarded : guarded (trace (final (execute w cfg fuel))).
Proof.
  unfold execute, run, catch, run_body, bind at 1.
  assert (H0 : guarded_state (initial (length (jobs cfg)))) by exact Logic.I.
  pose proof (run_jobs_guarded _ H0) as Hb.
  destruct (run_jobs w cfg fuel (initial (length (jobs cfg))))
    as [[] s' | [ | e | ] s']; cbn; revert Hb; guarded_side.
Qed.

End Guarded.

Lemma guarded_app newer older : guarded (newer ++ older) -> guarded older.
Proof.
  induction newer as [| e newer IH]; [intros H; exact H |].
  intros [_ H]. apply IH, H.
Qed.

(** X6.  A one-second sleep is entered only right after the stop flag was
    read and found clear, in the back-off wait as in the wait between pages: a
    stop request is seen at most one sleep after it is made. *)
Lemma sleep_follows_clear_flag (w : World) (cfg : Config) (fuel : nat)
    before after :
  events w cfg fuel = before ++ Sleep1 :: after ->
  exists before', before = before' ++ [PollStop false].
Proof.
  intros Heq. pose proof (run_guarded w cfg fuel) as Hg.
  unfold events in Heq.
  assert (Htr : trace (final (execute w cfg fuel))
                = rev after ++ Sleep1 :: rev before).
  { rewrite <- (rev_involutive (trace _)), Heq, rev_app_distr. cbn [rev].
    rewrite <- app_assoc. reflexivity. }
  rewrite Htr in Hg. apply guarded_app in Hg. destruct Hg as [Hg _].
  destruct (rev before) as [| e older] eqn:Hrev; [destruct Hg |].
  destruct e; try destruct Hg. destruct flag; [destruct Hg |].
  exists (rev older). rewrite <- (rev_involutive before), Hrev. reflexivity.
Qed.

(** *** After the flag was read as set *)

Lemma unseen_cons e tr : e <> PollStop true -> ~ seen tr -> ~ seen (e :: tr).
Proof. intros He Htr [H | H]; [apply He; exact H | exact (Htr H)]. Qed.

Lemma quiet_unseen tr : ~ seen tr -> quiet tr.
Proof.
  induction tr as [| e tr IH]; [intros _; exact Logic.I |].
  intros H. split.
  - intros _ Hin. apply H. right. exact Hin.
  - apply IH. intros Hin. apply H. right. exact Hin.
Qed.

Lemma quiet_after newer older :
  quiet (newer ++ PollStop true :: older) ->
  Forall (fun e => is_calm e = true) newer.
Proof.
  induction newer as [| e newer IH]; [intros _; constructor |].
  intros [He Hq]. constructor; [| apply IH, Hq].
  destruct (is_calm e) eqn:Hc; [reflexivity |].
  exfalso. apply (He eq_refl). apply in_elt.
Qed.

Section WindingDown.
Variable w : World.

Lemma winding_down_unseen s : unseen s -> winding_down w s.
Proof.
  intros H. split; [apply quiet_unseen, H | intros Hs; destruct (H Hs)].
Qed.

Lemma winding_down_record e s :
  is_calm e = true -> e <> PollStop true ->
  winding_down w s -> winding_down w (record e s).
Proof.
  intros Hc He [Hq Hs]. split.
  - split; [intros Hn; rewrite Hc in Hn; discriminate Hn | exact Hq].
  - intros [Hin | Hin]; [destruct (He Hin) | exact (Hs Hin)].
Qed.

Lemma winding_down_advance s : winding_down w s -> winding_down w (advance s).
Proof.
  intros [Hq Hs]. split; [exact Hq |]. intros Hin.
  apply (stop_flag_mono w (tick s)); [cbn; lia | exact (Hs Hin)].
Qed.

Lemma winding_down_with_resp r s :
  winding_down w s -> winding_down w (with_resp r s).
Proof. intros H. exact H. Qed.

Lemma winding_down_with_request_count k s :
  winding_down w s -> winding_down w (with_request_count k s).
Proof. intros H. exact H. Qed.

Lemma winding_down_with_total_downloaded k s :
  winding_down w s -> winding_down w (with_total_downloaded k s).
Proof. intros H. exact H. Qed.

Lemma winding_down_with_job_downloaded l s :
  winding_down w s -> winding_down w (with_job_downloaded l s).
Proof. intros H. exact H. Qed.

Lemma winding_down_poll_true s :
  winding_down w s -> stop_flag w (tick s) = true ->
  winding_down w (advance (record (PollStop true) s)).
Proof.
  intros [Hq Hs] Hflag. split.
  - split; [intros Hn; discriminate Hn | exact Hq].
  - intros _. apply (stop_flag_mono w (tick s)); [cbn; lia | exact Hflag].
Qed.

Lemma unseen_poll_false s :
  winding_down w s -> stop_flag w (tick s) = false ->
  unseen (advance (record (PollStop false) s)).
Proof.
  intros [Hq Hs] Hflag [Hin | Hin]; [discriminate Hin |].
  specialize (Hs Hin). unfold stopping in Hs. congruence.
Qed.

End WindingDown.

Ltac unseen_steps :=
  unfold unseen in *;
  cbn [trace record advance with_resp with_request_count with_total_downloaded
       with_job_downloaded] in *;
  repeat (apply unseen_cons; [discriminate |]); assumption.

Ltac winding_steps :=
  repeat first [ assumption
               | apply winding_down_record; [reflexivity | discriminate |]
               | apply winding_down_advance
               | apply winding_down_with_resp
               | apply winding_down_with_request_count
               | apply winding_down_with_total_downloaded
               | apply winding_down_with_job_downloaded ].

Ltac winding_side :=
  unfold winding_down_halt; intros;
  try solve [ unseen_steps
            | apply winding_down_unseen; unseen_steps
            | winding_steps
            | apply winding_down_poll_true;
                [ first [assumption | apply winding_down_unseen; assumption]
                | assumption ]
            | eapply unseen_poll_false;
                [ first [eassumption | apply winding_down_unseen; eassumption]
                | assumption ] ].

(** Walks through a program as [triple_go] does; a read of the stop flag
    splits the walk in the state where the flag was read as set and the
    state where it has not been. *)
Ltac winding_go :=
  repeat lazymatch goal with
  | |- triple _ _ _ (bind (poll_stop ?w) _) =>
      apply (triple_poll_if w _ (winding_down w) unseen);
        [ winding_side | winding_side | cbv beta iota | cbv beta iota ]
  | |- triple _ _ _ (bind _ _) =>
      first [ apply triple_bind; [ solve [preserves_go winding_side] | intros ? ]
            | eapply triple_call;
                [ solve [eauto] | solve [winding_side] | intros ? ] ]
  | |- triple _ _ _ (if ?b then _ else _) => destruct b eqn:?
  | |- triple _ _ _ (match ?x with _ => _ end) => destruct x eqn:?
  | |- triple _ _ _ (mkdir _ _) => unfold mkdir
  | |- triple _ _ _ exit_run => apply triple_exit_run; winding_side
  | |- triple _ _ _ (abort _) => apply triple_abort; winding_side
  | |- triple _ _ _ (raise _) => apply triple_raise; winding_side
  | |- triple _ _ _ out_of_fuel => apply triple_out_of_fuel; winding_side
  | |- triple _ _ _ _ =>
      first [ solve [eauto]
            | eapply triple_pre; [ solve [eauto] | solve [winding_side] ]
            | eapply triple_post; [ solve [eauto] | solve [winding_side] ]
            | apply triple_weaken;
                [ solve [preserves_go winding_side] | solve [winding_side] ] ]
  end.

Section Stopped.
Variable w : World.
Variable cfg : Config.
Variable fuel : nat.

Section Job.
Variables (key : string) (job_index : Z) (slot : nat) (kw : string)
          (target_count : Z).

Lemma process_photo_unseen photo :
  preserves unseen (winding_down_halt w) (process_photo w cfg key slot kw photo).
Proof. unfold process_photo, resolve. preserves_go winding_side. Qed.

Lemma photos_loop_winds_down photos :
  triple (winding_down w) (winding_down w) (winding_down_halt w)
    (photos_loop w cfg key slot kw target_count photos).
Proof.
  pose proof process_photo_unseen.
  induction photos; cbn [photos_loop]; winding_go.
Qed.

Lemma rate_wait_unseen n :
  preserves unseen (winding_down_halt w) (rate_wait w n).
Proof.
  apply preserves_triple.
  induction n; cbn [rate_wait]; winding_go.
Qed.

Lemma interval_wait_winds_down n :
  triple (winding_down w) (winding_down w) (winding_down_halt w)
    (interval_wait w n).
Proof. induction n; cbn [interval_wait]; winding_go. Qed.

Lemma fetch_page_winds_down retries pg :
  triple (winding_down w) (winding_down w) (winding_down_halt w)
    (fetch_page w cfg job_index kw target_count retries pg).
Proof.
  pose proof rate_wait_unseen.
  induction retries; cbn [fetch_page]; winding_go.
Qed.

Lemma pages_loop_winds_down pages :
  triple (winding_down w) (winding_down w) (winding_down_halt w)
    (pages_loop w cfg fuel key job_index slot kw target_count pages).
Proof.
  pose proof fetch_page_winds_down.
  pose proof photos_loop_winds_down.
  pose proof interval_wait_winds_down.
  induction pages; cbn [pages_loop]; unfold handle_page; winding_go.
Qed.

End Job.

Lemma jobs_loop_winds_down key js : forall slot,
  triple (winding_down w) (winding_down w) (winding_down_halt w)
    (jobs_loop w cfg fuel key slot js).
Proof.
  pose proof pages_loop_winds_down.
  induction js; intros slot; cbn [jobs_loop]; winding_go.
Qed.

Lemma run_jobs_winds_down :
  triple unseen (winding_down w) (winding_down_halt w) (run_jobs w cfg fuel).
Proof.
  pose proof jobs_loop_winds_down.
  unfold run_jobs. winding_go.
Qed.

Lemma run_winds_down :
  match execute w cfg fuel with
  | Stop HFuel s => unseen s
  | r => winding_down w (final r)
  end.
Proof.
  unfold execute, run, catch, run_body, bind at 1.
  assert (H0 : unseen (initial (length (jobs cfg)))) by (intros []).
  pose proof (run_jobs_winds_down _ H0) as Hb.
  destruct (run_jobs w cfg fuel (initial (length (jobs cfg))))
    as [[] s' | [ | e | ] s']; cbn [emit bind final];
    revert Hb; winding_side.
Qed.

End Stopped.

(** X7.  Once the stop flag has been read as set, the run makes no request,
    takes no sleep, saves no file and signals no error: what follows is
    made of further reads of the flag, messages, page progress and
    [finished], and the run comes to an end. *)
Lemma stop_ends_activity (w : World) (cfg : Config) (fuel : nat) before after :
  events w cfg fuel = before ++ PollStop true :: after ->
  terminated (execute w cfg fuel) = true /\
  Forall (fun e => is_calm e = true) after.
Proof.
  intros Heq. pose proof (run_winds_down w cfg fuel) as Hrun.
  unfold events in Heq.
  assert (Htr : trace (final (execute w cfg fuel))
                = rev after ++ PollStop true :: rev before).
  { rewrite <- (rev_involutive (trace _)), Heq, rev_app_distr. cbn [rev].
    rewrite <- app_assoc. reflexivity. }
  assert (Hseen : seen (trace (final (execute w cfg fuel)))).
  { rewrite Htr. apply in_elt. }
  assert (Hwd : terminated (execute w cfg fuel) = true /\
                winding_down w (final (execute w cfg fuel))).
  { destruct (execute w cfg fuel) as [a s | [ | e | ] s];
      try (split; [reflexivity | exact Hrun]).
    destruct (Hrun Hseen). }
  destruct Hwd as [Hterm [Hq _]]. split; [exact Hterm |].
  rewrite Htr in Hq. apply quiet_after in Hq.
  apply List.Forall_rev in Hq. rewrite rev_involutive in Hq. exact Hq.
Qed.

(** A stop request seen at the head of the page loop (line 126) is reported
    by a message on the [progress] signal. *)
Example stop_before_page_is_reported :
  existsb is_stop_report (events Sample.stop_before_page Sample.one_job 0) = true /\
  occurrences is_net_search (events Sample.stop_before_page Sample.one_job 0) = 0%nat.
Proof. split; vm_compute; reflexivity. Qed.

(** C8.  [stop()] called while the first search request of a run is in
    flight: the flag is read as set at the check that follows the request
    (line 239), no further request is made, no error is signalled and the
    run ends with [finished]; but nothing on the [progress] signal reports
    that the run was stopped on request, as the checks of lines 102, 126,
    209, 252 and 341 do. *)
Theorem stop_in_flight_is_not_reported :
  terminated (execute Sample.stop_in_flight Sample.one_job 0) = true /\
  In (PollStop true) (events Sample.stop_in_flight Sample.one_job 0) /\
  occurrences is_net_search (events Sample.stop_in_flight Sample.one_job 0) = 1%nat /\
  existsb is_error (events Sample.stop_in_flight Sample.one_job 0) = false /\
  List.last (events Sample.stop_in_flight Sample.one_job 0) Sleep1 = finished /\
  existsb is_stop_report (events Sample.stop_in_flight Sample.one_job 0) = false.
Proof.
  assert (Hev : exists reply,
            events Sample.stop_in_flight Sample.one_job 0 =
            [ Mkdir "out"; progress_max 1; progress_value 0;
              progress (MsgBudget 50 45 (3600 # 45)); PollStop false;
              progress (MsgJobStart 1 1 "cats" 1); page_max 1; page_value 0;
              PollStop false; PollStop false;
              progress (MsgSearching 1 1 1 1 1);
              NetSearch 1 (search_params Sample.one_job "cats" 1) reply;
              PollStop true; PollStop true; PollStop true; finished ]).
  { eexists. vm_compute. reflexivity. }
  destruct Hev as (reply & Hev). rewrite Hev.
  split; [vm_compute; reflexivity |].
  split; [cbn; tauto |].
  repeat split.
Qed.

(** ** Configuration errors *)

(** X1.  [run] checks its configuration before anything else, in this
    order: an empty job list is reported at once; then a missing access key
    (none configured and none in the environment); the output directory is
    created next, and a failure to create it is reported as an unexpected
    error; a total of zero images or less is reported last.  In each case
    the report is followed by [finished] and no request is made. *)
Theorem run_checks_configuration_first (w : World) (cfg : Config) (fuel : nat) :
  (jobs cfg = [] -> events w cfg fuel = [error ErrNoJobs; finished]) /\
  (jobs cfg <> [] -> effective_key w cfg = "" ->
   events w cfg fuel = [error ErrNoKey; finished]) /\
  (jobs cfg <> [] -> effective_key w cfg <> "" -> mkdir_ok w = false ->
   events w cfg fuel =
     [Mkdir (output_dir cfg); error (ErrUnexpected MkdirError); finished]) /\
  (jobs cfg <> [] -> effective_key w cfg <> "" -> mkdir_ok w = true ->
   total_images cfg <= 0 ->
   events w cfg fuel = [Mkdir (output_dir cfg); error ErrZeroTotal; finished]).
Proof.
  unfold events, execute, run, catch, run_body, run_jobs, mkdir, effective_key.
  repeat split.
  - intros ->. reflexivity.
  - intros Hjobs Hkey. destruct (jobs cfg) as [| j js]; [congruence |].
    destruct (String.eqb (access_key cfg) "") eqn:Hk.
    + rewrite Hkey. reflexivity.
    + apply String.eqb_neq in Hk. congruence.
  - intros Hjobs Hkey Hmk. destruct (jobs cfg) as [| j js]; [congruence |].
    destruct (String.eqb (access_key cfg) "") eqn:Hk.
    + apply String.eqb_neq in Hkey. rewrite Hkey. sym. rewrite Hmk. reflexivity.
    + sym. rewrite Hmk. reflexivity.
  - intros Hjobs Hkey Hmk Htotal.
    apply Z.leb_le in Htotal. unfold total_images in Htotal.
    destruct (jobs cfg) as [| j js] eqn:Hj; [congruence |].
    destruct (String.eqb (access_key cfg) "") eqn:Hk.
    + apply String.eqb_neq in Hkey. rewrite Hkey. sym. rewrite Hmk. sym.
      unfold total_images. rewrite Hj, Htotal. reflexivity.
    + sym. rewrite Hmk. sym. unfold total_images. rewrite Hj, Htotal.
      reflexivity.
Qed.

Lemma run_checks_configuration_first_witness :
  events Sample.calm (Sample.config []) 0 = [error ErrNoJobs; finished] /\
  events Sample.calm
    (Sample.config [ {| keyword := "cats"; count := 0 |} ]) 0 =
    [Mkdir "out"; error ErrZeroTotal; finished].
Proof.
  pose proof (run_checks_configuration_first Sample.calm (Sample.config []) 0)
    as (H1 & _).
  pose proof (run_checks_configuration_first Sample.calm
                (Sample.config [ {| keyword := "cats"; count := 0 |} ]) 0)
    as (_ & _ & _ & H4).
  split.
  - apply H1. reflexivity.
  - apply H4; [discriminate | discriminate | reflexivity | cbn; lia].
Defined.

(** ** The [error] signal *)

Ltac error_side :=
  unfold no_error_halt, error_is_final, no_error;
  cbn [trace record advance with_resp with_request_count with_total_downloaded
       with_job_downloaded existsb is_error orb];
  intros;
  try solve [ assumption
            | left; assumption
            | right; eexists _, _; split; [reflexivity | assumption] ].

Section Errors.
Variable w : World.
Variable cfg : Config.
Variable fuel : nat.

Section Job.
Variables (key : string) (job_index : Z) (slot : nat) (kw : string)
          (target_count : Z).

Lemma process_photo_errors photo :
  preserves no_error no_error_halt (process_photo w cfg key slot kw photo).
Proof. unfold process_photo, resolve. preserves_go error_side. Qed.

Lemma photos_loop_errors photos :
  preserves no_error no_error_halt
    (photos_loop w cfg key slot kw target_count photos).
Proof.
  pose proof process_photo_errors.
  induction photos; cbn [photos_loop]; preserves_go error_side.
Qed.

Lemma rate_wait_errors n : preserves no_error no_error_halt (rate_wait w n).
Proof. induction n; cbn [rate_wait]; preserves_go error_side. Qed.

Lemma interval_wait_errors n :
  preserves no_error no_error_halt (interval_wait w n).
Proof. induction n; cbn [interval_wait]; preserves_go error_side. Qed.

Lemma fetch_page_errors retries pg :
  preserves no_error no_error_halt
    (fetch_page w cfg job_index kw target_count retries pg).
Proof.
  pose proof rate_wait_errors.
  induction retries; cbn [fetch_page]; preserves_go error_side.
Qed.

Lemma pages_loop_errors pages :
  preserves no_error no_error_halt
    (pages_loop w cfg fuel key job_index slot kw target_count pages).
Proof.
  pose proof fetch_page_errors.
  pose proof photos_loop_errors.
  pose proof interval_wait_errors.
  induction pages; cbn [pages_loop]; unfold handle_page;
    preserves_go error_side.
Qed.

End Job.

Lemma jobs_loop_errors key js : forall slot,
  preserves no_error no_error_halt (jobs_loop w cfg fuel key slot js).
Proof.
  pose proof pages_loop_errors.
  induction js; intros slot; cbn [jobs_loop]; preserves_go error_side.
Qed.

Lemma run_jobs_errors :
  preserves no_error no_error_halt (run_jobs w cfg fuel).
Proof.
  pose proof jobs_loop_errors.
  unfold run_jobs. preserves_go error_side.
Qed.

(** A run that falls through its last statement has signalled no error;
    any other run has signalled at most one, right before [finished]. *)
Lemma run_errors :
  match execute w cfg fuel with
  | Val _ s => no_error s \/
               exists e older,
                 trace s = finished :: error (ErrUnexpected e) :: older /\
                 existsb is_error older = false
  | Stop _ s => error_is_final (trace s)
  end.
Proof.
  unfold execute, run, catch, run_body, bind at 1.
  assert (H0 : no_error (initial (length (jobs cfg)))) by reflexivity.
  pose proof (run_jobs_errors _ H0) as Hb.
  destruct (run_jobs w cfg fuel (initial (length (jobs cfg))))
    as [[] s' | [ | e | ] s']; cbn [emit bind final];
    revert Hb; error_side.
Qed.

End Errors.

Lemma error_is_final_events tr m :
  error_is_final tr -> In (error m) tr ->
  exists older, tr = finished :: error m :: older /\
                existsb is_error older = false.
Proof.
  intros [Hno | (m' & older & -> & Hno)] Hin.
  - assert (Hex : existsb is_error tr = true).
    { apply existsb_exists. exists (error m). split; [exact Hin | reflexivity]. }
    congruence.
  - destruct Hin as [Hin | [Hin | Hin]]; [discriminate Hin | |].
    + injection Hin as ->. exists older. split; [reflexivity | exact Hno].
    + assert (Hex : existsb is_error older = true).
      { apply existsb_exists. exists (error m). split; [exact Hin | reflexivity]. }
      congruence.
Qed.

Lemma existsb_rev {A} (f : A -> bool) l : existsb f (rev l) = existsb f l.
Proof.
  induction l as [| a l IH]; [reflexivity |]. cbn [rev existsb].
  rewrite existsb_app, IH. cbn. rewrite orb_false_r. apply orb_comm.
Qed.

(** X2.  Whatever goes wrong, the [error] signal is sent at most once in a
    run, and it is sent last but one: [finished] follows it at once and
    nothing follows [finished]. *)
Theorem error_is_followed_by_finished (w : World) (cfg : Config) (fuel : nat)
    (m : ErrMsg) :
  In (error m) (events w cfg fuel) ->
  exists before,
    events w cfg fuel = before ++ [error m; finished] /\
    existsb is_error before = false.
Proof.
  intros Hin. unfold events in *. apply in_rev in Hin.
  assert (Hfin : error_is_final (trace (final (execute w cfg fuel)))).
  { pose proof (run_errors w cfg fuel) as H.
    destruct (execute w cfg fuel) as [a s | h s]; cbn [final] in *; [| exact H].
    destruct H as [H | (e & older & Htr & Hno)]; [left; exact H |].
    right. eauto. }
  destruct (error_is_final_events _ m Hfin Hin) as (older & -> & Hno).
  exists (rev older). cbn [rev]. rewrite <- app_assoc. split; [reflexivity |].
  rewrite existsb_rev. exact Hno.
Qed.

Lemma error_is_followed_by_finished_witness :
  exists before,
    events Sample.broken Sample.one_job 0 =
      before ++ [error (ErrHttp 500 "Internal Server Error"); finished] /\
    existsb is_error before = false.
Proof.
  apply (error_is_followed_by_finished Sample.broken Sample.one_job 0).
  vm_compute. repeat first [left; reflexivity | right].
Defined.

(** ** The access key of tracking calls *)

Ltac key_side :=
  unfold keyed, keyed_halt;
  cbn [trace record advance with_resp with_request_count with_total_downloaded
       with_job_downloaded];
  intros;
  try solve [ repeat (constructor; [first [exact Logic.I | reflexivity] |]);
              assumption ].

Lemma preserves_bind_ret (I : State -> Prop) (X : Halt -> State -> Prop)
    {A B} (a : A) (f : A -> M B) :
  preserves I X (f a) -> preserves I X (bind (ret a) f).
Proof. intros H s Hs. exact (H s Hs). Qed.

Lemma preserves_bind_abort (I : State -> Prop) (X : Halt -> State -> Prop)
    {A B} (e : ErrMsg) (f : A -> M B) :
  preserves I X (@abort A e) -> preserves I X (bind (abort e) f).
Proof. intros H s Hs. exact (H s Hs). Qed.

Section Keyed.
Variable w : World.
Variable cfg : Config.
Variable fuel : nat.
Variable key : string.

Section Job.
Variables (job_index : Z) (slot : nat) (kw : string) (target_count : Z).

Lemma process_photo_keyed photo :
  preserves (keyed key) (keyed_halt key) (process_photo w cfg key slot kw photo).
Proof. unfold process_photo, resolve. preserves_go key_side. Qed.

Lemma photos_loop_keyed photos :
  preserves (keyed key) (keyed_halt key)
    (photos_loop w cfg key slot kw target_count photos).
Proof.
  pose proof process_photo_keyed.
  induction photos; cbn [photos_loop]; preserves_go key_side.
Qed.

Lemma rate_wait_keyed n :
  preserves (keyed key) (keyed_halt key) (rate_wait w n).
Proof. induction n; cbn [rate_wait]; preserves_go key_side. Qed.

Lemma interval_wait_keyed n :
  preserves (keyed key) (keyed_halt key) (interval_wait w n).
Proof. induction n; cbn [interval_wait]; preserves_go key_side. Qed.

Lemma fetch_page_keyed retries pg :
  preserves (keyed key) (keyed_halt key)
    (fetch_page w cfg job_index kw target_count retries pg).
Proof.
  pose proof rate_wait_keyed.
  induction retries; cbn [fetch_page]; preserves_go key_side.
Qed.

Lemma pages_loop_keyed pages :
  preserves (keyed key) (keyed_halt key)
    (pages_loop w cfg fuel key job_index slot kw target_count pages).
Proof.
  pose proof fetch_page_keyed.
  pose proof photos_loop_keyed.
  pose proof interval_wait_keyed.
  induction pages; cbn [pages_loop]; unfold handle_page;
    preserves_go key_side.
Qed.

End Job.

Lemma jobs_loop_keyed js : forall slot,
  preserves (keyed key) (keyed_halt key) (jobs_loop w cfg fuel key slot js).
Proof.
  pose proof pages_loop_keyed.
  induction js; intros slot; cbn [jobs_loop]; preserves_go key_side.
Qed.

End Keyed.

Lemma run_jobs_keyed w cfg fuel :
  preserves (keyed (effective_key w cfg)) (keyed_halt (effective_key w cfg))
    (run_jobs w cfg fuel).
Proof.
  pose proof (jobs_loop_keyed w cfg fuel).
  unfold run_jobs, effective_key.
  destruct (jobs cfg) as [| j js]; [preserves_go key_side |].
  destruct (String.eqb (access_key cfg) "");
    [destruct (String.eqb (env_key w) "") |]; cbv beta iota;
    first [ apply preserves_bind_abort | apply preserves_bind_ret; cbv beta ];
    preserves_go key_side.
Qed.

Lemma run_keyed w cfg fuel :
  Forall (carries (effective_key w cfg)) (trace (final (execute w cfg fuel))).
Proof.
  unfold execute, run, catch, run_body, bind at 1.
  assert (H0 : keyed (effective_key w cfg) (initial (length (jobs cfg))))
    by constructor.
  pose proof (run_jobs_keyed w cfg fuel _ H0) as Hb.
  destruct (run_jobs w cfg fuel (initial (length (jobs cfg))))
    as [[] s' | [ | e | ] s']; cbn [emit bind final];
    revert Hb; key_side.
Qed.

(** Without a key the run ends before any request. *)
Lemma run_without_key w cfg fuel :
  effective_key w cfg = "" ->
  events w cfg fuel = [error ErrNoJobs; finished] \/
  events w cfg fuel = [error ErrNoKey; finished].
Proof.
  unfold events, execute, run, catch, run_body, run_jobs, effective_key.
  intros Hkey. destruct (jobs cfg) as [| j js]; [left; reflexivity | right].
  destruct (String.eqb (access_key cfg) "") eqn:Hk.
  - rewrite Hkey. reflexivity.
  - apply String.eqb_neq in Hk. congruence.
Qed.

(** X3.  Every tracking call of a run carries the access key in use as its
    [client_id]: the configured key or, when none is configured, the key of
    the environment; that key is never empty. *)
Theorem tracking_calls_carry_the_key (w : World) (cfg : Config) (fuel : nat)
    (url client_id : string) (reply : TrackReply) :
  In (NetTrack url client_id reply) (events w cfg fuel) ->
  client_id = effective_key w cfg /\ client_id <> "".
Proof.
  intros Hin.
  assert (Hc : client_id = effective_key w cfg).
  { pose proof (run_keyed w cfg fuel) as Hall.
    rewrite List.Forall_forall in Hall.
    apply (Hall (NetTrack url client_id reply)).
    apply in_rev. exact Hin. }
  split; [exact Hc |]. intros Hempty.
  destruct (run_without_key w cfg fuel) as [Hev | Hev];
    [congruence | |]; rewrite Hev in Hin;
    destruct Hin as [Hin | [Hin | []]]; discriminate Hin.
Qed.

Lemma tracking_calls_carry_the_key_witness :
  In (NetTrack "https://api/track" "key"
        (TrackResponse 200 (Some (Some "https://img/tracked"))))
     (events Sample.calm Sample.one_job 0) /\
  "key" = effective_key Sample.calm Sample.one_job.
Proof.
  assert (Hin : In (NetTrack "https://api/track" "key"
                      (TrackResponse 200 (Some (Some "https://img/tracked"))))
                   (events Sample.calm Sample.one_job 0)).
  { vm_compute. repeat first [left; reflexivity | right]. }
  split; [exact Hin |].
  apply (tracking_calls_carry_the_key Sample.calm Sample.one_job 0 _ _ _ Hin).
Defined.

(** ** Files written *)

Lemma occurrences_cons kind (e : Event) tr :
  occurrences kind (e :: tr) =
  ((if kind e then 1 else 0) + occurrences kind tr)%nat.
Proof. unfold occurrences. cbn [List.filter]. destruct (kind e); reflexivity. Qed.

Ltac counted_side :=
  unfold counted_halt, counted;
  cbn [trace record advance with_resp with_request_count with_total_downloaded
       with_job_downloaded total_downloaded];
  intros; rewrite ?occurrences_cons; cbn [is_file_saved];
  try solve [ assumption | lia ].

Section Counted.
Variable w : World.
Variable cfg : Config.
Variable fuel : nat.

Section Job.
Variables (key : string) (job_index : Z) (slot : nat) (kw : string)
          (target_count : Z).

Lemma process_photo_counted photo :
  preserves counted counted_halt (process_photo w cfg key slot kw photo).
Proof.
  intros s Hs.
  destruct (process_photo_result w cfg key slot kw photo s)
    as (url & s1 & s2 & Hres & Hrun & Htr2 & Hcount).
  destruct (resolve_result w key photo s) as (s1' & Hres' & Htr1 & _).
  rewrite Hres in Hres'. injection Hres' as _ <-.
  rewrite Hrun. unfold counted in *.
  assert (H1 : occurrences is_file_saved (trace s1)
               = occurrences is_file_saved (trace s)).
  { rewrite Htr1, occurrences_app.
    destruct (Py.truthy (download_location photo)); [| reflexivity].
    rewrite occurrences_app.
    destruct (track_log_shape (default "unknown" (id photo))
                (track_reply w (tick s))) as [[-> _] | (m & -> & _)];
      reflexivity. }
  rewrite Htr2, occurrences_app, H1. unfold download_log.
  destruct (item_failure (default "unknown" (id photo)) url
              (image_reply w (tick s1))) as [m |] eqn:Hf.
  - destruct Hcount as [-> _].
    destruct (Py.truthy url); cbn [occurrences List.filter is_file_saved length];
      lia.
  - destruct Hcount as [-> _].
    destruct (Py.truthy url) eqn:Hu.
    + cbn [occurrences List.filter is_file_saved length]. lia.
    + unfold item_failure in Hf. rewrite Hu in Hf. discriminate Hf.
Qed.

Lemma photos_loop_counted photos :
  preserves counted counted_halt
    (photos_loop w cfg key slot kw target_count photos).
Proof.
  pose proof process_photo_counted.
  induction photos; cbn [photos_loop]; preserves_go counted_side.
Qed.

Lemma rate_wait_counted n : preserves counted counted_halt (rate_wait w n).
Proof. induction n; cbn [rate_wait]; preserves_go counted_side. Qed.

Lemma interval_wait_counted n :
  preserves counted counted_halt (interval_wait w n).
Proof. induction n; cbn [interval_wait]; preserves_go counted_side. Qed.

Lemma fetch_page_counted retries pg :
  preserves counted counted_halt
    (fetch_page w cfg job_index kw target_count retries pg).
Proof.
  pose proof rate_wait_counted.
  induction retries; cbn [fetch_page]; preserves_go counted_side.
Qed.

Lemma pages_loop_counted pages :
  preserves counted counted_halt
    (pages_loop w cfg fuel key job_index slot kw target_count pages).
Proof.
  pose proof fetch_page_counted.
  pose proof photos_loop_counted.
  pose proof interval_wait_counted.
  induction pages; cbn [pages_loop]; unfold handle_page;
    preserves_go counted_side.
Qed.

End Job.

Lemma jobs_loop_counted key js : forall slot,
  preserves counted counted_halt (jobs_loop w cfg fuel key slot js).
Proof.
  pose proof pages_loop_counted.
  induction js; intros slot; cbn [jobs_loop]; preserves_go counted_side.
Qed.

Lemma run_jobs_counted :
  preserves counted counted_halt (run_jobs w cfg fuel).
Proof.
  pose proof jobs_loop_counted.
  unfold run_jobs. preserves_go counted_side.
Qed.

Lemma run_counted : counted (final (execute w cfg fuel)).
Proof.
  unfold execute, run, catch, run_body, bind at 1.
  assert (H0 : counted (initial (length (jobs cfg)))) by reflexivity.
  pose proof (run_jobs_counted _ H0) as Hb.
  destruct (run_jobs w cfg fuel (initial (length (jobs cfg))))
    as [[] s' | [ | e | ] s']; cbn [emit bind final];
    revert Hb; counted_side.
Qed.

End Counted.

Lemma occurrences_rev kind (l : list Event) :
  occurrences kind (rev l) = occurrences kind l.
Proof.
  induction l as [| e l IH]; [reflexivity |]. cbn [rev].
  rewrite occurrences_app, IH, !occurrences_cons.
  change (occurrences kind []) with 0%nat. lia.
Qed.


(** ** Runs that return *)



Lemma sleep_follows_clear_flag_witness :
  exists before',
    firstn 27 (events Sample.calm Sample.big_job 0) = before' ++ [PollStop false].
Proof.
  apply (sleep_follows_clear_flag Sample.calm Sample.big_job 0
           (firstn 27 (events Sample.calm Sample.big_job 0))
           (skipn 28 (events Sample.calm Sample.big_job 0))).
  vm_compute. reflexivity.
Defined.

Lemma stop_ends_activity_witness :
  terminated (execute Sample.stop_in_flight Sample.one_job 0) = true /\
  Forall (fun e => is_calm e = true)
    (skipn 13 (events Sample.stop_in_flight Sample.one_job 0)).
Proof.
  apply (stop_ends_activity Sample.stop_in_flight Sample.one_job 0
           (firstn 12 (events Sample.stop_in_flight Sample.one_job 0))
           (skipn 13 (events Sample.stop_in_flight Sample.one_job 0))).
  vm_compute. reflexivity.
Defined.

(** ** Runs against a server that answers every request *)

Lemma bind_val {A B} (m : M A) (f : A -> M B) s a s' :
  m s = Val a s' -> bind m f s = f a s'.
Proof. intros H. unfold bind. rewrite H. reflexivity. Qed.

Lemma truthy_or_r a b : Py.truthy b = true -> Py.truthy (Py.or_ a b) = true.
Proof. unfold Py.or_. destruct (Py.truthy a) eqn:Ha; auto. Qed.

Lemma pages_cover_target t : 0 < t -> t <= 30 * pages_needed t.
Proof.
  intros Ht. rewrite pages_needed_div by exact Ht.
  pose proof (Z.div_mod (t + 29) 30 ltac:(lia)).
  pose proof (Z.mod_pos_bound (t + 29) 30 ltac:(lia)). lia.
Qed.

Section Complete.
Variable w : World.
Variable cfg : Config.
Variable fuel : nat.
Hypothesis stocked : well_stocked w.

Lemma never_stopped t : stop_flag w t = false.
Proof. unfold stop_flag. destruct stocked as (-> & _). reflexivity. Qed.

Section Job.
Variables (key : string) (job_index : Z) (slot : nat) (kw : string)
          (target_count : Z).

Lemma process_photo_complete photo s :
  has_fallback photo ->
  exists s',
    process_photo w cfg key slot kw photo s = Val tt s' /\
    job_downloaded s' =
      <[slot := default 0 (job_downloaded s !! slot) + 1]> (job_downloaded s).
Proof.
  intros Hfb.
  destruct (process_photo_result w cfg key slot kw photo s)
    as (url & s1 & s2 & Hres & Hrun & _ & Hcount).
  destruct (resolve_result w key photo s) as (s1' & Hres' & _).
  rewrite Hres in Hres'. injection Hres' as Hurl _.
  assert (Htruthy : Py.truthy url = true).
  { rewrite Hurl. apply truthy_or_r, Hfb. }
  destruct stocked as (_ & _ & _ & Himg).
  unfold item_failure in Hcount. rewrite Htruthy, Himg in Hcount.
  cbn in Hcount. exists s2. split; [exact Hrun | apply Hcount].
Qed.

Lemma photos_loop_complete photos : forall s,
  Forall has_fallback photos ->
  (slot < length (job_downloaded s))%nat ->
  exists s',
    photos_loop w cfg key slot kw target_count photos s = Val tt s' /\
    job_downloaded s' =
      <[slot := Z.max (default 0 (job_downloaded s !! slot))
                  (Z.min target_count
                     (default 0 (job_downloaded s !! slot)
                      + Z.of_nat (length photos)))]> (job_downloaded s).
Proof.
  induction photos as [| photo rest IH]; intros s Hall Hslot.
  - exists s. split; [reflexivity |].
    destruct (lookup_lt_is_Some_2 _ _ Hslot) as [d Hd].
    rewrite Hd. change (default 0 (Some d)) with d. cbn [length].
    symmetry. apply list_insert_id. rewrite Hd. f_equal. lia.
  - apply List.Forall_cons_iff in Hall. destruct Hall as [Hfb Hall].
    destruct (lookup_lt_is_Some_2 _ _ Hslot) as [d Hd].
    cbn [photos_loop]. sym. rewrite never_stopped. sym. rewrite Hd.
    change (default 0 (Some d)) with d.
    destruct (Z.leb_spec target_count d) as [Hle | Hlt].
    + eexists. split; [reflexivity |]. sym. symmetry. apply list_insert_id.
      rewrite Hd. f_equal. lia.
    + destruct (process_photo_complete photo
                  (advance (record (PollStop false) s)) Hfb)
        as (s2 & Hrun & Hjd).
      sym. rewrite Hd in Hjd. change (default 0 (Some d)) with d in Hjd.
      rewrite (bind_val _ _ _ _ _ Hrun).
      destruct (IH s2 Hall) as (s3 & Hloop & Hjd3).
      { rewrite Hjd, length_insert. exact Hslot. }
      exists s3. split; [exact Hloop |].
      rewrite Hjd3, Hjd, list_lookup_insert_eq by exact Hslot.
      change (default 0 (Some (d + 1))) with (d + 1).
      rewrite list_insert_insert_eq. f_equal.
      cbn [length]. lia.
Qed.

Lemma fetch_page_complete retries pg s :
  exists s' r photos,
    fetch_page w cfg job_index kw target_count retries pg s = Val tt s' /\
    resp s' = Some r /\ results r = Some photos /\
    per_page <= Z.of_nat (length photos) /\ Forall has_fallback photos /\
    job_downloaded s' = job_downloaded s.
Proof.
  destruct stocked as (_ & _ & Hsearch & _).
  destruct (Hsearch (S (tick s))) as (r & photos & Hreply & Hstatus & Hres & Hlen & Hall).
  exists (with_request_count (request_count s + 1)
            (with_resp r
               (advance
                  (record (NetSearch job_index (search_params cfg kw pg)
                             (SearchResponse r))
                     (record (progress (MsgSearching job_index (njobs cfg) pg
                                          (pages_needed target_count)
                                          (request_count s + 1)))
                        (advance (record (PollStop false) s))))))),
    r, photos.
  split; [| repeat split; assumption].
  destruct retries; cbn [fetch_page]; sym; rewrite never_stopped; sym;
    rewrite Hreply; sym; rewrite Hstatus; reflexivity.
Qed.

Lemma interval_wait_complete n : forall s,
  exists s',
    interval_wait w n s = Val tt s' /\ job_downloaded s' = job_downloaded s.
Proof.
  induction n as [| n IH]; intros s.
  - exists s. split; reflexivity.
  - cbn [interval_wait]. sym. rewrite never_stopped. sym.
    destruct (IH (advance (record Sleep1 (advance (record (PollStop false) s)))))
      as (s' & Hrun & Hjd).
    exists s'. split; [exact Hrun | exact Hjd].
Qed.

Lemma pages_loop_complete n : forall lo s,
  0 < target_count -> 1 <= lo ->
  lo + Z.of_nat n = pages_needed target_count + 1 ->
  (slot < length (job_downloaded s))%nat ->
  Z.min target_count (30 * (lo - 1)) <= default 0 (job_downloaded s !! slot)
    <= target_count ->
  exists s',
    pages_loop w cfg fuel key job_index slot kw target_count
      (Py.range lo (pages_needed target_count + 1)) s = Val tt s' /\
    job_downloaded s' = <[slot := target_count]> (job_downloaded s).
Proof.
  induction n as [| n IH]; intros lo s Htarget Hlo Hhi Hslot Hjd;
    destruct (lookup_lt_is_Some_2 _ _ Hslot) as [d Hd];
    rewrite Hd in Hjd; change (default 0 (Some d)) with d in Hjd.
  - rewrite range_nil by lia. exists s. split; [reflexivity |].
    symmetry. apply list_insert_id. rewrite Hd. f_equal.
    pose proof (pages_cover_target target_count Htarget). lia.
  - rewrite range_cons by lia. cbn [pages_loop]. sym. rewrite never_stopped.
    destruct (fetch_page_complete fuel lo (advance (record (PollStop false) s)))
      as (s1 & r & photos & Hfetch & Hresp & Hres & Hlen & Hall & Hjd1).
    rewrite (bind_val _ _ _ _ _ Hfetch). sym. rewrite never_stopped.
    unfold handle_page. sym. rewrite Hresp, Hres.
    destruct photos as [| photo rest]; [cbn in Hlen; unfold per_page in Hlen; lia |].
    destruct (photos_loop_complete (photo :: rest)
                (advance (record (PollStop false) s1)) Hall)
      as (s2 & Hphotos & Hjd2).
    { sym. rewrite Hjd1. sym. exact Hslot. }
    rewrite (bind_val _ _ _ _ _ Hphotos). sym.
    revert Hjd2. sym. rewrite Hjd1. sym. rewrite Hd.
    change (default 0 (Some d)) with d.
    set (d2 := Z.max d (Z.min target_count
                          (d + Z.of_nat (length (photo :: rest))))).
    intros Hjd2.
    assert (Hd2 : Z.min target_count (30 * lo) <= d2 <= target_count).
    { unfold per_page in Hlen. subst d2. lia. }
    rewrite Hjd2, list_lookup_insert_eq by exact Hslot.
    change (default 0 (Some d2)) with d2.
    destruct (Z.leb_spec target_count d2) as [Hdone | Hmore].
    + eexists. split; [reflexivity |]. sym. rewrite Hjd2. f_equal. lia.
    + assert (Hnext : forall s3,
                job_downloaded s3 = job_downloaded s2 ->
                exists s',
                  pages_loop w cfg fuel key job_index slot kw target_count
                    (Py.range (lo + 1) (pages_needed target_count + 1)) s3
                    = Val tt s' /\
                  job_downloaded s' = <[slot := target_count]> (job_downloaded s)).
      { intros s3 Hjd3.
        destruct (IH (lo + 1) s3 Htarget ltac:(lia) ltac:(lia)) as (s' & Hrun & Hjd').
        - rewrite Hjd3, Hjd2, length_insert. exact Hslot.
        - rewrite Hjd3, Hjd2, list_lookup_insert_eq by exact Hslot.
          change (default 0 (Some d2)) with d2.
          replace (lo + 1 - 1) with lo by lia. exact Hd2.
        - exists s'. split; [exact Hrun |].
          rewrite Hjd', Hjd3, Hjd2. apply list_insert_insert_eq. }
      destruct (Qle_bool 1 (interval_sec (limit_per_hour cfg))
                && (lo <? pages_needed target_count))%bool.
      * destruct (interval_wait_complete
                    (Z.to_nat (Py.int_of_float (interval_sec (limit_per_hour cfg))))
                    (record (page_value lo) s2)) as (s3 & Hwait & Hjd3).
        rewrite (bind_val _ _ _ _ _ Hwait). sym. rewrite never_stopped.
        apply Hnext. sym. exact Hjd3.
      * apply Hnext. reflexivity.
Qed.

End Job.

Lemma jobs_loop_complete key js : forall slot s,
  drop slot (job_downloaded s) = replicate (length js) 0 ->
  exists s',
    jobs_loop w cfg fuel key slot js s = Val tt s' /\
    job_downloaded s' = take slot (job_downloaded s) ++ map goal js.
Proof.
  induction js as [| job rest IH]; intros slot s Hdrop.
  - exists s. split; [reflexivity |]. cbn [map]. rewrite app_nil_r.
    symmetry. apply take_ge.
    pose proof (length_drop (job_downloaded s) slot) as Hlen.
    rewrite Hdrop in Hlen. cbn in Hlen. lia.
  - assert (Hcell : job_downloaded s !! slot = Some 0).
    { pose proof (lookup_drop (job_downloaded s) slot 0) as Hl.
      rewrite Hdrop, Nat.add_0_r in Hl. cbn in Hl. congruence. }
    assert (Hslot : (slot < length (job_downloaded s))%nat).
    { apply lookup_lt_is_Some. eauto. }
    assert (Hrest : drop (S slot) (job_downloaded s)
                    = replicate (length rest) 0).
    { replace (S slot) with (slot + 1)%nat by lia.
      rewrite <- drop_drop, Hdrop. reflexivity. }
    cbn [jobs_loop]. sym. rewrite never_stopped.
    destruct (Z.leb_spec (count job) 0) as [Hskip | Hpos].
    + destruct (IH (S slot) (advance (record (PollStop false) s))) as (s' & Hrun & Hjd).
      { sym. exact Hrest. }
      exists s'. split; [exact Hrun |]. rewrite Hjd. sym.
      rewrite (take_S_r _ _ _ Hcell), <- app_assoc. cbn [map app].
      unfold goal at 2. replace (Z.max 0 (count job)) with 0 by lia.
      reflexivity.
    + sym. rewrite (list_insert_id _ _ _ Hcell).
      pose proof (pages_needed_pos (count job) Hpos) as Hpn.
      destruct (Z.leb_spec (pages_needed (count job)) 0) as [? | _]; [lia |].
      sym.
      match goal with
      | |- context [bind (pages_loop _ _ _ _ _ _ _ _ _) _ ?s1] =>
          destruct (pages_loop_complete key (Z.of_nat slot + 1) slot
                      (keyword job) (count job)
                      (Z.to_nat (pages_needed (count job))) 1 s1
                      Hpos ltac:(lia) ltac:(lia)) as (s2 & Hpages & Hjd2)
      end.
      { sym. exact Hslot. }
      { sym. rewrite Hcell. change (default 0 (Some 0)) with 0. lia. }
      rewrite (bind_val _ _ _ _ _ Hpages). sym. rewrite never_stopped.
      revert Hjd2. sym. intros Hjd2.
      destruct (IH (S slot) (advance (record (PollStop false) s2))) as (s' & Hrun & Hjd).
      { sym. rewrite Hjd2, drop_insert_lt by lia. exact Hrest. }
      exists s'. split; [exact Hrun |]. rewrite Hjd. sym. rewrite Hjd2.
      assert (Hcell2 : <[slot := count job]> (job_downloaded s) !! slot
                       = Some (count job))
        by (apply list_lookup_insert_eq, Hslot).
      rewrite (take_S_r _ _ _ Hcell2), take_insert_ge by lia.
      rewrite <- app_assoc. cbn [map app].
      unfold goal at 2. replace (Z.max 0 (count job)) with (count job) by lia.
      reflexivity.
Qed.

Lemma run_jobs_complete :
  effective_key w cfg <> "" -> 0 < total_images cfg ->
  exists s,
    run_jobs w cfg fuel (initial (length (jobs cfg))) = Val tt s /\
    job_downloaded s = map goal (jobs cfg) /\
    exists older, trace s = progress MsgAllDone :: older.
Proof.
  intros Hkey Htotal.
  assert (Hloop : forall key s,
            job_downloaded s = replicate (length (jobs cfg)) 0 ->
            exists s',
              jobs_loop w cfg fuel key 0 (jobs cfg) s = Val tt s' /\
              job_downloaded s' = map goal (jobs cfg)).
  { intros key s Hjd.
    destruct (jobs_loop_complete key (jobs cfg) 0 s) as (s' & Hrun & Hjd').
    - rewrite Hjd. reflexivity.
    - exists s'. split; [exact Hrun | exact Hjd']. }
  destruct stocked as (_ & Hmk & _).
  unfold run_jobs, mkdir, effective_key in *.
  unfold total_images in Htotal.
  destruct (jobs cfg) as [| j js] eqn:Hjobs; [cbn in Htotal; lia |].
  rewrite <- Hjobs in *.
  assert (Htot : (total_images cfg <=? 0) = false).
  { apply Z.leb_gt. exact Htotal. }
  destruct (String.eqb (access_key cfg) "") eqn:Hk.
  - apply String.eqb_neq in Hkey. rewrite Hkey. sym. rewrite Hmk. sym.
    rewrite Htot. sym.
    match goal with
    | |- context [bind (jobs_loop _ _ _ ?key _ _) _ ?s1] =>
        destruct (Hloop key s1 eq_refl) as (s2 & Hrun & Hjd)
    end.
    rewrite (bind_val _ _ _ _ _ Hrun). sym. rewrite never_stopped.
    eexists. split; [reflexivity |]. split; [exact Hjd | eexists; reflexivity].
  - sym. rewrite Hmk. sym. rewrite Htot. sym.
    match goal with
    | |- context [bind (jobs_loop _ _ _ ?key _ _) _ ?s1] =>
        destruct (Hloop key s1 eq_refl) as (s2 & Hrun & Hjd)
    end.
    rewrite (bind_val _ _ _ _ _ Hrun). sym. rewrite never_stopped.
    eexists. split; [reflexivity |]. split; [exact Hjd | eexists; reflexivity].
Qed.

End Complete.

(** X8.  Against a server that answers every search with at least a full
    page of downloadable items and serves every image, a run that is not
    stopped completes every job: it falls through to its last statement,
    each job has downloaded exactly its target (nothing for a target of
    zero or less), the run-wide counter is the sum of the targets, no error
    is signalled and the last message before [finished] is the one of line
    352. *)
Theorem every_job_is_completed (w : World) (cfg : Config) (fuel : nat) :
  well_stocked w -> effective_key w cfg <> "" -> 0 < total_images cfg ->
  exists s before,
    execute w cfg fuel = Val tt s /\
    job_downloaded s = map goal (jobs cfg) /\
    total_downloaded s = Py.sum (map goal (jobs cfg)) /\
    events w cfg fuel = before ++ [progress MsgAllDone; finished] /\
    existsb is_error (events w cfg fuel) = false.
Proof.
  intros Hw Hkey Htotal.
  destruct (run_jobs_complete w cfg fuel Hw Hkey Htotal)
    as (s1 & Hrun & Hjd & older & Htr).
  assert (Hexec : execute w cfg fuel = Val tt (record finished s1)).
  { unfold execute, run, catch, run_body.
    rewrite (bind_val _ _ _ _ _ Hrun). reflexivity. }
  exists (record finished s1), (rev older).
  split; [exact Hexec |]. split; [exact Hjd |].
  pose proof (run_counters w cfg fuel) as [(_ & Hsum & _) _].
  pose proof (run_errors w cfg fuel) as Herr.
  unfold events. rewrite Hexec in *. cbn [final] in *.
  split; [| split].
  - cbn [totals totalDownloaded perJobDownloaded record job_downloaded
         total_downloaded] in Hsum |- *.
    rewrite Hsum, Hjd. reflexivity.
  - cbn [trace record]. rewrite Htr. cbn [rev]. rewrite <- app_assoc.
    reflexivity.
  - rewrite existsb_rev.
    destruct Herr as [Hno | (e & older' & Heq & _)]; [exact Hno |].
    cbn [trace record] in Heq. rewrite Htr in Heq. discriminate Heq.
Qed.

Lemma every_job_is_completed_witness :
  exists s before,
    execute full_page_server Sample.big_job 0 = Val tt s /\
    job_downloaded s = map goal (jobs Sample.big_job) /\
    total_downloaded s = Py.sum (map goal (jobs Sample.big_job)) /\
    events full_page_server Sample.big_job 0
      = before ++ [progress MsgAllDone; finished] /\
    existsb is_error (events full_page_server Sample.big_job 0) = false.
Proof.
  apply (every_job_is_completed full_page_server Sample.big_job 0).
  - split; [reflexivity |]. split; [reflexivity |]. split.
    + intros t. eexists _, _. split; [reflexivity |]. split; [reflexivity |].
      split; [reflexivity |]. split; [cbn; unfold per_page; lia |].
      repeat constructor.
    + intros t. reflexivity.
  - discriminate.
  - cbn. lia.
Defined.

(** * The constructor and the window *)

(** ** [str.strip] *)

Lemma lstrip_idem l : Py.lstrip (Py.lstrip l) = Py.lstrip l.
Proof.
  induction l as [| c r IH]; [reflexivity |]. cbn [Py.lstrip].
  destruct (Py.is_space c) eqn:Hc; [exact IH |].
  cbn [Py.lstrip]. rewrite Hc. reflexivity.
Qed.

Lemma lstrip_length l : (length (Py.lstrip l) <= length l)%nat.
Proof.
  induction l as [| c r IH]; [reflexivity |]. cbn [Py.lstrip].
  destruct (Py.is_space c); cbn [length]; lia.
Qed.

Lemma lstrip_snoc l c :
  Py.is_space c = false -> Py.lstrip (l ++ [c]) = Py.lstrip l ++ [c].
Proof.
  intros Hc. induction l as [| a r IH]; cbn [app Py.lstrip].
  - rewrite Hc. reflexivity.
  - destruct (Py.is_space a); [exact IH | reflexivity].
Qed.

Lemma lstrip_fixed_head c r :
  Py.lstrip (c :: r) = c :: r -> Py.is_space c = false.
Proof.
  cbn [Py.lstrip]. destruct (Py.is_space c); [| reflexivity].
  intros H. apply (f_equal (@length ascii)) in H.
  pose proof (lstrip_length r). cbn [length] in H. lia.
Qed.

Lemma lstrip_blank l : forallb Py.is_space l = true -> Py.lstrip l = [].
Proof.
  induction l as [| c r IH]; [reflexivity |]. cbn [forallb Py.lstrip].
  intros H. apply andb_true_iff in H. destruct H as [-> H]. exact (IH H).
Qed.

Lemma strip_trimmed l : trimmed (Py.strip l).
Proof.
  unfold trimmed, Py.strip. split.
  - pose proof (lstrip_idem l) as Ha.
    destruct (Py.lstrip l) as [| c r]; [reflexivity |].
    apply lstrip_fixed_head in Ha. cbn [rev].
    rewrite (lstrip_snoc _ _ Ha), rev_app_distr. cbn [rev app Py.lstrip].
    rewrite Ha. reflexivity.
  - rewrite rev_involutive. apply lstrip_idem.
Qed.

Lemma trimmed_strip l : trimmed l -> Py.strip l = l.
Proof.
  intros [H1 H2]. unfold Py.strip. rewrite H1, H2. apply rev_involutive.
Qed.

Lemma str_strip_idem s : str_strip (str_strip s) = str_strip s.
Proof.
  unfold str_strip. rewrite list_ascii_of_string_of_list_ascii.
  rewrite trimmed_strip by apply strip_trimmed. reflexivity.
Qed.

Lemma str_strip_blank s : blank s -> str_strip s = "".
Proof.
  intros H. unfold str_strip, Py.strip. rewrite (lstrip_blank _ H). reflexivity.
Qed.

Lemma strip_or_nonempty s d : d <> "" -> strip_or s d <> "".
Proof.
  intros Hd. unfold strip_or.
  destruct (String.eqb (str_strip s) "") eqn:He; [exact Hd |].
  apply String.eqb_neq, He.
Qed.

Lemma strip_or_idem s d : str_strip d = d -> d <> "" ->
  strip_or (strip_or s d) d = strip_or s d.
Proof.
  intros Hd Hne. unfold strip_or.
  destruct (String.eqb (str_strip s) "") eqn:He.
  - rewrite Hd. apply String.eqb_neq in Hne. rewrite Hne. reflexivity.
  - rewrite str_strip_idem, He. reflexivity.
Qed.

(** X9.  The constructor trims the text it is given: the key, the
    orientation and the colour are stored without surrounding white space,
    and an ordering or content filter that is empty or blank is replaced by
    its default, so both are never empty.  A blank key counts as no key
    (the key of the environment is used), a blank orientation or colour is
    left out of every search request, and constructing a worker from the
    fields of a worker changes nothing. *)
Theorem constructor_trims_text (key : string) (js : list Job) (out : string)
    (limit : Z) (orient col ord filt : string) (retry : bool) :
  let cfg := init key js out limit orient col ord filt retry in
  order_by cfg <> "" /\ content_filter cfg <> "" /\
  trimmed (list_ascii_of_string (access_key cfg)) /\
  trimmed (list_ascii_of_string (orientation cfg)) /\
  trimmed (list_ascii_of_string (color cfg)) /\
  (blank ord -> order_by cfg = "relevant") /\
  (blank filt -> content_filter cfg = "low") /\
  (forall w, blank key -> effective_key w cfg = env_key w) /\
  (forall kw pg, blank orient -> orientation_ (search_params cfg kw pg) = None) /\
  (forall kw pg, blank col -> color_ (search_params cfg kw pg) = None) /\
  init (access_key cfg) js out limit (orientation cfg) (color cfg)
    (order_by cfg) (content_filter cfg) retry = cfg.
Proof.
  intros cfg. subst cfg. cbn [init access_key orientation color order_by
                               content_filter].
  assert (Htrim : forall s, trimmed (list_ascii_of_string (str_strip s))).
  { intros s. unfold str_strip. rewrite list_ascii_of_string_of_list_ascii.
    apply strip_trimmed. }
  repeat split; try apply Htrim.
  - apply strip_or_nonempty. discriminate.
  - apply strip_or_nonempty. discriminate.
  - intros H. unfold strip_or. rewrite (str_strip_blank _ H). reflexivity.
  - intros H. unfold strip_or. rewrite (str_strip_blank _ H). reflexivity.
  - intros w H. unfold effective_key. cbn [access_key init].
    rewrite (str_strip_blank _ H). reflexivity.
  - intros kw pg H. unfold search_params. cbn [orientation_ orientation init].
    rewrite (str_strip_blank _ H). reflexivity.
  - intros kw pg H. unfold search_params. cbn [color_ color init].
    rewrite (str_strip_blank _ H). reflexivity.
  - unfold init. rewrite !str_strip_idem.
    rewrite !strip_or_idem by (reflexivity || discriminate). reflexivity.
Qed.

Lemma constructor_trims_text_witness :
  effective_key Sample.calm
    (init "  " [] "out" 50 " " "" "" " latest " true) = env_key Sample.calm /\
  order_by (init "  " [] "out" 50 " " "" "" " latest " true) <> "".
Proof.
  pose proof (constructor_trims_text "  " [] "out" 50 " " "" "" " latest " true)
    as (Hord & _ & _ & _ & _ & _ & _ & Hkey & _).
  split; [apply Hkey; reflexivity | exact Hord].
Defined.

(** ** The keyword table *)

Lemma existsb_eqb_In i l : existsb (Nat.eqb i) l = true <-> In i l.
Proof.
  rewrite existsb_exists. split.
  - intros (x & Hx & He). apply Nat.eqb_eq in He. subst x. exact Hx.
  - intros H. exists i. split; [exact H | apply Nat.eqb_refl].
Qed.

Lemma unselected_ext sel1 sel2 table : forall i,
  (forall x, In x sel1 <-> In x sel2) ->
  unselected sel1 i table = unselected sel2 i table.
Proof.
  induction table as [| row rest IH]; intros i H; [reflexivity |].
  cbn [unselected]. rewrite (IH (S i) H).
  assert (He : existsb (Nat.eqb i) sel1 = existsb (Nat.eqb i) sel2).
  { apply eq_true_iff_eq. rewrite !existsb_eqb_In. apply H. }
  rewrite He. reflexivity.
Qed.

Lemma unselected_below sel table : forall i,
  Forall (fun y => (y < i)%nat) sel -> unselected sel i table = table.
Proof.
  induction table as [| row rest IH]; intros i H; [reflexivity |].
  cbn [unselected].
  destruct (existsb (Nat.eqb i) sel) eqn:He.
  - apply existsb_eqb_In in He. rewrite List.Forall_forall in H.
    specialize (H i He). lia.
  - f_equal. apply IH. eapply List.Forall_impl; [| exact H].
    cbn. intros y Hy. lia.
Qed.

Lemma unselected_delete sel table : forall i r,
  Forall (fun y => (y < i + r)%nat) sel ->
  unselected sel i (delete r table) = unselected ((i + r)%nat :: sel) i table.
Proof.
  induction table as [| row rest IH]; intros i r Hsel; [reflexivity |].
  destruct r as [| r].
  - change (delete 0%nat (row :: rest)) with rest. cbn [unselected existsb].
    rewrite Nat.add_0_r in *. rewrite Nat.eqb_refl. cbn [orb].
    rewrite (unselected_below sel rest i Hsel).
    symmetry. apply unselected_below.
    constructor; [lia |].
    eapply List.Forall_impl; [| exact Hsel]. cbn. intros y Hy. lia.
  - change (delete (S r) (row :: rest)) with (row :: delete r rest).
    cbn [unselected existsb].
    assert (Hne : (i =? i + S r)%nat = false) by (apply Nat.eqb_neq; lia).
    rewrite Hne. cbn [orb].
    rewrite (IH (S i) r) by (replace (S i + r)%nat with (i + S r)%nat by lia;
                             exact Hsel).
    replace (S i + r)%nat with (i + S r)%nat by lia.
    reflexivity.
Qed.

Lemma remove_descending l : forall table,
  descending l ->
  fold_left (fun t r => removeRow r t) l table = unselected l 0 table.
Proof.
  induction l as [| r rest IH]; intros table Hl.
  - cbn [fold_left]. symmetry. apply unselected_below. constructor.
  - destruct Hl as [Hlt Hrest]. cbn [fold_left]. unfold removeRow at 2.
    rewrite (IH _ Hrest). apply (unselected_delete rest table 0 r). exact Hlt.
Qed.

Lemma insert_desc_In r l x : In x (insert_desc r l) <-> x = r \/ In x l.
Proof.
  induction l as [| y rest IH]; cbn [insert_desc].
  - cbn. intuition.
  - destruct (Nat.ltb_spec y r); [cbn; intuition |].
    destruct (Nat.eqb_spec y r) as [-> | Hne]; [cbn; intuition |].
    cbn [In]. rewrite IH. intuition.
Qed.

Lemma insert_desc_descending r l : descending l -> descending (insert_desc r l).
Proof.
  induction l as [| y rest IH]; intros Hl; cbn [insert_desc].
  - split; [constructor | exact Logic.I].
  - destruct Hl as [Hlt Hrest].
    destruct (Nat.ltb_spec y r) as [Hyr | Hry].
    + split; [| split; assumption]. constructor; [exact Hyr |].
      eapply List.Forall_impl; [| exact Hlt]. cbn. intros z Hz. lia.
    + destruct (Nat.eqb_spec y r) as [-> | Hne]; [split; assumption |].
      split; [| exact (IH Hrest)].
      apply List.Forall_forall. intros z Hz. apply insert_desc_In in Hz.
      rewrite List.Forall_forall in Hlt.
      destruct Hz as [-> | Hz]; [lia | exact (Hlt z Hz)].
Qed.

Lemma sorted_desc_descending l : descending (sorted_desc l).
Proof.
  induction l as [| r rest IH]; [exact Logic.I |].
  apply insert_desc_descending, IH.
Qed.

Lemma sorted_desc_In l x : In x (sorted_desc l) <-> In x l.
Proof.
  induction l as [| r rest IH]; [reflexivity |].
  cbn [sorted_desc fold_right In]. rewrite insert_desc_In.
  fold (sorted_desc rest). rewrite IH. intuition.
Qed.

(** X10.  Removing the selected rows removes exactly the rows that are
    selected, whatever the order and the number of the selected cells, and
    leaves the other rows in their order: taking the rows out from the last
    to the first keeps the numbers of the rows still to go valid.  A table
    left empty gets one fresh row, so the table is never empty
    afterwards. *)
Theorem remove_selected_rows_removes_selection (selected : list nat)
    (table : list Row) :
  remove_selected_rows selected table =
    match unselected selected 0 table with
    | [] => [(Some "", Some "50")]
    | rows => rows
    end /\
  remove_selected_rows selected table <> [].
Proof.
  assert (H : remove_selected_rows selected table =
              match unselected selected 0 table with
              | [] => [(Some "", Some "50")]
              | rows => rows
              end).
  { unfold remove_selected_rows.
    rewrite (remove_descending _ _ (sorted_desc_descending selected)).
    rewrite (unselected_ext _ selected table 0 (sorted_desc_In selected)).
    destruct (unselected selected 0 table); reflexivity. }
  split; [exact H |]. rewrite H.
  destruct (unselected selected 0 table); discriminate.
Qed.

(** ** [start_download] *)

Lemma collect_jobs_good rows : forall row jobs,
  Forall (fun r => row_bad r = false) rows ->
  collect_jobs rows row jobs = Jobs (jobs ++ table_jobs rows).
Proof.
  induction rows as [| [kw cnt] rest IH]; intros row jobs Hall.
  - cbn. rewrite app_nil_r. reflexivity.
  - apply List.Forall_cons_iff in Hall. destruct Hall as [Hr Hall].
    unfold row_bad, row_empty in Hr. cbn [fst snd] in Hr.
    cbn [collect_jobs table_jobs]. unfold row_job, row_empty. cbn [fst snd].
    destruct (String.eqb (item_text kw) "") eqn:Hkw; [apply IH, Hall |].
    cbn [negb andb] in Hr. apply negb_false_iff in Hr. rewrite Hr. cbn [negb].
    rewrite (int_isdigit _ Hr).
    destruct (Py.int_of_digits (item_text cnt) <=? 0); [apply IH, Hall |].
    rewrite (IH _ _ Hall), <- app_assoc. reflexivity.
Qed.

Lemma collect_jobs_bad good r rest : forall row jobs,
  Forall (fun r => row_bad r = false) good -> row_bad r = true ->
  collect_jobs (good ++ r :: rest) row jobs =
    BadCount (row + Z.of_nat (length good) + 1) (item_text (snd r)).
Proof.
  induction good as [| [kw cnt] good IH]; intros row jobs Hall Hbad.
  - destruct r as [kw cnt]. unfold row_bad, row_empty in Hbad.
    cbn [fst snd] in Hbad. apply andb_true_iff in Hbad.
    destruct Hbad as [Hkw Hcnt]. apply negb_true_iff in Hkw.
    cbn [app collect_jobs snd length]. rewrite Hkw, Hcnt.
    f_equal. lia.
  - apply List.Forall_cons_iff in Hall. destruct Hall as [Hr Hall].
    unfold row_bad, row_empty in Hr. cbn [fst snd] in Hr.
    cbn [app collect_jobs length].
    assert (Hnext : forall jobs',
              collect_jobs (good ++ r :: rest) (row + 1) jobs' =
              BadCount (row + Z.of_nat (S (length good)) + 1) (item_text (snd r))).
    { intros jobs'. rewrite (IH _ _ Hall Hbad). f_equal. lia. }
    destruct (String.eqb (item_text kw) "") eqn:Hkw; [apply Hnext |].
    cbn [negb andb] in Hr. apply negb_false_iff in Hr. rewrite Hr. cbn [negb].
    rewrite (int_isdigit _ Hr).
    destruct (Py.int_of_digits (item_text cnt) <=? 0); apply Hnext.
Qed.

Lemma first_bad_row rows :
  Forall (fun r => row_bad r = false) rows \/
  exists good r rest,
    rows = good ++ r :: rest /\
    Forall (fun r => row_bad r = false) good /\ row_bad r = true.
Proof.
  induction rows as [| r rows IH]; [left; constructor |].
  destruct (row_bad r) eqn:Hr.
  - right. exists [], r, rows. split; [reflexivity |]. split; [constructor | exact Hr].
  - destruct IH as [IH | (good & r' & rest & -> & Hgood & Hbad)].
    + left. constructor; assumption.
    + right. exists (r :: good), r', rest.
      split; [reflexivity |]. split; [constructor; assumption | exact Hbad].
Qed.

Lemma table_jobs_valid rows :
  Forall (fun j => keyword j <> "" /\
                   trimmed (list_ascii_of_string (keyword j)) /\
                   0 < count j) (table_jobs rows).
Proof.
  induction rows as [| [kw cnt] rest IH]; [constructor |].
  cbn [table_jobs]. unfold row_job, row_empty. cbn [fst snd].
  destruct (String.eqb (item_text kw) "") eqn:Hkw; [exact IH |].
  destruct (Z.leb_spec (Py.int_of_digits (item_text cnt)) 0); [exact IH |].
  constructor; [| exact IH]. cbn [keyword count].
  split; [apply String.eqb_neq, Hkw |]. split; [| lia].
  destruct kw as [t |]; [| discriminate Hkw]. cbn [item_text].
  unfold str_strip. rewrite list_ascii_of_string_of_list_ascii.
  apply strip_trimmed.
Qed.

Lemma sum_positive js :
  js <> [] -> Forall (fun j => 0 < count j) js -> 0 < Py.sum (map count js).
Proof.
  intros Hne Hall. induction Hall as [| j js Hj Hall IH]; [congruence |].
  cbn [map Py.sum fold_right]. fold (Py.sum (map count js)).
  destruct js as [| j' js']; [cbn; lia |].
  specialize (IH ltac:(discriminate)). lia.
Qed.

(** With an output directory, [start_download] either finds no bad row and
    goes by the jobs of the table, or stops with the warning of a row. *)
Lemma start_download_outcome_cases (f : Form) :
  str_strip (output_edit f) <> "" ->
  (Forall (fun r => row_bad r = false) (keyword_table f) /\
   start_download f =
     match table_jobs (keyword_table f) with
     | [] => WarnNoRows
     | jobs =>
         Started
           (init (api_key_edit f) jobs (str_strip (output_edit f))
              (limit_spin f) (orientation_combo f) (color_combo f)
              (order_by_combo f) (content_filter_combo f)
              (auto_retry_checkbox f))
           (Py.sum (map count jobs))
     end) \/
  (exists row count_str, start_download f = WarnBadCount row count_str).
Proof.
  intros Hout. apply String.eqb_neq in Hout. unfold start_download.
  rewrite Hout.
  destruct (first_bad_row (keyword_table f))
    as [Hall | (good & r & rest & Heq & Hall & Hr)].
  - left. split; [exact Hall |].
    rewrite (collect_jobs_good _ 0 [] Hall). cbn [app].
    destruct (table_jobs (keyword_table f)); reflexivity.
  - right. rewrite Heq, (collect_jobs_bad good r rest 0 [] Hall Hr).
    eexists _, _. reflexivity.
Qed.



(** What [start_download] starts a worker with. *)
Lemma started_with (f : Form) (cfg : Config) (bar_max : Z) :
  start_download f = Started cfg bar_max ->
  output_dir cfg <> "" /\
  jobs cfg = table_jobs (keyword_table f) /\
  jobs cfg <> [] /\
  bar_max = total_images cfg.
Proof.
  intros Hstart.
  destruct (String.eqb (str_strip (output_edit f)) "") eqn:Hout.
  { unfold start_download in Hstart. rewrite Hout in Hstart. discriminate. }
  apply String.eqb_neq in Hout.
  destruct (start_download_outcome_cases f Hout) as [(Hall & Heq) | (row & c & Heq)];
    rewrite Heq in Hstart; [| discriminate].
  destruct (table_jobs (keyword_table f)) as [| j js] eqn:Hjobs; [discriminate |].
  injection Hstart as <- <-.
  split; [exact Hout |]. split; [reflexivity |]. split; [discriminate |].
  reflexivity.
Qed.

(** X12.  A worker is started only with an output directory and with a job
    list that is not empty, holds the jobs of the table in its order, each
    with a keyword that is neither empty nor surrounded by white space and
    with a count above zero; the maximum the image progress bar is set to is
    the total of the counts, which is above zero. *)
Theorem started_worker_has_valid_jobs (f : Form) (cfg : Config) (bar_max : Z) :
  start_download f = Started cfg bar_max ->
  output_dir cfg <> "" /\
  jobs cfg = table_jobs (keyword_table f) /\
  jobs cfg <> [] /\
  Forall (fun j => keyword j <> "" /\
                   trimmed (list_ascii_of_string (keyword j)) /\
                   0 < count j) (jobs cfg) /\
  bar_max = total_images cfg /\
  0 < bar_max.
Proof.
  intros Hstart.
  destruct (started_with f cfg bar_max Hstart) as (Hout & Hjobs & Hne & Hmax).
  pose proof (table_jobs_valid (keyword_table f)) as Hvalid.
  rewrite <- Hjobs in Hvalid.
  split; [exact Hout |]. split; [exact Hjobs |]. split; [exact Hne |].
  split; [exact Hvalid |]. split; [exact Hmax |].
  rewrite Hmax. apply sum_positive; [exact Hne |].
  eapply List.Forall_impl; [| exact Hvalid]. cbn. intros a (_ & _ & H). exact H.
Qed.

Lemma started_worker_has_valid_jobs_witness :
  jobs (init " key " [ {| keyword := "cats"; count := 65 |} ] "out" 50
          "" "" "relevant" "low" true)
    = table_jobs (keyword_table sample_form) /\
  0 < 65.
Proof.
  destruct (started_worker_has_valid_jobs sample_form
              (init " key " [ {| keyword := "cats"; count := 65 |} ] "out" 50
                 "" "" "relevant" "low" true) 65 ltac:(reflexivity))
    as (_ & Hjobs & _ & _ & _ & Hpos).
  split; [exact Hjobs | exact Hpos].
Defined.

(** ** A worker started by the window *)

Ltac job_list_side :=
  unfold no_job_list_error, no_job_list_error_halt;
  cbn [trace record advance with_resp with_request_count with_total_downloaded
       with_job_downloaded existsb is_job_list_error orb];
  intros; try solve [ assumption ].

Section JobList.
Variable w : World.
Variable cfg : Config.
Variable fuel : nat.

Section Job.
Variables (key : string) (job_index : Z) (slot : nat) (kw : string)
          (target_count : Z).

Lemma process_photo_job_list photo :
  preserves no_job_list_error no_job_list_error_halt
    (process_photo w cfg key slot kw photo).
Proof. unfold process_photo, resolve. preserves_go job_list_side. Qed.

Lemma photos_loop_job_list photos :
  preserves no_job_list_error no_job_list_error_halt
    (photos_loop w cfg key slot kw target_count photos).
Proof.
  pose proof process_photo_job_list.
  induction photos; cbn [photos_loop]; preserves_go job_list_side.
Qed.

Lemma rate_wait_job_list n :
  preserves no_job_list_error no_job_list_error_halt (rate_wait w n).
Proof. induction n; cbn [rate_wait]; preserves_go job_list_side. Qed.

Lemma interval_wait_job_list n :
  preserves no_job_list_error no_job_list_error_halt (interval_wait w n).
Proof. induction n; cbn [interval_wait]; preserves_go job_list_side. Qed.

Lemma fetch_page_job_list retries pg :
  preserves no_job_list_error no_job_list_error_halt
    (fetch_page w cfg job_index kw target_count retries pg).
Proof.
  pose proof rate_wait_job_list.
  induction retries; cbn [fetch_page]; preserves_go job_list_side.
Qed.

Lemma pages_loop_job_list pages :
  preserves no_job_list_error no_job_list_error_halt
    (pages_loop w cfg fuel key job_index slot kw target_count pages).
Proof.
  pose proof fetch_page_job_list.
  pose proof photos_loop_job_list.
  pose proof interval_wait_job_list.
  induction pages; cbn [pages_loop]; unfold handle_page;
    preserves_go job_list_side.
Qed.

End Job.

Lemma jobs_loop_job_list key js : forall slot,
  preserves no_job_list_error no_job_list_error_halt
    (jobs_loop w cfg fuel key slot js).
Proof.
  pose proof pages_loop_job_list.
  induction js; intros slot; cbn [jobs_loop]; preserves_go job_list_side.
Qed.

Lemma run_jobs_job_list :
  jobs cfg <> [] -> 0 < total_images cfg ->
  preserves no_job_list_error no_job_list_error_halt (run_jobs w cfg fuel).
Proof.
  intros Hne Htotal. pose proof jobs_loop_job_list.
  apply Z.leb_gt in Htotal.
  unfold run_jobs. rewrite Htotal.
  destruct (jobs cfg) as [| j js]; [congruence |].
  preserves_go job_list_side.
Qed.

Lemma run_job_list :
  jobs cfg <> [] -> 0 < total_images cfg ->
  existsb is_job_list_error (events w cfg fuel) = false.
Proof.
  intros Hne Htotal. unfold events. rewrite existsb_rev.
  unfold execute, run, catch, run_body, bind at 1.
  assert (H0 : no_job_list_error (initial (length (jobs cfg)))) by reflexivity.
  pose proof (run_jobs_job_list Hne Htotal _ H0) as Hb.
  destruct (run_jobs w cfg fuel (initial (length (jobs cfg))))
    as [[] s' | [ | e | ] s']; cbn [emit bind final];
    revert Hb; job_list_side.
Qed.

End JobList.

(** X13.  The run of a worker started by the window gets past the checks
    of its job list: it never reports an empty job list or a total of zero,
    whatever the server does.  What it downloads stays within the maximum
    the image progress bar was set to when it was started. *)
Theorem started_worker_passes_job_checks (f : Form) (cfg : Config)
    (bar_max : Z) (w : World) (fuel : nat) :
  start_download f = Started cfg bar_max ->
  existsb is_job_list_error (events w cfg fuel) = false /\
  0 <= total_downloaded (final (execute w cfg fuel)) <= bar_max.
Proof.
  intros Hstart.
  destruct (started_with f cfg bar_max Hstart) as (_ & Hjobs & Hne & Hmax).
  pose proof (table_jobs_valid (keyword_table f)) as Hvalid.
  rewrite <- Hjobs in Hvalid.
  assert (Hpos : Forall (fun j => 0 < count j) (jobs cfg)).
  { eapply List.Forall_impl; [| exact Hvalid]. cbn. intros a (_ & _ & H). exact H. }
  split.
  - apply run_job_list; [exact Hne |]. apply sum_positive; assumption.
  - destruct (run_counters w cfg fuel) as [Hok _].
    assert (Hw : within_targets (jobs cfg) (totals (final (execute w cfg fuel)))).
    { apply ok_within_targets; [| exact Hok].
      eapply List.Forall_impl; [| exact Hpos]. cbn. intros a H. lia. }
    destruct Hw as (_ & _ & Hsum & Hle).
    destruct Hok as (Hlen & _ & Hcells).
    cbn [totals totalDownloaded perJobDownloaded] in *.
    split; [| rewrite Hmax; exact Hle].
    rewrite Hsum.
    assert (Hnn : forall l : list Z, Forall (fun d => 0 <= d) l -> 0 <= Py.sum l).
    { intros l Hl. induction Hl as [| d l Hd Hl IH]; [cbn; lia |].
      cbn [Py.sum fold_right]. fold (Py.sum l). lia. }
    apply Hnn. apply List.Forall_forall. intros d Hd.
    apply list_elem_of_In in Hd. apply list_elem_of_lookup_1 in Hd.
    destruct Hd as (k & Hk).
    assert (Hj : is_Some (jobs cfg !! k)).
    { apply lookup_lt_is_Some. rewrite <- Hlen. apply lookup_lt_is_Some. eauto. }
    destruct Hj as (j & Hj). specialize (Hcells k d j Hk Hj). lia.
Qed.

Lemma started_worker_passes_job_checks_witness :
  existsb is_job_list_error
    (events Sample.calm
       (init " key " [ {| keyword := "cats"; count := 65 |} ] "out" 50
          "" "" "relevant" "low" true) 0) = false.
Proof.
  apply (started_worker_passes_job_checks sample_form _ 65 Sample.calm 0).
  reflexivity.
Defined.

(** ** The image progress signal *)

(** Walks through a program as [triple_go] does; a call of a loop may
    change the assertion at hand. *)
Ltac triple_walk side :=
  repeat lazymatch goal with
  | |- triple _ _ _ (bind _ _) =>
      first [ apply triple_bind; [ solve [preserves_go side] | intros ? ]
            | eapply triple_call; [ solve [eauto] | solve [side] | intros ? ] ]
  | |- triple _ _ _ (if ?b then _ else _) => destruct b eqn:?
  | |- triple _ _ _ (match ?x with _ => _ end) => destruct x eqn:?
  | |- triple _ _ _ (mkdir _ _) => unfold mkdir
  | |- triple _ _ _ exit_run => apply triple_exit_run; side
  | |- triple _ _ _ (abort _) => apply triple_abort; side
  | |- triple _ _ _ (raise _) => apply triple_raise; side
  | |- triple _ _ _ out_of_fuel => apply triple_out_of_fuel; side
  | |- triple _ _ _ _ =>
      first [ solve [eauto]
            | eapply triple_pre; [ solve [eauto] | solve [side] ]
            | eapply triple_post; [ solve [eauto] | solve [side] ]
            | apply triple_weaken;
                [ solve [preserves_go side] | solve [side] ] ]
  end.

Lemma progress_values_app l1 l2 :
  progress_values (l1 ++ l2) = progress_values l1 ++ progress_values l2.
Proof.
  induction l1 as [| e l1 IH]; [reflexivity |].
  destruct e; cbn [app progress_values]; rewrite ?IH; reflexivity.
Qed.

Lemma progress_values_rev l :
  progress_values (rev l) = rev (progress_values l).
Proof.
  induction l as [| e l IH]; [reflexivity |]. cbn [rev].
  rewrite progress_values_app, IH.
  destruct e; cbn [progress_values rev]; rewrite ?app_nil_r; reflexivity.
Qed.

Lemma range_snoc n : 0 <= n -> Py.range 0 (n + 1) = Py.range 0 n ++ [n].
Proof.
  intros Hn. unfold Py.range.
  replace (Z.to_nat (n + 1 - 0)) with (S (Z.to_nat (n - 0))) by lia.
  rewrite seq_S, map_app. cbn [map Nat.add]. f_equal. f_equal. lia.
Qed.

Ltac counting_side :=
  unfold counting_halt, counting, uncounted;
  cbn [trace record advance with_resp with_request_count with_total_downloaded
       with_job_downloaded total_downloaded progress_values];
  intros; try solve [ assumption | tauto ].

Section Counting.
Variable w : World.
Variable cfg : Config.
Variable fuel : nat.

Section Job.
Variables (key : string) (job_index : Z) (slot : nat) (kw : string)
          (target_count : Z).

Lemma process_photo_counting photo :
  preserves counting counting_halt (process_photo w cfg key slot kw photo).
Proof.
  intros s [Hnn Hval].
  destruct (process_photo_result w cfg key slot kw photo s)
    as (url & s1 & s2 & Hres & Hrun & Htr2 & Hcount).
  destruct (resolve_result w key photo s) as (s1' & Hres' & Htr1 & _).
  rewrite Hres in Hres'. injection Hres' as _ <-.
  rewrite Hrun. unfold counting.
  assert (H1 : progress_values (trace s1) = progress_values (trace s)).
  { rewrite Htr1, progress_values_app.
    destruct (Py.truthy (download_location photo)); [| reflexivity].
    rewrite progress_values_app.
    destruct (track_log_shape (default "unknown" (id photo))
                (track_reply w (tick s))) as [[-> _] | (m & -> & _)];
      reflexivity. }
  rewrite Htr2, progress_values_app, H1, Hval. unfold download_log.
  destruct (item_failure (default "unknown" (id photo)) url
              (image_reply w (tick s1))) as [m |] eqn:Hf.
  - destruct Hcount as [-> _]. split; [exact Hnn |].
    destruct (Py.truthy url); reflexivity.
  - destruct Hcount as [-> _]. split; [lia |].
    destruct (Py.truthy url) eqn:Hu.
    + cbn [progress_values app].
      rewrite (range_snoc (total_downloaded s + 1)) by lia.
      rewrite rev_app_distr. reflexivity.
    + unfold item_failure in Hf. rewrite Hu in Hf. discriminate Hf.
Qed.

Lemma photos_loop_counting photos :
  preserves counting counting_halt
    (photos_loop w cfg key slot kw target_count photos).
Proof.
  pose proof process_photo_counting.
  induction photos; cbn [photos_loop]; preserves_go counting_side.
Qed.

Lemma rate_wait_counting n : preserves counting counting_halt (rate_wait w n).
Proof. induction n; cbn [rate_wait]; preserves_go counting_side. Qed.

Lemma interval_wait_counting n :
  preserves counting counting_halt (interval_wait w n).
Proof. induction n; cbn [interval_wait]; preserves_go counting_side. Qed.

Lemma fetch_page_counting retries pg :
  preserves counting counting_halt
    (fetch_page w cfg job_index kw target_count retries pg).
Proof.
  pose proof rate_wait_counting.
  induction retries; cbn [fetch_page]; preserves_go counting_side.
Qed.

Lemma pages_loop_counting pages :
  preserves counting counting_halt
    (pages_loop w cfg fuel key job_index slot kw target_count pages).
Proof.
  pose proof fetch_page_counting.
  pose proof photos_loop_counting.
  pose proof interval_wait_counting.
  induction pages; cbn [pages_loop]; unfold handle_page;
    preserves_go counting_side.
Qed.

End Job.

Lemma jobs_loop_counting key js : forall slot,
  preserves counting counting_halt (jobs_loop w cfg fuel key slot js).
Proof.
  pose proof pages_loop_counting.
  induction js; intros slot; cbn [jobs_loop]; preserves_go counting_side.
Qed.

Lemma run_jobs_counting :
  triple uncounted counting counting_halt (run_jobs w cfg fuel).
Proof.
  pose proof jobs_loop_counting as Hloop.
  unfold run_jobs.
  destruct (jobs cfg) as [| j js]; [triple_walk counting_side |].
  apply triple_bind; [solve [preserves_go counting_side] | intros key].
  unfold mkdir.
  apply triple_bind; [solve [preserves_go counting_side] | intros _].
  destruct (total_images cfg <=? 0); [triple_walk counting_side |].
  apply triple_bind; [solve [preserves_go counting_side] | intros _].
  apply (triple_call uncounted uncounted counting counting);
    [ | intros s Hs; exact Hs | intros _ ].
  - intros s [Hnone Hzero]. unfold emit, counting. cbn [trace record
      total_downloaded progress_values]. rewrite Hnone, Hzero.
    split; [lia | reflexivity].
  - apply triple_preserves. preserves_go counting_side.
Qed.

Lemma run_counting :
  counting_halt HReturn (final (execute w cfg fuel)).
Proof.
  unfold execute, run, catch, run_body, bind at 1.
  assert (H0 : uncounted (initial (length (jobs cfg)))) by (split; reflexivity).
  pose proof (run_jobs_counting _ H0) as Hb.
  destruct (run_jobs w cfg fuel (initial (length (jobs cfg))))
    as [[] s' | [ | e | ] s']; cbn [emit bind final];
    revert Hb; counting_side.
Qed.

End Counting.

(** X14.  The values sent on [progress_value] during a run are 0, 1, 2, ...
    in this order, one step at a time, up to the number of images
    downloaded when the run ends; a run that ends before its first request
    for lack of jobs, of a key or of images to fetch sends none. *)
Theorem image_progress_counts_up (w : World) (cfg : Config) (fuel : nat) :
  (progress_values (events w cfg fuel) = [] /\
   total_downloaded (final (execute w cfg fuel)) = 0) \/
  progress_values (events w cfg fuel) =
    Py.range 0 (total_downloaded (final (execute w cfg fuel)) + 1).
Proof.
  unfold events. rewrite progress_values_rev.
  destruct (run_counting w cfg fuel) as [[Hnone Hzero] | [_ Hval]].
  - left. rewrite Hnone. split; [reflexivity | exact Hzero].
  - right. rewrite Hval. apply rev_involutive.
Qed.

(** ** The wait between pages, by the configured limit *)

Lemma safe_limit_mono l l' : l <= l' -> safe_limit l <= safe_limit l'.
Proof.
  intros H. rewrite !safe_limit_floor.
  assert (l * 9 / 10 <= l' * 9 / 10) by (apply Z.div_le_mono; lia). lia.
Qed.

(** X15.  The number of one-second sleeps between two pages falls as the
    configured limit grows: an hour for a limit of 2 or less, never more
    than an hour, one second for limits from 2002 to 4001, and none at all
    from 4002 on, where the interval is below one second. *)
Theorem interval_wait_by_limit (l l' : Z) :
  (l <= l' -> (interval_sleeps l' <= interval_sleeps l)%nat) /\
  (interval_sleeps l <= 3600)%nat /\
  (l <= 2 -> interval_sleeps l = 3600%nat) /\
  (2002 <= l <= 4001 -> interval_sleeps l = 1%nat) /\
  (4002 <= l -> interval_sleeps l = 0%nat).
Proof.
  pose proof (safe_limit_pos l) as Hpos.
  pose proof (safe_limit_floor l) as Hfloor.
  assert (Hle : 3600 / safe_limit l <= 3600).
  { apply Z.div_le_upper_bound; lia. }
  assert (Hnn : 0 <= 3600 / safe_limit l) by (apply Z.div_pos; lia).
  repeat split.
  - intros Hll. rewrite !interval_sleeps_seconds.
    pose proof (safe_limit_mono l l' Hll) as Hmono.
    pose proof (safe_limit_pos l') as Hpos'.
    destruct (Z.leb_spec (safe_limit l') 3600); [| lia].
    destruct (Z.leb_spec (safe_limit l) 3600); [| lia].
    assert (3600 / safe_limit l' <= 3600 / safe_limit l)
      by (apply Z.div_le_compat_l; lia).
    lia.
  - rewrite interval_sleeps_seconds.
    destruct (Z.leb_spec (safe_limit l) 3600); lia.
  - intros Hl. rewrite interval_sleeps_seconds.
    assert (l * 9 / 10 < 2) by (apply Z.div_lt_upper_bound; lia).
    replace (safe_limit l) with 1 by lia. reflexivity.
  - intros Hl. rewrite interval_sleeps_seconds.
    assert (1801 <= l * 9 / 10) by (apply Z.div_le_lower_bound; lia).
    assert (l * 9 / 10 < 3601) by (apply Z.div_lt_upper_bound; lia).
    destruct (Z.leb_spec (safe_limit l) 3600); [| lia].
    assert (3600 / safe_limit l = 1).
    { symmetry. apply Z.div_unique with (r := 3600 - safe_limit l); lia. }
    lia.
  - intros Hl. rewrite interval_sleeps_seconds.
    assert (3601 <= l * 9 / 10) by (apply Z.div_le_lower_bound; lia).
    destruct (Z.leb_spec (safe_limit l) 3600); [lia | reflexivity].
Qed.

Lemma interval_wait_by_limit_witness :
  (interval_sleeps 5000 <= interval_sleeps 50)%nat /\
  interval_sleeps 3000 = 1%nat.
Proof.
  pose proof (interval_wait_by_limit 50 5000) as (Hmono & _).
  pose proof (interval_wait_by_limit 3000 3000) as (_ & _ & _ & Hone & _).
  split; [apply Hmono; lia | apply Hone; lia].
Defined.

(** ** Retries without end *)

Lemma bind_stop {A B} (m : M A) (f : A -> M B) s h s' :
  m s = Stop h s' -> bind m f s = Stop h s'.
Proof. intros H. unfold bind. rewrite H. reflexivity. Qed.

Section Limited.
Variable w : World.
Variable cfg : Config.
Variable fuel : nat.
Hypothesis limited : always_limited w cfg.

Lemma not_stopped t : stop_flag w t = false.
Proof. unfold stop_flag. destruct limited as (-> & _). reflexivity. Qed.

Lemma rate_wait_through n : forall s,
  exists s',
    rate_wait w n s = Val tt s' /\
    occurrences is_net_search (trace s') = occurrences is_net_search (trace s).
Proof.
  induction n as [| n IH]; intros s.
  - exists s. split; reflexivity.
  - cbn [rate_wait]. sym. rewrite not_stopped. sym.
    destruct (IH (advance (record Sleep1 (advance (record (PollStop false) s)))))
      as (s' & Hrun & Hocc).
    exists s'. split; [exact Hrun |]. rewrite Hocc. reflexivity.
Qed.

Lemma fetch_page_exhausts job_index kw target_count pg retries : forall s,
  exists s',
    fetch_page w cfg job_index kw target_count retries pg s = Stop HFuel s' /\
    occurrences is_net_search (trace s') =
      (occurrences is_net_search (trace s) + S retries)%nat.
Proof.
  destruct limited as (_ & _ & Hsearch).
  induction retries as [| retries IH]; intros s;
    destruct (Hsearch (S (tick s))) as (r & Hreply & Hstatus & Hwait);
    assert (H200 : (status_code r =? 200) = false)
      by (apply orb_true_iff in Hstatus; apply Z.eqb_neq;
          destruct Hstatus as [H | H]; apply Z.eqb_eq in H; lia);
    cbn [fetch_page]; sym; rewrite not_stopped; sym; rewrite Hreply; sym;
    rewrite H200, Hstatus; sym;
    specialize (Hwait (clock w (S (S (tick s)))));
    destruct (retry_wait (auto_retry cfg) (x_ratelimit_remaining r)
                (x_ratelimit_reset r) (text r) (clock w (S (S (tick s)))))
      as [wt |]; try congruence; sym;
    match goal with
    | |- context [bind (rate_wait w ?n) _ ?s1] =>
        destruct (rate_wait_through n s1) as (s2 & Hrun & Hocc);
        rewrite (bind_val _ _ _ _ _ Hrun)
    end; sym.
  - eexists. split; [reflexivity |]. sym.
    rewrite ?occurrences_cons in *. cbn [is_net_search] in *. lia.
  - destruct (IH (record (progress MsgRetry) s2)) as (s3 & Hrun3 & Hocc3).
    exists s3. split; [exact Hrun3 |]. rewrite Hocc3. sym.
    rewrite ?occurrences_cons in *. cbn [is_net_search] in *. lia.
Qed.

Lemma jobs_loop_exhausts key js : forall slot s,
  0 < Py.sum (map count js) ->
  exists s',
    jobs_loop w cfg fuel key slot js s = Stop HFuel s' /\
    occurrences is_net_search (trace s') =
      (occurrences is_net_search (trace s) + S fuel)%nat.
Proof.
  induction js as [| job rest IH]; intros slot s Hsum; [cbn in Hsum; lia |].
  cbn [map Py.sum fold_right] in Hsum. fold (Py.sum (map count rest)) in Hsum.
  cbn [jobs_loop]. sym. rewrite not_stopped.
  destruct (Z.leb_spec (count job) 0) as [Hskip | Hpos].
  - destruct (IH (S slot) (advance (record (PollStop false) s)) ltac:(lia))
      as (s' & Hrun & Hocc).
    exists s'. split; [exact Hrun |]. rewrite Hocc. sym.
    rewrite ?occurrences_cons in *. cbn [is_net_search] in *. lia.
  - sym. pose proof (pages_needed_pos (count job) Hpos) as Hpn.
    destruct (Z.leb_spec (pages_needed (count job)) 0) as [? | _]; [lia |].
    sym. rewrite range_cons by lia. cbn [pages_loop].
    rewrite bind_assoc. sym. rewrite not_stopped. rewrite bind_assoc.
    match goal with
    | |- context [bind (fetch_page _ _ ?j ?kw ?t ?n ?pg) _ ?s1] =>
        destruct (fetch_page_exhausts j kw t pg n s1) as (s2 & Hrun & Hocc)
    end.
    rewrite (bind_stop _ _ _ _ _ Hrun).
    exists s2. split; [reflexivity |]. rewrite Hocc. sym.
    rewrite ?occurrences_cons in *. cbn [is_net_search] in *. lia.
Qed.

Lemma run_jobs_exhausts :
  effective_key w cfg <> "" -> 0 < total_images cfg ->
  exists s,
    run_jobs w cfg fuel (initial (length (jobs cfg))) = Stop HFuel s /\
    occurrences is_net_search (trace s) = S fuel.
Proof.
  intros Hkey Htotal.
  assert (Hloop : forall key s,
            occurrences is_net_search (trace s) = 0%nat ->
            exists s',
              jobs_loop w cfg fuel key 0 (jobs cfg) s = Stop HFuel s' /\
              occurrences is_net_search (trace s') = S fuel).
  { intros key s Hocc.
    destruct (jobs_loop_exhausts key (jobs cfg) 0 s Htotal) as (s' & Hrun & Hocc').
    exists s'. split; [exact Hrun |]. rewrite Hocc', Hocc. reflexivity. }
  destruct limited as (_ & Hmk & _).
  unfold run_jobs, mkdir, effective_key in *.
  unfold total_images in Htotal.
  destruct (jobs cfg) as [| j js] eqn:Hjobs; [cbn in Htotal; lia |].
  rewrite <- Hjobs in *.
  assert (Htot : (total_images cfg <=? 0) = false).
  { apply Z.leb_gt. exact Htotal. }
  destruct (String.eqb (access_key cfg) "") eqn:Hk.
  - apply String.eqb_neq in Hkey. rewrite Hkey. sym. rewrite Hmk. sym.
    rewrite Htot. sym.
    match goal with
    | |- context [bind (jobs_loop _ _ _ ?key _ _) _ ?s1] =>
        destruct (Hloop key s1 eq_refl) as (s2 & Hrun & Hocc)
    end.
    rewrite (bind_stop _ _ _ _ _ Hrun).
    exists s2. split; [reflexivity | exact Hocc].
  - sym. rewrite Hmk. sym. rewrite Htot. sym.
    match goal with
    | |- context [bind (jobs_loop _ _ _ ?key _ _) _ ?s1] =>
        destruct (Hloop key s1 eq_refl) as (s2 & Hrun & Hocc)
    end.
    rewrite (bind_stop _ _ _ _ _ Hrun).
    exists s2. split; [reflexivity | exact Hocc].
Qed.

End Limited.



(** ** Search requests and the jobs they are made for *)

Lemma job_indices_app l1 l2 :
  job_indices (l1 ++ l2) = job_indices l1 ++ job_indices l2.
Proof.
  induction l1 as [| e l1 IH]; [reflexivity |].
  destruct e; cbn [app job_indices]; rewrite ?IH; reflexivity.
Qed.

Lemma job_indices_rev l : job_indices (rev l) = rev (job_indices l).
Proof.
  induction l as [| e l IH]; [reflexivity |]. cbn [rev].
  rewrite job_indices_app, IH.
  destruct e; cbn [job_indices rev]; rewrite ?app_nil_r; reflexivity.
Qed.

Lemma nonincreasing_app l1 l2 : nonincreasing (l1 ++ l2) -> nonincreasing l2.
Proof.
  induction l1 as [| x l1 IH]; [intros H; exact H |].
  intros [_ H]. exact (IH H).
Qed.

Lemma requests_upto_le cfg b b' s :
  b <= b' -> requests_upto cfg b s -> requests_upto cfg b' s.
Proof.
  intros Hle [Hr Hb]. split; [exact Hr |].
  eapply List.Forall_impl; [| exact Hb]. cbn. intros j Hj. lia.
Qed.

Lemma requests_upto_event cfg b e s :
  is_net_search e = false ->
  requests_upto cfg b s -> requests_upto cfg b (record e s).
Proof.
  intros He [[Hr Ho] Hb]. unfold requests_upto, requests.
  destruct e; try discriminate He; cbn [trace record job_indices];
    (split; [split; [constructor; [exact Logic.I | exact Hr] | exact Ho]
            | exact Hb]).
Qed.

Lemma requests_upto_search cfg slot job pg reply s :
  jobs cfg !! slot = Some job ->
  requests_upto cfg (Z.of_nat slot + 1) s ->
  requests_upto cfg (Z.of_nat slot + 1)
    (record (NetSearch (Z.of_nat slot + 1)
               (search_params cfg (keyword job) pg) reply) s).
Proof.
  intros Hjob [[Hr Ho] Hb]. unfold requests_upto, requests.
  cbn [trace record job_indices nonincreasing].
  split; [split; [| split; assumption] | constructor; [lia | exact Hb]].
  constructor; [| exact Hr]. split; [lia |]. exists job.
  replace (Z.to_nat (Z.of_nat slot + 1 - 1)) with slot by lia.
  split; [exact Hjob | reflexivity].
Qed.

Lemma requests_upto_advance cfg b s :
  requests_upto cfg b s -> requests_upto cfg b (advance s).
Proof. intros H. exact H. Qed.

Lemma requests_upto_with_resp cfg b r s :
  requests_upto cfg b s -> requests_upto cfg b (with_resp r s).
Proof. intros H. exact H. Qed.

Lemma requests_upto_with_request_count cfg b k s :
  requests_upto cfg b s -> requests_upto cfg b (with_request_count k s).
Proof. intros H. exact H. Qed.

Lemma requests_upto_with_total_downloaded cfg b k s :
  requests_upto cfg b s -> requests_upto cfg b (with_total_downloaded k s).
Proof. intros H. exact H. Qed.

Lemma requests_upto_with_job_downloaded cfg b l s :
  requests_upto cfg b s -> requests_upto cfg b (with_job_downloaded l s).
Proof. intros H. exact H. Qed.

Lemma upto_requests cfg b s : requests_upto cfg b s -> requests cfg s.
Proof. intros [H _]. exact H. Qed.

Ltac requests_steps :=
  repeat lazymatch goal with
  | |- requests_upto _ _ (advance _) => apply requests_upto_advance
  | |- requests_upto _ _ (with_resp _ _) => apply requests_upto_with_resp
  | |- requests_upto _ _ (with_request_count _ _) =>
      apply requests_upto_with_request_count
  | |- requests_upto _ _ (with_total_downloaded _ _) =>
      apply requests_upto_with_total_downloaded
  | |- requests_upto _ _ (with_job_downloaded _ _) =>
      apply requests_upto_with_job_downloaded
  | |- requests_upto _ _ (record (NetSearch _ _ _) _) =>
      apply requests_upto_search; [eassumption |]
  | |- requests_upto _ _ (record _ _) =>
      apply requests_upto_event; [reflexivity |]
  | |- requests_upto _ _ _ => eassumption
  end.

Lemma requests_event cfg e s :
  is_net_search e = false -> requests cfg s -> requests cfg (record e s).
Proof.
  intros He [Hr Ho]. unfold requests.
  destruct e; try discriminate He; cbn [trace record job_indices];
    (split; [constructor; [exact Logic.I | exact Hr] | exact Ho]).
Qed.

Lemma requests_advance cfg s : requests cfg s -> requests cfg (advance s).
Proof. intros H. exact H. Qed.

Ltac requests_plain_steps :=
  repeat lazymatch goal with
  | |- requests _ (advance _) => apply requests_advance
  | |- requests _ (record _ _) => apply requests_event; [reflexivity |]
  | |- requests _ _ => eassumption
  end.

Ltac requests_side :=
  unfold requests_halt; intros; cbv beta;
  try solve [ requests_steps
            | requests_plain_steps
            | eapply upto_requests; requests_steps
            | eapply requests_upto_le; [| eassumption]; lia ].

Section Requests.
Variable w : World.
Variable cfg : Config.
Variable fuel : nat.

Section Job.
Variables (key : string) (slot : nat) (job : Job).
Hypothesis Hjob : jobs cfg !! slot = Some job.

Lemma process_photo_requests photo :
  preserves (requests_upto cfg (Z.of_nat slot + 1)) (requests_halt cfg)
    (process_photo w cfg key slot (keyword job) photo).
Proof. unfold process_photo, resolve. preserves_go requests_side. Qed.

Lemma photos_loop_requests target_count photos :
  preserves (requests_upto cfg (Z.of_nat slot + 1)) (requests_halt cfg)
    (photos_loop w cfg key slot (keyword job) target_count photos).
Proof.
  pose proof process_photo_requests.
  induction photos; cbn [photos_loop]; preserves_go requests_side.
Qed.

Lemma rate_wait_requests n :
  preserves (requests_upto cfg (Z.of_nat slot + 1)) (requests_halt cfg)
    (rate_wait w n).
Proof. induction n; cbn [rate_wait]; preserves_go requests_side. Qed.

Lemma interval_wait_requests n :
  preserves (requests_upto cfg (Z.of_nat slot + 1)) (requests_halt cfg)
    (interval_wait w n).
Proof. induction n; cbn [interval_wait]; preserves_go requests_side. Qed.

Lemma fetch_page_requests target_count retries pg :
  preserves (requests_upto cfg (Z.of_nat slot + 1)) (requests_halt cfg)
    (fetch_page w cfg (Z.of_nat slot + 1) (keyword job) target_count retries pg).
Proof.
  pose proof rate_wait_requests.
  induction retries; cbn [fetch_page]; preserves_go requests_side.
Qed.

Lemma pages_loop_requests target_count pages :
  preserves (requests_upto cfg (Z.of_nat slot + 1)) (requests_halt cfg)
    (pages_loop w cfg fuel key (Z.of_nat slot + 1) slot (keyword job)
       target_count pages).
Proof.
  pose proof fetch_page_requests.
  pose proof photos_loop_requests.
  pose proof interval_wait_requests.
  induction pages; cbn [pages_loop]; unfold handle_page;
    preserves_go requests_side.
Qed.

End Job.

Lemma jobs_loop_requests key js : forall slot,
  (forall k job, js !! k = Some job -> jobs cfg !! (slot + k)%nat = Some job) ->
  triple (requests_upto cfg (Z.of_nat slot + 1)) (requests cfg)
    (requests_halt cfg) (jobs_loop w cfg fuel key slot js).
Proof.
  induction js as [| job rest IH]; intros slot Hsuffix;
    cbn [jobs_loop]; [triple_walk requests_side |].
  assert (Hjob : jobs cfg !! slot = Some job).
  { rewrite <- (Nat.add_0_r slot). apply Hsuffix. reflexivity. }
  assert (Hrest : forall k job', rest !! k = Some job' ->
                    jobs cfg !! (S slot + k)%nat = Some job').
  { intros k job' Hk. replace (S slot + k)%nat with (slot + S k)%nat by lia.
    apply Hsuffix. exact Hk. }
  specialize (IH (S slot) Hrest).
  assert (Hnext : triple (requests_upto cfg (Z.of_nat slot + 1)) (requests cfg)
                    (requests_halt cfg) (jobs_loop w cfg fuel key (S slot) rest)).
  { eapply triple_pre; [exact IH |]. intros s Hs.
    eapply requests_upto_le; [| exact Hs]. lia. }
  pose proof (pages_loop_requests key slot job Hjob) as Hpages.
  triple_walk requests_side.
Qed.

Lemma run_jobs_requests :
  triple (requests_upto cfg 1) (requests cfg) (requests_halt cfg)
    (run_jobs w cfg fuel).
Proof.
  pose proof (fun key =>
                jobs_loop_requests key (jobs cfg) 0
                  (fun k job (H : jobs cfg !! k = Some job) => H)) as Hloop.
  unfold run_jobs.
  destruct (jobs cfg) as [| j js]; triple_walk requests_side.
Qed.

Lemma run_requests : requests cfg (final (execute w cfg fuel)).
Proof.
  unfold execute, run, catch, run_body, bind at 1.
  assert (H0 : requests_upto cfg 1 (initial (length (jobs cfg)))).
  { split; [split; [constructor | exact Logic.I] | constructor]. }
  pose proof (run_jobs_requests _ H0) as Hb.
  destruct (run_jobs w cfg fuel (initial (length (jobs cfg))))
    as [[] s' | [ | e | ] s']; cbn [emit bind final];
    revert Hb; unfold requests_halt, requests; cbn [trace record job_indices];
    intros [Hr Ho]; repeat (split || constructor || assumption).
Qed.

End Requests.

(** X17.  Every search request of a run is made for a job of the list, with
    the keyword of that job and the parameters of the configuration: 30
    items per page, the configured ordering and content filter, and the
    orientation and the colour only when they are configured.  The jobs are
    taken in the order of the list: no request made before it is for a
    later job. *)
Theorem search_requests_follow_the_job_list (w : World) (cfg : Config)
    (fuel : nat) (before after : list Event) (j : Z) (p : Params)
    (reply : SearchReply) :
  events w cfg fuel = before ++ NetSearch j p reply :: after ->
  1 <= j <= njobs cfg /\
  (exists job,
     jobs cfg !! Z.to_nat (j - 1) = Some job /\
     query p = keyword job /\
     per_page_ p = 30 /\
     order_by_ p = order_by cfg /\
     content_filter_ p = content_filter cfg /\
     orientation_ p =
       (if String.eqb (orientation cfg) "" then None else Some (orientation cfg)) /\
     color_ p = (if String.eqb (color cfg) "" then None else Some (color cfg))) /\
  Forall (fun j' => j' <= j) (job_indices before).
Proof.
  intros Hev. destruct (run_requests w cfg fuel) as [Hreq Hord].
  assert (Htr : trace (final (execute w cfg fuel)) =
                rev after ++ NetSearch j p reply :: rev before).
  { rewrite <- (rev_involutive (trace (final (execute w cfg fuel)))).
    fold (events w cfg fuel). rewrite Hev, rev_app_distr. cbn [rev].
    rewrite <- app_assoc. reflexivity. }
  rewrite Htr in Hreq, Hord.
  apply List.Forall_app in Hreq. destruct Hreq as [_ Hreq].
  apply List.Forall_cons_iff in Hreq. destruct Hreq as [(Hj & job & Hjob & Hp) _].
  rewrite job_indices_app in Hord. apply nonincreasing_app in Hord.
  cbn [job_indices nonincreasing] in Hord. destruct Hord as [Hle _].
  assert (Hlen : (Z.to_nat (j - 1) < length (jobs cfg))%nat).
  { apply lookup_lt_is_Some. eauto. }
  split; [unfold njobs; lia |]. split.
  - exists job. split; [exact Hjob |]. rewrite Hp. cbn. tauto.
  - rewrite job_indices_rev in Hle. apply List.Forall_rev in Hle.
    rewrite rev_involutive in Hle. exact Hle.
Qed.

Lemma search_requests_follow_the_job_list_witness :
  exists job,
    jobs Sample.two_jobs !! Z.to_nat (2 - 1) = Some job /\
    query (search_params Sample.two_jobs "dogs" 1) = keyword job.
Proof.
  destruct (search_requests_follow_the_job_list Sample.calm Sample.two_jobs 0
              (firstn 30 (events Sample.calm Sample.two_jobs 0))
              (skipn 31 (events Sample.calm Sample.two_jobs 0))
              2 (search_params Sample.two_jobs "dogs" 1)
              (SearchResponse (Sample.page_of [Sample.photo "a"; Sample.photo "b"]))
              ltac:(vm_compute; reflexivity))
    as (_ & (job & Hjob & Hq & _) & _).
  exists job. split; [exact Hjob | exact Hq].
Defined.

(** ** Items and the search answer they come from *)

Lemma sound_items_event cfg e s :
  is_unexpected e = false -> item_event cfg e (trace s) ->
  sound_items cfg s -> sound_items cfg (record e s).
Proof.
  intros He Hitem [Hs Hu]. split.
  - split; [exact Hitem | exact Hs].
  - cbn [trace record existsb]. rewrite He, Hu. reflexivity.
Qed.

Lemma sound_items_advance cfg s : sound_items cfg s -> sound_items cfg (advance s).
Proof. intros H. exact H. Qed.

Lemma sound_items_with_resp cfg r s :
  sound_items cfg s -> sound_items cfg (with_resp r s).
Proof. intros H. exact H. Qed.

Lemma sound_items_with_request_count cfg k s :
  sound_items cfg s -> sound_items cfg (with_request_count k s).
Proof. intros H. exact H. Qed.

Lemma sound_items_with_total_downloaded cfg k s :
  sound_items cfg s -> sound_items cfg (with_total_downloaded k s).
Proof. intros H. exact H. Qed.

Lemma sound_items_with_job_downloaded cfg l s :
  sound_items cfg s -> sound_items cfg (with_job_downloaded l s).
Proof. intros H. exact H. Qed.

Lemma serving_sound cfg j r s : serving cfg j r s -> sound_items cfg s.
Proof. intros [H _]. exact H. Qed.

Lemma serving_event cfg j r e s :
  is_unexpected e = false -> is_net_search e = false ->
  item_event cfg e (trace s) ->
  serving cfg j r s -> serving cfg j r (record e s).
Proof.
  intros He Hn Hitem [Hs (pg & Hl)]. split.
  - apply sound_items_event; assumption.
  - exists pg. destruct e; try discriminate Hn; exact Hl.
Qed.

Lemma serving_advance cfg j r s : serving cfg j r s -> serving cfg j r (advance s).
Proof. intros H. exact H. Qed.

Lemma serving_with_total_downloaded cfg j r k s :
  serving cfg j r s -> serving cfg j r (with_total_downloaded k s).
Proof. intros H. exact H. Qed.

Lemma serving_with_job_downloaded cfg j r l s :
  serving cfg j r s -> serving cfg j r (with_job_downloaded l s).
Proof. intros H. exact H. Qed.

(** Plain events: no item event, no search, no report of the handler. *)
Ltac sound_steps :=
  repeat lazymatch goal with
  | |- sound_items _ (advance _) => apply sound_items_advance
  | |- sound_items _ (with_resp _ _) => apply sound_items_with_resp
  | |- sound_items _ (with_request_count _ _) =>
      apply sound_items_with_request_count
  | |- sound_items _ (with_total_downloaded _ _) =>
      apply sound_items_with_total_downloaded
  | |- sound_items _ (with_job_downloaded _ _) =>
      apply sound_items_with_job_downloaded
  | |- sound_items _ (record _ _) =>
      apply sound_items_event; [reflexivity | exact Logic.I |]
  | |- sound_items _ _ => eassumption
  end.

Ltac sound_side :=
  unfold sound_items_halt; intros; cbv beta;
  try solve [ sound_steps
            | split; [sound_steps | discriminate]
            | eapply serving_sound; eassumption ].

Lemma serving_from cfg j r s all photo (ok : Z -> Photo -> Prop) :
  serving cfg j r s -> status_code r = 200 -> results r = Some all ->
  In photo all -> ok j photo -> from_newest_search (trace s) ok.
Proof.
  intros [_ (pg & Hl)] Hstatus Hres Hin Hok.
  exists j, pg, r, all, photo. repeat split; assumption.
Qed.

Ltac item_ok :=
  cbv beta;
  first
    [ exact Logic.I
    | match goal with
      | H : Py.truthy (download_location ?p) = true |- download_location ?p = _ =>
          destruct (download_location p); [reflexivity | discriminate H]
      end
    | eexists; split; [| reflexivity];
      match goal with
      | H : jobs _ !! ?slot = Some _ |- _ =>
          replace (Z.to_nat (Z.of_nat slot + 1 - 1)) with slot by lia; exact H
      end ].

Ltac serving_steps :=
  repeat lazymatch goal with
  | |- serving _ _ _ (advance _) => apply serving_advance
  | |- serving _ _ _ (with_total_downloaded _ _) =>
      apply serving_with_total_downloaded
  | |- serving _ _ _ (with_job_downloaded _ _) =>
      apply serving_with_job_downloaded
  | |- serving _ _ _ (record _ _) =>
      apply serving_event;
        [ reflexivity | reflexivity
        | first [ exact Logic.I
                | eapply serving_from; [eassumption .. | item_ok] ]
        | ]
  | |- serving _ _ _ _ => eassumption
  end.

Ltac serving_side :=
  unfold sound_items_halt; intros; cbv beta;
  try solve [ serving_steps
            | split; [eapply serving_sound; serving_steps | discriminate] ].

Section Sourced.
Variable w : World.
Variable cfg : Config.
Variable fuel : nat.

Lemma rate_wait_sound n :
  preserves (sound_items cfg) (sound_items_halt cfg) (rate_wait w n).
Proof. induction n; cbn [rate_wait]; preserves_go sound_side. Qed.

Lemma interval_wait_sound n :
  preserves (sound_items cfg) (sound_items_halt cfg) (interval_wait w n).
Proof. induction n; cbn [interval_wait]; preserves_go sound_side. Qed.

Section Job.
Variables (key : string) (slot : nat) (job : Job) (target_count : Z).
Hypothesis Hjob : jobs cfg !! slot = Some job.

Section Answer.
Variables (r : Response) (all : list Photo).
Hypothesis Hstatus : status_code r = 200.
Hypothesis Hres : results r = Some all.

Lemma process_photo_serving photo :
  In photo all ->
  preserves (serving cfg (Z.of_nat slot + 1) r) (sound_items_halt cfg)
    (process_photo w cfg key slot (keyword job) photo).
Proof.
  intros Hin. unfold process_photo, resolve. preserves_go serving_side.
Qed.

Lemma photos_loop_serving photos :
  (forall photo, In photo photos -> In photo all) ->
  preserves (serving cfg (Z.of_nat slot + 1) r) (sound_items_halt cfg)
    (photos_loop w cfg key slot (keyword job) target_count photos).
Proof.
  induction photos as [| photo rest IH]; intros Hsub; cbn [photos_loop];
    [preserves_go serving_side |].
  pose proof (process_photo_serving photo (Hsub photo (or_introl eq_refl))).
  specialize (IH (fun p Hp => Hsub p (or_intror Hp))).
  preserves_go serving_side.
Qed.

End Answer.

Lemma fetch_page_fetched retries pg : forall s,
  sound_items cfg s ->
  match fetch_page w cfg (Z.of_nat slot + 1) (keyword job) target_count
          retries pg s with
  | Val _ s' => fetched w cfg (Z.of_nat slot + 1) s'
  | Stop h s' => sound_items_halt cfg h s'
  end.
Proof.
  induction retries as [| retries IH]; intros s Hs; cbn [fetch_page]; sym_go.
  all: try solve [split; [sound_steps | discriminate]].
  all: try solve
    [ split; [sound_steps | left]; unfold stopping; cbn [tick advance record];
      apply (stop_flag_mono w (tick s)); [lia | assumption] ].
  all: try solve
    [ split; [sound_steps | right]; split; [sound_steps |];
      eexists _, _; split; [reflexivity |]; split; [reflexivity |];
      apply Z.eqb_eq; assumption ].
  all: match goal with
       | |- context [bind (rate_wait w ?n) _ ?s1] =>
           pose proof (rate_wait_sound n s1 ltac:(sound_steps)) as Hw;
           unfold bind at 1;
           destruct (rate_wait w n s1) as [[] s2 | h s2]; [| exact Hw]
       end; sym.
  - split; [sound_steps | discriminate].
  - apply IH. sound_steps.
Qed.

Lemma handle_page_sound pg (next : M unit) :
  triple (sound_items cfg) (sound_items cfg) (sound_items_halt cfg) next ->
  triple (synced cfg (Z.of_nat slot + 1)) (sound_items cfg)
    (sound_items_halt cfg)
    (handle_page w cfg key slot (keyword job) target_count pg next).
Proof.
  intros Hnext s (Hs & pg' & r & Hlast & Hresp & Hstatus).
  unfold handle_page. sym. rewrite Hresp.
  destruct (results r) as [[| photo rest] |] eqn:Hres.
  - sym. sound_steps.
  - assert (Hserving : serving cfg (Z.of_nat slot + 1) r s).
    { split; [exact Hs | exists pg'; exact Hlast]. }
    pose proof (photos_loop_serving r (photo :: rest) Hstatus Hres
                  (photo :: rest) (fun p Hp => Hp) s Hserving) as Hloop.
    unfold bind at 1.
    destruct (photos_loop w cfg key slot (keyword job) target_count
                (photo :: rest) s) as [[] s1 | h s1]; [| exact Hloop].
    apply serving_sound in Hloop. sym.
    destruct (target_count <=? default 0 (job_downloaded s1 !! slot));
      [sym; sound_steps |].
    assert (Hs1 : sound_items cfg (record (page_value pg) s1)) by sound_steps.
    destruct (Qle_bool 1 (interval_sec (limit_per_hour cfg))
              && (pg <? pages_needed target_count))%bool;
      [| exact (Hnext _ Hs1)].
    pose proof (interval_wait_sound
                  (Z.to_nat (Py.int_of_float (interval_sec (limit_per_hour cfg))))
                  _ Hs1) as Hwait.
    unfold bind at 1.
    destruct (interval_wait w _ (record (page_value pg) s1))
      as [[] s2 | h s2]; [| exact Hwait].
    sym. destruct (stop_flag w (tick s2)); sym; [sound_steps |].
    apply Hnext. sound_steps.
  - sym. split; [exact Hs | discriminate].
Qed.

Lemma pages_loop_sound pages :
  triple (sound_items cfg) (sound_items cfg) (sound_items_halt cfg)
    (pages_loop w cfg fuel key (Z.of_nat slot + 1) slot (keyword job)
       target_count pages).
Proof.
  induction pages as [| pg more IH]; cbn [pages_loop];
    [apply triple_ret; auto |].
  apply (triple_poll_if w _ (sound_items cfg) (sound_items cfg));
    [ intros; sound_steps | intros; sound_steps
    | apply triple_emit; intros; sound_steps | ].
  apply (triple_call _ (sound_items cfg) (fetched w cfg (Z.of_nat slot + 1)));
    [ exact (fetch_page_fetched fuel pg) | auto | intros _ ].
  apply (triple_poll_if w _ (sound_items cfg)
           (synced cfg (Z.of_nat slot + 1))).
  - intros s [Hs _] _. sound_steps.
  - intros s [Hs [Hstop | (_ & pg' & r & Hlast & Hresp & Hstatus)]] Hflag.
    + unfold stopping in Hstop. congruence.
    + split; [sound_steps |]. exists pg', r. repeat split; assumption.
  - apply triple_ret. auto.
  - apply handle_page_sound, IH.
Qed.

End Job.

Lemma jobs_loop_sound key js : forall slot,
  (forall k job, js !! k = Some job -> jobs cfg !! (slot + k)%nat = Some job) ->
  preserves (sound_items cfg) (sound_items_halt cfg)
    (jobs_loop w cfg fuel key slot js).
Proof.
  induction js as [| job rest IH]; intros slot Hsuffix;
    cbn [jobs_loop]; [preserves_go sound_side |].
  assert (Hjob : jobs cfg !! slot = Some job).
  { rewrite <- (Nat.add_0_r slot). apply Hsuffix. reflexivity. }
  assert (Hrest : forall k job', rest !! k = Some job' ->
                    jobs cfg !! (S slot + k)%nat = Some job').
  { intros k job' Hk. replace (S slot + k)%nat with (slot + S k)%nat by lia.
    apply Hsuffix. exact Hk. }
  specialize (IH (S slot) Hrest).
  pose proof (fun t pages =>
                preserves_triple _ _ _
                  (pages_loop_sound key slot job t Hjob pages)) as Hpages.
  preserves_go sound_side.
Qed.

Lemma run_jobs_sound :
  preserves (sound_items cfg) (sound_items_halt cfg) (run_jobs w cfg fuel).
Proof.
  pose proof (fun key =>
                jobs_loop_sound key (jobs cfg) 0
                  (fun k job (H : jobs cfg !! k = Some job) => H)) as Hloop.
  unfold run_jobs.
  destruct (jobs cfg) as [| j js]; preserves_go sound_side.
Qed.

(** The trace of a run has every item event after its search answer, and
    the only report of the handler it can hold is the last event but one,
    for an exception other than an unbound [resp]. *)
Lemma run_sound :
  sourced cfg (trace (final (execute w cfg fuel))) /\
  forall e, In (error (ErrUnexpected e)) (trace (final (execute w cfg fuel))) ->
            e <> UnboundResp.
Proof.
  assert (H0 : sound_items cfg (initial (length (jobs cfg))))
    by (split; [exact Logic.I | reflexivity]).
  pose proof (run_jobs_sound _ H0) as Hb.
  assert (Hnone : forall tr e,
            existsb is_unexpected tr = false ->
            ~ In (error (ErrUnexpected e)) tr).
  { intros tr e Hex Hin.
    assert (existsb is_unexpected tr = true).
    { apply existsb_exists. exists (error (ErrUnexpected e)). split; [exact Hin | reflexivity]. }
    congruence. }
  unfold execute, run, catch, run_body, bind.
  destruct (run_jobs w cfg fuel (initial (length (jobs cfg))))
    as [[] s' | [ | e | ] s']; cbn [emit final trace record];
    unfold sound_items_halt, sound_items in Hb.
  - destruct Hb as [Hs Hu]. split; [split; [exact Logic.I | exact Hs] |].
    intros e [Hin | Hin]; [discriminate Hin | destruct (Hnone _ _ Hu Hin)].
  - destruct Hb as [[Hs Hu] _]. split; [exact Hs |].
    intros e Hin. destruct (Hnone _ _ Hu Hin).
  - destruct Hb as [[Hs Hu] Hne].
    split; [split; [exact Logic.I |]; split; [exact Logic.I | exact Hs] |].
    intros e' [Hin | [Hin | Hin]]; [discriminate Hin | | destruct (Hnone _ _ Hu Hin)].
    injection Hin as <-. congruence.
  - destruct Hb as [[Hs Hu] _]. split; [exact Hs |].
    intros e Hin. destruct (Hnone _ _ Hu Hin).
Qed.

End Sourced.

Lemma sourced_app cfg newer older :
  sourced cfg (newer ++ older) -> sourced cfg older.
Proof.
  induction newer as [| e newer IH]; [intros H; exact H |].
  intros [_ H]. exact (IH H).
Qed.

(** X18.  What a run does for an item it does for an item of the answer to
    its newest search request, an answer with status 200: a tracking call
    goes to the [download_location] of such an item, an image is fetched
    only then, and a file written is named after the keyword of the job
    that was searched and the [id] of such an item. *)
Theorem items_come_from_the_newest_search (w : World) (cfg : Config)
    (fuel : nat) (before after : list Event) (e : Event) :
  events w cfg fuel = before ++ e :: after ->
  item_event cfg e (rev before).
Proof.
  intros Hev. destruct (run_sound w cfg fuel) as [Hs _].
  assert (Htr : trace (final (execute w cfg fuel)) =
                rev after ++ e :: rev before).
  { rewrite <- (rev_involutive (trace (final (execute w cfg fuel)))).
    fold (events w cfg fuel). rewrite Hev, rev_app_distr. cbn [rev].
    rewrite <- app_assoc. reflexivity. }
  rewrite Htr in Hs. apply sourced_app in Hs. exact (proj1 Hs).
Qed.


Lemma items_come_from_the_newest_search_witness :
  item_event Sample.one_job (FileSaved "cats_a.jpg")
    (rev (firstn 16 (events Sample.calm Sample.one_job 0))).
Proof.
  apply (items_come_from_the_newest_search Sample.calm Sample.one_job 0
           (firstn 16 (events Sample.calm Sample.one_job 0))
           (skipn 17 (events Sample.calm Sample.one_job 0))).
  vm_compute. reflexivity.
Defined.


(** ** Requests and what is left to download *)

Lemma triple_update (P Q : State -> Prop) (X : Halt -> State -> Prop)
    (f : State -> State) :
  (forall s, P s -> Q (f s)) -> triple P Q X (update f).
Proof. intros H s Hs. apply H, Hs. Qed.

Lemma needed_event cfg e s :
  is_net_search e = false -> needed cfg s -> needed cfg (record e s).
Proof.
  intros He [Hh Hlen]. split; [| exact Hlen].
  unfold history. cbn [trace observed record combine].
  constructor; [| exact Hh].
  unfold request_needed. cbn [fst]. destruct e; try exact Logic.I.
  discriminate He.
Qed.

Lemma needed_advance cfg s : needed cfg s -> needed cfg (advance s).
Proof. intros H. exact H. Qed.

Lemma needed_with_resp cfg r s : needed cfg s -> needed cfg (with_resp r s).
Proof. intros H. exact H. Qed.

Lemma needed_with_request_count cfg k s :
  needed cfg s -> needed cfg (with_request_count k s).
Proof. intros H. exact H. Qed.

Lemma needed_with_total_downloaded cfg k s :
  needed cfg s -> needed cfg (with_total_downloaded k s).
Proof. intros H. exact H. Qed.

Lemma needed_insert cfg k v s :
  needed cfg s ->
  needed cfg (with_job_downloaded (<[k := v]> (job_downloaded s)) s).
Proof.
  intros [Hh Hlen]. split; [exact Hh |].
  cbn [job_downloaded with_job_downloaded]. rewrite length_insert. exact Hlen.
Qed.

Lemma hungry_needed cfg slot target s : hungry cfg slot target s -> needed cfg s.
Proof. intros [H _]. exact H. Qed.

Lemma hungry_event cfg slot target e s :
  is_net_search e = false ->
  hungry cfg slot target s -> hungry cfg slot target (record e s).
Proof.
  intros He [Hn Hlt]. split; [apply needed_event; assumption | exact Hlt].
Qed.

Lemma hungry_advance cfg slot target s :
  hungry cfg slot target s -> hungry cfg slot target (advance s).
Proof. intros H. exact H. Qed.

Lemma hungry_with_resp cfg slot target r s :
  hungry cfg slot target s -> hungry cfg slot target (with_resp r s).
Proof. intros H. exact H. Qed.

Lemma hungry_with_request_count cfg slot target k s :
  hungry cfg slot target s -> hungry cfg slot target (with_request_count k s).
Proof. intros H. exact H. Qed.

Lemma hungry_search cfg slot job p reply s :
  jobs cfg !! slot = Some job ->
  hungry cfg slot (count job) s ->
  hungry cfg slot (count job) (record (NetSearch (Z.of_nat slot + 1) p reply) s).
Proof.
  intros Hjob [[Hh Hlen] Hlt]. split; [split; [| exact Hlen] | exact Hlt].
  unfold history. cbn [trace observed record combine].
  constructor; [| exact Hh].
  unfold request_needed. cbn [fst snd totals perJobDownloaded].
  replace (Z.to_nat (Z.of_nat slot + 1 - 1)) with slot by lia.
  assert (Hd : is_Some (job_downloaded s !! slot)).
  { apply lookup_lt_is_Some. rewrite Hlen. apply lookup_lt_is_Some. eauto. }
  destruct Hd as [d Hd]. rewrite Hd in Hlt.
  exists job, d. split; [exact Hjob |]. split; [exact Hd | exact Hlt].
Qed.

Ltac needed_steps :=
  repeat lazymatch goal with
  | |- needed _ (advance _) => apply needed_advance
  | |- needed _ (with_resp _ _) => apply needed_with_resp
  | |- needed _ (with_request_count _ _) => apply needed_with_request_count
  | |- needed _ (with_total_downloaded _ _) =>
      apply needed_with_total_downloaded
  | |- needed _ (with_job_downloaded (<[_ := _]> _) _) => apply needed_insert
  | |- needed _ (record _ _) => apply needed_event; [reflexivity |]
  | |- needed _ _ => first [eassumption | eapply hungry_needed]
  | |- hungry _ _ _ (advance _) => apply hungry_advance
  | |- hungry _ _ _ (with_resp _ _) => apply hungry_with_resp
  | |- hungry _ _ _ (with_request_count _ _) =>
      apply hungry_with_request_count
  | |- hungry _ _ _ (record (NetSearch _ _ _) _) =>
      apply hungry_search; [eassumption |]
  | |- hungry _ _ _ (record _ _) => apply hungry_event; [reflexivity |]
  | |- hungry _ _ _ _ => eassumption
  end.

Ltac needed_side :=
  unfold needed_halt; intros; cbv beta; try solve [ needed_steps ].

Section Needed.
Variable w : World.
Variable cfg : Config.
Variable fuel : nat.

Section Job.
Variables (key : string) (slot : nat) (job : Job).
Hypothesis Hjob : jobs cfg !! slot = Some job.

Lemma process_photo_needed kw photo :
  preserves (needed cfg) (needed_halt cfg)
    (process_photo w cfg key slot kw photo).
Proof. unfold process_photo, resolve. preserves_go needed_side. Qed.

Lemma photos_loop_needed kw target_count photos :
  preserves (needed cfg) (needed_halt cfg)
    (photos_loop w cfg key slot kw target_count photos).
Proof.
  pose proof (process_photo_needed kw).
  induction photos; cbn [photos_loop]; preserves_go needed_side.
Qed.

Lemma rate_wait_hungry n :
  preserves (hungry cfg slot (count job)) (needed_halt cfg) (rate_wait w n).
Proof. induction n; cbn [rate_wait]; preserves_go needed_side. Qed.

Lemma interval_wait_hungry n :
  preserves (hungry cfg slot (count job)) (needed_halt cfg) (interval_wait w n).
Proof. induction n; cbn [interval_wait]; preserves_go needed_side. Qed.

Lemma fetch_page_hungry retries pg :
  preserves (hungry cfg slot (count job)) (needed_halt cfg)
    (fetch_page w cfg (Z.of_nat slot + 1) (keyword job) (count job) retries pg).
Proof.
  pose proof rate_wait_hungry.
  induction retries; cbn [fetch_page]; preserves_go needed_side.
Qed.

Lemma handle_page_hungry pg (next : M unit) :
  triple (hungry cfg slot (count job)) (needed cfg) (needed_halt cfg) next ->
  triple (hungry cfg slot (count job)) (needed cfg) (needed_halt cfg)
    (handle_page w cfg key slot (keyword job) (count job) pg next).
Proof.
  intros Hnext s Hs. unfold handle_page. sym.
  destruct (resp s) as [r |]; [| sym; unfold needed_halt; needed_steps].
  destruct (results r) as [[| photo rest] |]; [sym; unfold needed_halt; needed_steps | | sym; unfold needed_halt; needed_steps].
  pose proof (photos_loop_needed (keyword job) (count job) (photo :: rest) s
                (hungry_needed _ _ _ _ Hs)) as Hloop.
  unfold bind at 1.
  destruct (photos_loop w cfg key slot (keyword job) (count job)
              (photo :: rest) s) as [[] s1 | h s1]; [| exact Hloop].
  sym.
  destruct (Z.leb_spec (count job) (default 0 (job_downloaded s1 !! slot)))
    as [Hdone | Hmore]; [sym; unfold needed_halt; needed_steps |].
  assert (Hs1 : hungry cfg slot (count job) (record (page_value pg) s1)).
  { apply hungry_event; [reflexivity |]. split; assumption. }
  destruct (Qle_bool 1 (interval_sec (limit_per_hour cfg))
            && (pg <? pages_needed (count job)))%bool;
    [| exact (Hnext _ Hs1)].
  pose proof (interval_wait_hungry
                (Z.to_nat (Py.int_of_float (interval_sec (limit_per_hour cfg))))
                _ Hs1) as Hwait.
  unfold bind at 1.
  destruct (interval_wait w _ (record (page_value pg) s1))
    as [[] s2 | h s2]; [| exact Hwait].
  sym. destruct (stop_flag w (tick s2)); sym; [needed_steps |].
  apply Hnext. needed_steps.
Qed.

Lemma pages_loop_hungry pages :
  triple (hungry cfg slot (count job)) (needed cfg) (needed_halt cfg)
    (pages_loop w cfg fuel key (Z.of_nat slot + 1) slot (keyword job)
       (count job) pages).
Proof.
  induction pages as [| pg more IH]; cbn [pages_loop];
    [apply triple_ret; intros; needed_steps |].
  apply (triple_poll_if w _ (needed cfg) (hungry cfg slot (count job)));
    [ intros; needed_steps | intros; needed_steps
    | apply triple_emit; intros; needed_steps | ].
  apply triple_bind; [apply fetch_page_hungry | intros _].
  apply (triple_poll_if w _ (needed cfg) (hungry cfg slot (count job)));
    [ intros; needed_steps | intros; needed_steps
    | apply triple_ret; auto | ].
  apply handle_page_hungry, IH.
Qed.

End Job.

Lemma jobs_loop_needed key js : forall slot,
  (forall k job, js !! k = Some job -> jobs cfg !! (slot + k)%nat = Some job) ->
  triple (needed cfg) (needed cfg) (needed_halt cfg)
    (jobs_loop w cfg fuel key slot js).
Proof.
  induction js as [| job rest IH]; intros slot Hsuffix;
    cbn [jobs_loop]; [apply triple_ret; auto |].
  assert (Hjob : jobs cfg !! slot = Some job).
  { rewrite <- (Nat.add_0_r slot). apply Hsuffix. reflexivity. }
  assert (Hrest : forall k job', rest !! k = Some job' ->
                    jobs cfg !! (S slot + k)%nat = Some job').
  { intros k job' Hk. replace (S slot + k)%nat with (slot + S k)%nat by lia.
    apply Hsuffix. exact Hk. }
  specialize (IH (S slot) Hrest).
  apply triple_bind; [solve [preserves_go needed_side] | intros stop].
  destruct stop; [apply triple_emit; intros; needed_steps |].
  destruct (Z.leb_spec (count job) 0) as [Hskip | Hpos]; [exact IH |].
  apply triple_bind; [solve [preserves_go needed_side] | intros _].
  apply (triple_call _ (needed cfg) (hungry cfg slot (count job)));
    [ | auto | intros _ ].
  { unfold write_job_downloaded. apply triple_update.
    intros s [Hh Hlen]. split; [apply needed_insert; split; assumption |].
    cbn [job_downloaded with_job_downloaded].
    rewrite list_lookup_insert_eq; [cbn; exact Hpos |].
    rewrite Hlen. apply lookup_lt_is_Some. eauto. }
  destruct (pages_needed (count job) <=? 0).
  { eapply triple_pre; [exact IH |]. intros s Hs. needed_steps. }
  apply triple_bind; [solve [preserves_go needed_side] | intros _].
  apply triple_bind; [solve [preserves_go needed_side] | intros _].
  apply (triple_call _ (hungry cfg slot (count job)) (needed cfg));
    [ apply pages_loop_hungry; exact Hjob | auto | intros _ ].
  apply triple_bind; [solve [preserves_go needed_side] | intros stop].
  destruct stop; [apply triple_ret; auto | exact IH].
Qed.

Lemma run_jobs_needed :
  preserves (needed cfg) (needed_halt cfg) (run_jobs w cfg fuel).
Proof.
  pose proof (fun key =>
                preserves_triple _ _ _
                  (jobs_loop_needed key (jobs cfg) 0
                     (fun k job (H : jobs cfg !! k = Some job) => H))) as Hloop.
  unfold run_jobs.
  destruct (jobs cfg) as [| j js] eqn:Hjobs; [preserves_go needed_side |].
  rewrite <- Hjobs in *. preserves_go needed_side.
Qed.

Lemma run_needed :
  Forall (request_needed cfg) (history (final (execute w cfg fuel))).
Proof.
  unfold execute, run, catch, run_body, bind.
  assert (H0 : needed cfg (initial (length (jobs cfg)))).
  { split; [constructor |]. cbn. apply length_replicate. }
  pose proof (run_jobs_needed _ H0) as Hb.
  destruct (run_jobs w cfg fuel (initial (length (jobs cfg))))
    as [[] s' | [ | e | ] s']; cbn [emit final];
    unfold needed_halt in Hb;
    match goal with
    | |- Forall _ (history ?s) =>
        assert (Hn : needed cfg s) by needed_steps; exact (proj1 Hn)
    end.
Qed.

End Needed.

Lemma split_snapshots {A B} (P : A * B -> Prop) (newer : list A) :
  forall (tr : list A) (ob : list B) e older,
  tr = newer ++ e :: older -> length ob = length tr ->
  Forall P (combine tr ob) ->
  exists o1 t o2,
    ob = o1 ++ t :: o2 /\ length o1 = length newer /\
    length o2 = length older /\ P (e, t).
Proof.
  induction newer as [| a newer IH]; intros tr ob e older -> Hlen Hall.
  - destruct ob as [| t o2]; [discriminate Hlen |].
    cbn [app combine] in Hall. apply List.Forall_cons_iff in Hall.
    exists [], t, o2. repeat split; [| apply Hall].
    cbn in Hlen. lia.
  - destruct ob as [| b ob]; [discriminate Hlen |].
    cbn [app combine] in Hall. apply List.Forall_cons_iff in Hall.
    destruct (IH (newer ++ e :: older) ob e older eq_refl
                ltac:(cbn in Hlen; lia) (proj2 Hall))
      as (o1 & t & o2 & -> & H1 & H2 & HP).
    exists (b :: o1), t, o2. repeat split; [cbn; lia | exact H2 | exact HP].
Qed.

(** X20.  A search request is made only for a job that still has less than
    its target: at the time of each search request of a run, the job the
    request is made for has downloaded fewer items than its count. *)
Theorem requests_are_made_below_the_target (w : World) (cfg : Config)
    (fuel : nat) (before after : list Event) (j : Z) (p : Params)
    (reply : SearchReply) :
  events w cfg fuel = before ++ NetSearch j p reply :: after ->
  exists job d t,
    jobs cfg !! Z.to_nat (j - 1) = Some job /\
    rev (observed (final (execute w cfg fuel))) !! length before = Some t /\
    perJobDownloaded t !! Z.to_nat (j - 1) = Some d /\
    d < count job.
Proof.
  intros Hev.
  assert (Htr : trace (final (execute w cfg fuel)) =
                rev after ++ NetSearch j p reply :: rev before).
  { rewrite <- (rev_involutive (trace (final (execute w cfg fuel)))).
    fold (events w cfg fuel). rewrite Hev, rev_app_distr. cbn [rev].
    rewrite <- app_assoc. reflexivity. }
  pose proof (run_in_step w cfg fuel) as Hstep. unfold in_step in Hstep.
  pose proof (run_needed w cfg fuel) as Hall. unfold history in Hall.
  destruct (split_snapshots _ _ _ _ _ _ Htr Hstep Hall)
    as (o1 & t & o2 & Hob & _ & Hlen2 & job & d & Hjob & Hd & Hlt).
  exists job, d, t. split; [exact Hjob |]. split; [| split; assumption].
  rewrite Hob, rev_app_distr. cbn [rev]. rewrite <- app_assoc. cbn [app].
  apply list_lookup_middle. rewrite length_rev, Hlen2, length_rev. reflexivity.
Qed.

Lemma requests_are_made_below_the_target_witness :
  exists job d t,
    jobs Sample.two_jobs !! Z.to_nat (2 - 1) = Some job /\
    rev (observed (final (execute Sample.calm Sample.two_jobs 0))) !! 30%nat
      = Some t /\
    perJobDownloaded t !! Z.to_nat (2 - 1) = Some d /\
    d < count job.
Proof.
  apply (requests_are_made_below_the_target Sample.calm Sample.two_jobs 0
           (firstn 30 (events Sample.calm Sample.two_jobs 0))
           (skipn 31 (events Sample.calm Sample.two_jobs 0))
           2 (search_params Sample.two_jobs "dogs" 1)
           (SearchResponse (Sample.page_of [Sample.photo "a"; Sample.photo "b"]))).
  vm_compute. reflexivity.
Defined.

(** ** Jobs whose results ran out *)

Lemma last_search_cons e tr :
  is_net_search e = false -> last_search (e :: tr) = last_search tr.
Proof. intros He. destruct e; try reflexivity. discriminate He. Qed.

Lemma job_indices_cons e tr :
  is_net_search e = false -> job_indices (e :: tr) = job_indices tr.
Proof. intros He. destruct e; try reflexivity. discriminate He. Qed.

Lemma in_job_indices j p reply tr :
  In (NetSearch j p reply) tr -> In j (job_indices tr).
Proof.
  induction tr as [| e tr IH]; [intros [] |].
  intros [-> | Hin]; [left; reflexivity |].
  destruct e; cbn [job_indices]; try right; auto.
Qed.

Lemma idle_cons j e tr :
  is_net_search e = false -> idle j tr -> idle j (e :: tr).
Proof.
  intros He [Hn Hb]. split.
  - split; [destruct e; try exact Logic.I; discriminate He | exact Hn].
  - rewrite (job_indices_cons _ _ He). exact Hb.
Qed.

Lemma fresh_job_cons j e tr :
  is_net_search e = false -> fresh_job j tr -> fresh_job j (e :: tr).
Proof.
  intros He Hf p r [Heq | Hin]; [subst e; discriminate He | eauto].
Qed.

Lemma asking_cons j e tr :
  is_net_search e = false -> asking j tr -> asking j (e :: tr).
Proof.
  intros He [Hi Hf].
  split; [apply idle_cons | apply fresh_job_cons]; assumption.
Qed.

Lemma idle_le j j' tr : j <= j' -> idle j tr -> idle j' tr.
Proof.
  intros Hle [Hn Hb]. split; [exact Hn |].
  eapply List.Forall_impl; [| exact Hb]. cbn. intros i Hi. lia.
Qed.

Lemma idle_asking j j' tr : j < j' -> idle j tr -> asking j' tr.
Proof.
  intros Hlt Hi. split; [apply (idle_le j); [lia | exact Hi] |].
  intros p r Hin _. apply in_job_indices in Hin.
  destruct Hi as [_ Hb]. rewrite List.Forall_forall in Hb.
  specialize (Hb _ Hin). lia.
Qed.

Lemma asking_idle j tr : asking j tr -> idle j tr.
Proof. intros [H _]. exact H. Qed.

Lemma answered_idle j tr : answered j tr -> idle j tr.
Proof. intros [H _]. exact H. Qed.

Lemma asking_answered j tr : asking j tr -> answered j tr.
Proof.
  intros [Hi Hf]. split; [exact Hi |].
  intros p r Hin Hout. destruct (Hf p r Hin Hout).
Qed.

Lemma asking_search j p reply tr :
  (forall r, reply = SearchResponse r -> ~ ran_out r) ->
  asking j tr -> asking j (NetSearch j p reply :: tr).
Proof.
  intros Hreply [[Hn Hb] Hf]. split; [split |].
  - split; [exact Hf | exact Hn].
  - cbn [job_indices]. constructor; [lia | exact Hb].
  - intros p' r [Heq | Hin]; [| eauto].
    injection Heq as _ ->. apply Hreply. reflexivity.
Qed.

Lemma answered_search j p r tr :
  asking j tr -> answered j (NetSearch j p (SearchResponse r) :: tr).
Proof.
  intros [[Hn Hb] Hf]. split; [split |].
  - split; [exact Hf | exact Hn].
  - cbn [job_indices]. constructor; [lia | exact Hb].
  - intros p' r' [Heq | Hin] Hout; [| destruct (Hf p' r' Hin Hout)].
    injection Heq as <- <-. exists (page p). reflexivity.
Qed.

Lemma answered_cons j e tr :
  is_net_search e = false -> answered j tr -> answered j (e :: tr).
Proof.
  intros He [Hi Ha]. split; [apply idle_cons; assumption |].
  intros p r [Heq | Hin] Hout; [subst e; discriminate He |].
  rewrite (last_search_cons _ _ He). eauto.
Qed.

Lemma answered_fresh j j' pg r tr :
  last_search tr = Some (j', pg, SearchResponse r) -> ~ ran_out r ->
  answered j tr -> asking j tr.
Proof.
  intros Hlast Hnot [Hi Ha]. split; [exact Hi |].
  intros p r' Hin Hout. destruct (Ha p r' Hin Hout) as (pg' & Hl).
  rewrite Hlast in Hl. injection Hl as _ _ <-. exact (Hnot Hout).
Qed.

Lemma no_return_search j p reply tr :
  asking j tr -> no_return (NetSearch j p reply :: tr).
Proof. intros [[Hn _] Hf]. split; assumption. Qed.

Ltac not_ran_out :=
  let r' := fresh "r" in
  let Heq := fresh "Heq" in
  let Hst := fresh "Hst" in
  intros r' Heq [Hst _]; injection Heq as <-;
  match goal with
  | H : (status_code _ =? 200) = false |- _ =>
      apply Z.eqb_neq in H; exact (H Hst)
  end.

Ltac trace_steps :=
  cbn [trace record advance with_resp with_request_count with_total_downloaded
       with_job_downloaded] in *;
  repeat lazymatch goal with
  | |- asking _ (NetSearch _ _ _ :: _) => apply asking_search; [not_ran_out |]
  | |- asking _ (_ :: _) => apply asking_cons; [reflexivity |]
  | |- answered _ (NetSearch _ _ (SearchResponse _) :: _) =>
      apply answered_search
  | |- answered _ (_ :: _) =>
      first [ apply answered_cons; [reflexivity |] | apply asking_answered ]
  | |- answered _ _ => first [ eassumption | apply asking_answered ]
  | |- idle _ (_ :: _) => apply idle_cons; [reflexivity |]
  | |- no_return (NetSearch _ _ _ :: _) => apply no_return_search
  | |- no_return (_ :: _) => split; [exact Logic.I |]
  | |- asking _ _ => eassumption
  | |- idle _ _ =>
      first [ eassumption
            | eapply asking_idle; eassumption
            | eapply answered_idle; eassumption ]
  | |- no_return _ =>
      first [ eassumption
            | eapply proj1; eapply asking_idle; eassumption
            | eapply proj1; eapply answered_idle; eassumption
            | eapply proj1; eassumption ]
  end.

Ltac asking_side :=
  unfold asking_state, idle_state, answered_state, synced_state,
    no_return_state, no_return_halt;
  intros; cbv beta;
  repeat match goal with
         | H : _ /\ sound_items _ _ |- _ => destruct H
         end;
  try solve [ split; [solve [trace_steps] | solve [sound_steps]]
            | solve [trace_steps] ].

Ltac trace_side :=
  unfold no_return_state, no_return_halt; intros; cbv beta;
  try solve [ trace_steps ].

Section RanOut.
Variable w : World.
Variable cfg : Config.
Variable fuel : nat.

Section Job.
Variables (key : string) (slot : nat) (job : Job) (target_count : Z).
Hypothesis Hjob : jobs cfg !! slot = Some job.

Lemma process_photo_asking j kw photo :
  preserves (fun s => asking j (trace s)) no_return_halt
    (process_photo w cfg key slot kw photo).
Proof. unfold process_photo, resolve. preserves_go trace_side. Qed.

Lemma photos_loop_asking j kw photos :
  preserves (fun s => asking j (trace s)) no_return_halt
    (photos_loop w cfg key slot kw target_count photos).
Proof.
  pose proof (process_photo_asking j kw).
  induction photos; cbn [photos_loop]; preserves_go trace_side.
Qed.

Lemma rate_wait_asking j n :
  preserves (fun s => asking j (trace s)) no_return_halt
    (rate_wait w n).
Proof. induction n; cbn [rate_wait]; preserves_go trace_side. Qed.

Lemma interval_wait_asking j n :
  preserves (fun s => asking j (trace s)) no_return_halt
    (interval_wait w n).
Proof. induction n; cbn [interval_wait]; preserves_go trace_side. Qed.

Lemma fetch_page_answered j kw retries pg : forall s,
  asking j (trace s) ->
  match fetch_page w cfg j kw target_count retries pg s with
  | Val _ s' => answered j (trace s')
  | Stop h s' => no_return_halt h s'
  end.
Proof.
  unfold no_return_halt.
  induction retries as [| retries IH]; intros s Hs; cbn [fetch_page]; sym_go.
  all: try solve [trace_steps].
  all: match goal with
       | |- context [bind (rate_wait w ?n) _ ?s1] =>
           pose proof (rate_wait_asking j n s1 ltac:(cbv beta; trace_steps)) as Hw;
           unfold bind at 1;
           destruct (rate_wait w n s1) as [[] s2 | h s2]; [| exact Hw]
       end; sym; cbv beta in Hw.
  - trace_steps.
  - apply IH. trace_steps.
Qed.

Lemma fetch_page_asked retries pg :
  triple (asking_state cfg (Z.of_nat slot + 1))
    (answered_state w cfg (Z.of_nat slot + 1)) no_return_halt
    (fetch_page w cfg (Z.of_nat slot + 1) (keyword job) target_count
       retries pg).
Proof.
  intros s [Ha Hs].
  pose proof (fetch_page_answered (Z.of_nat slot + 1) (keyword job)
                retries pg s Ha) as H1.
  pose proof (fetch_page_fetched w cfg slot job target_count retries pg s Hs)
    as H2.
  destruct (fetch_page w cfg (Z.of_nat slot + 1) (keyword job) target_count
              retries pg s); [split; assumption | exact H1].
Qed.

Lemma handle_page_asking pg (next : M unit) :
  triple (asking_state cfg (Z.of_nat slot + 1))
    (idle_state cfg (Z.of_nat slot + 1)) no_return_halt next ->
  triple (synced_state cfg (Z.of_nat slot + 1))
    (idle_state cfg (Z.of_nat slot + 1)) no_return_halt
    (handle_page w cfg key slot (keyword job) target_count pg next).
Proof.
  intros Hnext s (Ha & Hs & pg' & r & Hlast & Hresp & Hstatus).
  unfold handle_page. sym. rewrite Hresp.
  destruct (results r) as [[| photo rest] |] eqn:Hres.
  - sym. asking_side.
  - assert (Hask : asking (Z.of_nat slot + 1) (trace s)).
    { eapply answered_fresh; [exact Hlast | | exact Ha].
      intros [_ Hout]. congruence. }
    assert (Hserving : serving cfg (Z.of_nat slot + 1) r s).
    { split; [exact Hs | exists pg'; exact Hlast]. }
    pose proof (photos_loop_serving w cfg key slot job target_count Hjob r
                  (photo :: rest) Hstatus Hres
                  (photo :: rest) (fun p Hp => Hp) s Hserving) as Hloop.
    pose proof (photos_loop_asking (Z.of_nat slot + 1) (keyword job)
                  (photo :: rest) s Hask) as Hloop'.
    unfold bind at 1.
    destruct (photos_loop w cfg key slot (keyword job) target_count
                (photo :: rest) s) as [[] s1 | h s1]; [| exact Hloop'].
    apply serving_sound in Hloop. cbv beta in Hloop'. sym.
    destruct (target_count <=? default 0 (job_downloaded s1 !! slot));
      [sym; asking_side |].
    assert (Hs1 : asking_state cfg (Z.of_nat slot + 1)
                    (record (page_value pg) s1)) by asking_side.
    destruct (Qle_bool 1 (interval_sec (limit_per_hour cfg))
              && (pg <? pages_needed target_count))%bool;
      [| exact (Hnext _ Hs1)].
    destruct Hs1 as [Ha1 Hs1].
    pose proof (interval_wait_sound w cfg
                  (Z.to_nat (Py.int_of_float (interval_sec (limit_per_hour cfg))))
                  _ Hs1) as Hwait.
    pose proof (interval_wait_asking (Z.of_nat slot + 1)
                  (Z.to_nat (Py.int_of_float (interval_sec (limit_per_hour cfg))))
                  _ Ha1) as Hwait'.
    unfold bind at 1.
    destruct (interval_wait w _ (record (page_value pg) s1))
      as [[] s2 | h s2]; [| exact Hwait'].
    cbv beta in Hwait'.
    sym. destruct (stop_flag w (tick s2)); sym; [asking_side |].
    apply Hnext. asking_side.
  - sym. asking_side.
Qed.

Lemma pages_loop_asking pages :
  triple (asking_state cfg (Z.of_nat slot + 1))
    (idle_state cfg (Z.of_nat slot + 1)) no_return_halt
    (pages_loop w cfg fuel key (Z.of_nat slot + 1) slot (keyword job)
       target_count pages).
Proof.
  induction pages as [| pg more IH]; cbn [pages_loop];
    [apply triple_ret; asking_side |].
  apply (triple_poll_if w _ (asking_state cfg (Z.of_nat slot + 1))
           (asking_state cfg (Z.of_nat slot + 1)));
    [ asking_side | asking_side | apply triple_emit; asking_side | ].
  apply (triple_call _ (asking_state cfg (Z.of_nat slot + 1))
           (answered_state w cfg (Z.of_nat slot + 1)));
    [ exact (fetch_page_asked fuel pg) | auto | intros _ ].
  apply (triple_poll_if w _ (idle_state cfg (Z.of_nat slot + 1))
           (synced_state cfg (Z.of_nat slot + 1))).
  - intros s [Ha [Hs _]] _. asking_side.
  - intros s [Ha [Hs [Hstop | (_ & pg' & r & Hlast & Hresp & Hstatus)]]] Hflag.
    + unfold stopping in Hstop. congruence.
    + split; [trace_steps |]. split; [sound_steps |].
      exists pg', r. repeat split; assumption.
  - apply triple_ret. auto.
  - apply handle_page_asking, IH.
Qed.

End Job.

Lemma jobs_loop_asking key js : forall slot,
  (forall k job, js !! k = Some job -> jobs cfg !! (slot + k)%nat = Some job) ->
  triple (idle_state cfg (Z.of_nat slot)) no_return_state no_return_halt
    (jobs_loop w cfg fuel key slot js).
Proof.
  induction js as [| job rest IH]; intros slot Hsuffix;
    cbn [jobs_loop]; [triple_walk asking_side |].
  assert (Hjob : jobs cfg !! slot = Some job).
  { rewrite <- (Nat.add_0_r slot). apply Hsuffix. reflexivity. }
  assert (Hrest : forall k job', rest !! k = Some job' ->
                    jobs cfg !! (S slot + k)%nat = Some job').
  { intros k job' Hk. replace (S slot + k)%nat with (slot + S k)%nat by lia.
    apply Hsuffix. exact Hk. }
  specialize (IH (S slot) Hrest).
  replace (Z.of_nat (S slot)) with (Z.of_nat slot + 1) in IH by lia.
  assert (Hnext : triple (asking_state cfg (Z.of_nat slot + 1)) no_return_state
                    no_return_halt (jobs_loop w cfg fuel key (S slot) rest)).
  { eapply triple_pre; [exact IH |]. intros s [Ha Hs].
    split; [apply asking_idle, Ha | exact Hs]. }
  pose proof (fun t pages =>
                pages_loop_asking key slot job t Hjob pages) as Hpages.
  apply (triple_pre _ (asking_state cfg (Z.of_nat slot + 1))).
  2: { intros s [Hi Hs]. split; [| exact Hs].
       apply (idle_asking (Z.of_nat slot)); [lia | exact Hi]. }
  triple_walk asking_side.
Qed.

Lemma run_jobs_asking :
  triple (idle_state cfg 0) no_return_state no_return_halt
    (run_jobs w cfg fuel).
Proof.
  pose proof (fun key =>
                jobs_loop_asking key (jobs cfg) 0
                  (fun k job (H : jobs cfg !! k = Some job) => H)) as Hloop.
  change (Z.of_nat 0) with 0 in Hloop.
  unfold run_jobs.
  destruct (jobs cfg) as [| j js]; triple_walk asking_side.
Qed.

(** No request of a run is made for a job after its results ran out. *)
Lemma run_no_return : no_return (trace (final (execute w cfg fuel))).
Proof.
  assert (H0 : idle_state cfg 0 (initial (length (jobs cfg)))).
  { split; [split; [exact Logic.I | constructor] |].
    split; [exact Logic.I | reflexivity]. }
  pose proof (run_jobs_asking _ H0) as Hb.
  unfold execute, run, catch, run_body, bind.
  destruct (run_jobs w cfg fuel (initial (length (jobs cfg))))
    as [[] s' | [ | e | ] s']; cbn [emit final trace record];
    unfold no_return_state, no_return_halt in Hb;
    repeat (split; [exact Logic.I |]); exact Hb.
Qed.

End RanOut.

Lemma no_return_later newer : forall older j p r p' reply,
  no_return (newer ++ NetSearch j p (SearchResponse r) :: older) ->
  ran_out r -> ~ In (NetSearch j p' reply) newer.
Proof.
  induction newer as [| e newer IH]; intros older j p r p' reply Hn Hout;
    [intros [] |].
  destruct Hn as [He Hn]. intros [Heq | Hin].
  - subst e. apply (He p r); [| exact Hout].
    apply in_or_app. right. left. reflexivity.
  - exact (IH _ _ _ _ _ _ Hn Hout Hin).
Qed.

(** X21.  Once a search request for a job is answered with status 200 and an
    empty list of results, no further search request is made for that job:
    the page loop of the job is left, and the run goes on with the next
    job. *)
Theorem no_request_after_results_ran_out (w : World) (cfg : Config)
    (fuel : nat) (before after : list Event) (j : Z) (p : Params)
    (r : Response) :
  events w cfg fuel = before ++ NetSearch j p (SearchResponse r) :: after ->
  status_code r = 200 -> results r = Some [] ->
  forall p' reply, ~ In (NetSearch j p' reply) after.
Proof.
  intros Hev Hstatus Hres p' reply Hin.
  pose proof (run_no_return w cfg fuel) as Hn.
  assert (Htr : trace (final (execute w cfg fuel)) =
                rev after ++ NetSearch j p (SearchResponse r) :: rev before).
  { rewrite <- (rev_involutive (trace (final (execute w cfg fuel)))).
    fold (events w cfg fuel). rewrite Hev, rev_app_distr. cbn [rev].
    rewrite <- app_assoc. reflexivity. }
  rewrite Htr in Hn.
  apply (no_return_later _ _ _ _ _ p' reply Hn (conj Hstatus Hres)).
  apply in_rev. rewrite rev_involutive. exact Hin.
Qed.

Lemma no_request_after_results_ran_out_witness :
  ~ In (NetSearch 1 (search_params three_pages "cats" 2)
          (SearchResponse (Sample.page_of [])))
       (skipn 12 (events empty_server three_pages 0)).
Proof.
  apply (no_request_after_results_ran_out empty_server three_pages 0
           (firstn 11 (events empty_server three_pages 0))
           (skipn 12 (events empty_server three_pages 0))
           1 (search_params three_pages "cats" 1) (Sample.page_of []));
    vm_compute; reflexivity.
Defined.
